(** * threejs_delaunay: points, physics and brute-force Delaunay triangulation

    A shallow embedding of the classes [Triangle], [PointManager],
    [DelaunayTriangulation], [InputHandler], [AudioManager] and [DelaunayApp],
    of [ColorUtils] and of the constant tables of [js/Constants.js].

    Numbers.  In the program state a JavaScript number is modelled as a real
    number: the arithmetic of the physics is exact there, and rounding,
    overflow, infinities and NaN are outside that model.  What depends on
    them is modelled apart, on the numbers the code computes with: the
    circumcircle test, the triangle search, the colour seed and the update
    of the points on binary64 numbers ([Binary64]); the colour generator,
    whose operands are integers that can exceed 2^53, on integers with the
    rounding of a double written out; the vertex buffers, which are
    [Float32Array]s, with the rounding to single precision.  [Math.floor]
    and the bitwise operators work on the exact integers.

    Objects.  Every [THREE.Mesh] created by [addPoint] is an object with an
    identity; the point array, the triangles and the drawables hold references
    to it.  The model keeps one store of point meshes indexed by references,
    an allocation pointer, the set of objects in the scene and the set of
    geometries and materials that were disposed of.

    Randomness.  [Math.random()] is a sequence of reals given from outside;
    the state counts the calls made so far.

    Events.  The handlers run one at a time; a run of the application is the
    list of the events it handled.

    The file has two parts: the definitions (the program, the vocabulary of
    the specification, the invariants, the concrete inputs), then the lemmas
    and the theorems: those on the claims C1 to C10 and further properties of
    the code, numbered from X1. *)

From Stdlib Require Import Floats.
From Stdlib Require Import Reals Lra Lia ZArith.
From stdpp Require Import base decidable option list strings gmap.

#[local] Open Scope R_scope.

(** ** Numbers *)

#[global] Instance Rlt_decision (x y : R) : Decision (x < y) := Rlt_dec x y.
#[global] Instance Rgt_decision (x y : R) : Decision (x > y) := Rgt_dec x y.
#[global] Instance Rge_decision (x y : R) : Decision (x >= y) := Rge_dec x y.
#[global] Instance Req_decision : EqDecision R := Req_dec_T.
#[global] Instance nat_ge_decision (x y : nat) : Decision (x >= y)%nat :=
  decide (y <= x)%nat.

(** The conversions the bitwise operators of JavaScript apply to their
    operands, on an integer. *)
Definition ToInt32 (z : Z) : Z := ((z + 2 ^ 31) mod 2 ^ 32 - 2 ^ 31)%Z.
Definition ToUint32 (z : Z) : Z := (z mod 2 ^ 32)%Z.

(** [a ^ b] *)
Definition bitxor (a b : Z) : Z := Z.lxor (ToInt32 a) (ToInt32 b).

(** [a >>> 0] *)
Definition ushr0 (a : Z) : Z := ToUint32 a.

(** [Math.floor] *)
Definition Math_floor (r : R) : Z := Int_part r.

#[global] Instance R_inhabited : Inhabited R := populate 0.

(** A number held by a [Float32Array]: a single-precision number, given by
    its value, or an infinity. *)
Inductive Float32 :=
  | F32 (value : R)
  | F32_infinity (negative : bool).

(** The integer nearest to [r], a tie going to the even one. *)
Definition roundHalfEven (r : R) : Z :=
  let f := Int_part r in
  if bool_decide (r - IZR f < 1 / 2) then f
  else if bool_decide (r - IZR f > 1 / 2) then (f + 1)%Z
  else if Z.even f then f else (f + 1)%Z.

(** The exponent of the leading bit of [r > 0]: the integer part of its
    binary logarithm. *)
Definition ilog2 (r : R) : Z := Int_part (ln r / ln 2).

(** What a store into a [Float32Array] keeps of a number: the nearest number
    with 24 significant bits and a last bit worth 2^-149 at least, a tie
    going to the even significand, and an infinity when that is 2^128 or
    more. *)
Definition toFloat32 (r : R) : Float32 :=
  if bool_decide (r = 0) then F32 0 else
  let e := Z.max (ilog2 (Rabs r) - 23) (-149) in
  let v := IZR (roundHalfEven (Rabs r / powerRZ 2 e)) * powerRZ 2 e in
  if bool_decide (v >= powerRZ 2 128) then F32_infinity (bool_decide (r < 0))
  else F32 (if bool_decide (r < 0) then - v else v).

(** ** Objects *)

(** A reference to an object of the JavaScript heap. *)
Abbreviation loc := nat.

(** [mesh.userData] as [addPoint] fills it. *)
Record UserData := mkUserData {
  vx : R;
  vy : R;
  origX : R;
  origY : R
}.

(** A point: a [THREE.Mesh] with its [position] and its [userData].
    [userData = None] is the empty object [removePoint] leaves behind. *)
Record Mesh := mkMesh {
  position_x : R;
  position_y : R;
  userData : option UserData
}.

#[global] Instance Mesh_inhabited : Inhabited Mesh := populate (mkMesh 0 0 None).

(** ** Triangle *)

Record Triangle := mkTriangle {
  p1 : loc;
  p2 : loc;
  p3 : loc
}.

Arguments mkTriangle (p1 p2 p3)%_nat.

#[global] Instance Triangle_eq_dec : EqDecision Triangle.
Proof. solve_decision. Defined.

Module Triangle.

(** The body of [Triangle.isPointInCircumcircle] on the coordinates of the
    three vertices and of the tested point, in exact arithmetic; what the
    code computes in double precision is [Binary64.Triangle.inCircumcircle]. *)
Definition inCircumcircle (x1 y1 x2 y2 x3 y3 px py : R) : bool :=
  let a := x1 * (y2 - y3) - y1 * (x2 - x3) + x2 * y3 - x3 * y2 in
  if bool_decide (Rabs a < 1e-6) then false else
  let b := (x1 * x1 + y1 * y1) * (y3 - y2) +
           (x2 * x2 + y2 * y2) * (y1 - y3) +
           (x3 * x3 + y3 * y3) * (y2 - y1) in
  let c := (x1 * x1 + y1 * y1) * (x2 - x3) +
           (x2 * x2 + y2 * y2) * (x3 - x1) +
           (x3 * x3 + y3 * y3) * (x1 - x2) in
  let d := (x1 * x1 + y1 * y1) * (x3 * y2 - x2 * y3) +
           (x2 * x2 + y2 * y2) * (x1 * y3 - x3 * y1) +
           (x3 * x3 + y3 * y3) * (x2 * y1 - x1 * y2) in
  let centerX := - b / (2 * a) in
  let centerY := - c / (2 * a) in
  let radiusSquared := (b * b + c * c - 4 * a * d) / (4 * a * a) in
  let distSq := (px - centerX) * (px - centerX) +
                (py - centerY) * (py - centerY) in
  bool_decide (distSq < radiusSquared).

(** [this.isPointInCircumcircle(p)]: the vertices and [p] are read from the
    store. *)
Definition isPointInCircumcircle (h : gmap loc Mesh) (this : Triangle) (p : loc) : bool :=
  inCircumcircle
    (position_x (h !!! p1 this)) (position_y (h !!! p1 this))
    (position_x (h !!! p2 this)) (position_y (h !!! p2 this))
    (position_x (h !!! p3 this)) (position_y (h !!! p3 this))
    (position_x (h !!! p)) (position_y (h !!! p)).

(** [this.getColorSeed()], the products being exact; with the products of
    double precision it is [Binary64.Triangle.getColorSeed]. *)
Definition getColorSeed (h : gmap loc Mesh) (this : Triangle) : Z :=
  let x1 := Math_floor (position_x (h !!! p1 this) * 73856093) in
  let y1 := Math_floor (position_y (h !!! p1 this) * 19349663) in
  let x2 := Math_floor (position_x (h !!! p2 this) * 83492791) in
  let y2 := Math_floor (position_y (h !!! p2 this) * 52801763) in
  let x3 := Math_floor (position_x (h !!! p3 this) * 92083207) in
  let y3 := Math_floor (position_y (h !!! p3 this) * 73856093) in
  ushr0 (bitxor (bitxor (bitxor (bitxor (bitxor x1 y1) x2) y2) x3) y3).

End Triangle.


(** ** Constants (js/Constants.js)

    The constant tables are global objects that every method reads when it
    runs; they are gathered in one record so that a statement can also speak
    about a run in which a table entry was given another value. *)

Record Constants := mkConstants {
  MAX_POINTS : nat;           (* PointConstants.MAX_POINTS *)
  FRICTION : R;               (* PhysicsConstants.FRICTION *)
  BOUNCE_FACTOR : R;          (* PhysicsConstants.BOUNCE_FACTOR *)
  Brownian_STRENGTH : R;      (* BrownianConstants.STRENGTH *)
  MAX_DISTANCE : R;           (* BrownianConstants.MAX_DISTANCE *)
  RETURN_FORCE : R;           (* BrownianConstants.RETURN_FORCE *)
  RADIUS : R;                 (* RepulsionConstants.RADIUS *)
  Repulsion_STRENGTH : R      (* RepulsionConstants.STRENGTH *)
}.

(** The values written in js/Constants.js. *)
Definition constants : Constants := {|
  MAX_POINTS := 30%nat;
  FRICTION := 0.9;
  BOUNCE_FACTOR := 0.5;
  Brownian_STRENGTH := 0.2;
  MAX_DISTANCE := 5.0;
  RETURN_FORCE := 0.1;
  RADIUS := 100.0;
  Repulsion_STRENGTH := 5.0
|}.

(** ** Program state *)

(** An entry of [DelaunayTriangulation.meshes]: the drawable of one triangle.
    [positionAttr] is the content of the geometry's position attribute, a
    [Float32Array], and [colorSeed] the seed the material's colour was
    generated from. *)
Record MeshObj := mkMeshObj {
  line : loc;
  geometry : loc;
  material : loc;
  triangle : Triangle;
  colorSeed : Z;
  positionAttr : list Float32
}.

Record State := mkState {
  heap : gmap loc Mesh;          (* the point meshes, by reference *)
  nextLoc : loc;                 (* the next fresh reference *)
  scene : gset loc;              (* the children of the THREE.Scene *)
  disposed : gset loc;           (* geometries and materials already disposed *)
  randomCalls : nat;             (* number of Math.random() calls made so far *)
  points : list loc;             (* PointManager.points *)
  lastAddedPoint : option loc;   (* PointManager.lastAddedPoint *)
  triangulation : bool;          (* PointManager.triangulation is set *)
  pointGeometry : loc;           (* PointManager.geometry *)
  pointMaterial : loc;           (* PointManager.material *)
  triangles : list Triangle;     (* DelaunayTriangulation.triangles *)
  meshes : list MeshObj          (* DelaunayTriangulation.meshes *)
}.

Definition set_heap (h : gmap loc Mesh) (s : State) : State :=
  mkState h (nextLoc s) (scene s) (disposed s) (randomCalls s) (points s)
          (lastAddedPoint s) (triangulation s)
          (pointGeometry s) (pointMaterial s) (triangles s) (meshes s).

Definition set_points (ps : list loc) (s : State) : State :=
  mkState (heap s) (nextLoc s) (scene s) (disposed s) (randomCalls s) ps
          (lastAddedPoint s) (triangulation s)
          (pointGeometry s) (pointMaterial s) (triangles s) (meshes s).

Definition set_scene (sc : gset loc) (s : State) : State :=
  mkState (heap s) (nextLoc s) sc (disposed s) (randomCalls s) (points s)
          (lastAddedPoint s) (triangulation s)
          (pointGeometry s) (pointMaterial s) (triangles s) (meshes s).

Definition set_disposed (d : gset loc) (s : State) : State :=
  mkState (heap s) (nextLoc s) (scene s) d (randomCalls s) (points s)
          (lastAddedPoint s) (triangulation s)
          (pointGeometry s) (pointMaterial s) (triangles s) (meshes s).

Definition set_lastAddedPoint (p : option loc) (s : State) : State :=
  mkState (heap s) (nextLoc s) (scene s) (disposed s) (randomCalls s) (points s)
          p (triangulation s)
          (pointGeometry s) (pointMaterial s) (triangles s) (meshes s).

Definition set_triangles (ts : list Triangle) (s : State) : State :=
  mkState (heap s) (nextLoc s) (scene s) (disposed s) (randomCalls s) (points s)
          (lastAddedPoint s) (triangulation s)
          (pointGeometry s) (pointMaterial s) ts (meshes s).

Definition set_meshes (ms : list MeshObj) (s : State) : State :=
  mkState (heap s) (nextLoc s) (scene s) (disposed s) (randomCalls s) (points s)
          (lastAddedPoint s) (triangulation s)
          (pointGeometry s) (pointMaterial s) (triangles s) ms.

Definition set_nextLoc (n : loc) (s : State) : State :=
  mkState (heap s) n (scene s) (disposed s) (randomCalls s) (points s)
          (lastAddedPoint s) (triangulation s)
          (pointGeometry s) (pointMaterial s) (triangles s) (meshes s).

Definition set_randomCalls (n : nat) (s : State) : State :=
  mkState (heap s) (nextLoc s) (scene s) (disposed s) n (points s)
          (lastAddedPoint s) (triangulation s)
          (pointGeometry s) (pointMaterial s) (triangles s) (meshes s).

(** The state after [initComponents] of [DelaunayApp]: the constructor of
    [PointManager] has created the geometry and the material of the points,
    there is no point and no triangle, and [setTriangulation] has registered
    the triangulation in the point manager. *)
Definition initial : State :=
  mkState ∅ 2%nat ∅ ∅ 0%nat [] None true 0%nat 1%nat [] [].

(** ** Updates of one mesh

    The state changes the methods of [PointManager] make to the mesh they are
    given.  The velocity lives in [userData]; on a mesh [removePoint] has
    emptied, JavaScript would read [undefined] and store NaN, which is outside
    the model: such a mesh is left as it is (no live point is in that state,
    see [wf_points_live]). *)
Module OnMesh.

Definition addVelocity (dvx dvy : R) (m : Mesh) : Mesh :=
  match userData m with
  | Some u =>
      mkMesh (position_x m) (position_y m)
             (Some (mkUserData (vx u + dvx) (vy u + dvy) (origX u) (origY u)))
  | None => m
  end.

(** [applyRepulsionForce(point, other, strength, radius)], [ox], [oy] being
    the position of [other]. *)
Definition applyRepulsionForce (ox oy strength radius : R) (m : Mesh) : Mesh :=
  let dx := position_x m - ox in
  let dy := position_y m - oy in
  let distSq := dx * dx + dy * dy in
  if bool_decide (distSq < radius * radius) && bool_decide (distSq > 0) then
    let dist := sqrt distSq in
    let force := strength * (1.0 - dist / radius) in
    addVelocity (dx / dist * force) (dy / dist * force) m
  else m.

Definition constrainToOriginalPosition (maxDistance returnForce : R) (m : Mesh) : Mesh :=
  match userData m with
  | Some u =>
      let dx := position_x m - origX u in
      let dy := position_y m - origY u in
      let dist := sqrt (dx * dx + dy * dy) in
      if bool_decide (dist > maxDistance) then
        let force := (dist - maxDistance) * returnForce in
        addVelocity (- (dx / dist * force)) (- (dy / dist * force)) m
      else m
  | None => m
  end.

Definition applyFriction (friction : R) (m : Mesh) : Mesh :=
  match userData m with
  | Some u =>
      mkMesh (position_x m) (position_y m)
             (Some (mkUserData (vx u * friction) (vy u * friction) (origX u) (origY u)))
  | None => m
  end.

(** One of the four tests of [constrainToScreen] on the x axis: the position
    is set to [bound] and the velocity reflected. *)
Definition bounceX (bound bounceFactor : R) (m : Mesh) : Mesh :=
  mkMesh bound (position_y m)
         ((fun u => mkUserData (- vx u * bounceFactor) (vy u) (origX u) (origY u))
            <$> userData m).

Definition bounceY (bound bounceFactor : R) (m : Mesh) : Mesh :=
  mkMesh (position_x m) bound
         ((fun u => mkUserData (vx u) (- vy u * bounceFactor) (origX u) (origY u))
            <$> userData m).

Definition constrainToScreen (halfWidth halfHeight bounceFactor : R) (m : Mesh) : Mesh :=
  let m1 := if bool_decide (position_x m < - halfWidth)
            then bounceX (- halfWidth) bounceFactor m else m in
  let m2 := if bool_decide (position_x m1 > halfWidth)
            then bounceX halfWidth bounceFactor m1 else m1 in
  let m3 := if bool_decide (position_y m2 < - halfHeight)
            then bounceY (- halfHeight) bounceFactor m2 else m2 in
  if bool_decide (position_y m3 > halfHeight)
  then bounceY halfHeight bounceFactor m3 else m3.

(** [point.position.x += point.userData.vx; point.position.y += point.userData.vy] *)
Definition move (m : Mesh) : Mesh :=
  match userData m with
  | Some u => mkMesh (position_x m + vx u) (position_y m + vy u) (Some u)
  | None => m
  end.

End OnMesh.

(** ** DelaunayTriangulation *)

Module DelaunayTriangulation.

Definition Z_OFFSET : R := -0.1.

(** The inner loop over [l] of [findDelaunayTriangles]: [isDelaunay] stays
    true when no iteration finds a point in the circumcircle. *)
Definition isDelaunay (h : gmap loc Mesh) (points : list loc)
    (tri : Triangle) (i j k : nat) : bool :=
  forallb
    (fun l =>
       negb (bool_decide (l ≠ i) && bool_decide (l ≠ j) && bool_decide (l ≠ k)
             && Triangle.isPointInCircumcircle h tri (points !!! l)))
    (seq 0 (length points)).

(** The three nested loops over [i < j < k], on the point array [points]. *)
Definition delaunayTrianglesOf (h : gmap loc Mesh) (points : list loc) : list Triangle :=
  let n := length points in
  if bool_decide (n < 3)%nat then [] else
  i ← seq 0 (n - 2);
  j ← seq (i + 1) (n - 1 - (i + 1));
  k ← seq (j + 1) (n - (j + 1));
  let tri := mkTriangle (points !!! i) (points !!! j) (points !!! k) in
  if isDelaunay h points tri i j k then [tri] else [].

Definition findDelaunayTriangles (s : State) : list Triangle :=
  delaunayTrianglesOf (heap s) (points s).

Definition getTriangleVertices (h : gmap loc Mesh) (triangle : Triangle) : list (R * R * R) :=
  [ (position_x (h !!! p1 triangle), position_y (h !!! p1 triangle), Z_OFFSET);
    (position_x (h !!! p2 triangle), position_y (h !!! p2 triangle), Z_OFFSET);
    (position_x (h !!! p3 triangle), position_y (h !!! p3 triangle), Z_OFFSET) ].

(** The vertex array of the three edges: for [i] in 0..2, [vertices[i]] and
    [vertices[(i + 1) % 3]]. *)
Definition lineVertices (vertices : list (R * R * R)) : list (R * R * R) :=
  i ← seq 0 3; [vertices !!! i; vertices !!! ((i + 1) mod 3)%nat].

(** The 18 coordinates of a vertex array, as the [Float32Array] of a
    position attribute holds them. *)
Definition coordinates (vs : list (R * R * R)) : list Float32 :=
  v ← vs; [toFloat32 v.1.1; toFloat32 v.1.2; toFloat32 v.2].

Definition drawTriangle (triangle : Triangle) (s : State) : State :=
  let colorSeed := Triangle.getColorSeed (heap s) triangle in
  let vertices := getTriangleVertices (heap s) triangle in
  let geometry := nextLoc s in
  let material := S (nextLoc s) in
  let lineSegments := S (S (nextLoc s)) in
  set_meshes
    (meshes s ++ [mkMeshObj lineSegments geometry material triangle colorSeed
                            (coordinates (lineVertices vertices))])
    (set_scene ({[lineSegments]} ∪ scene s)
       (set_nextLoc (S (S (S (nextLoc s)))) s)).

Definition updateTrianglePositions (s : State) : State :=
  set_meshes
    (map (fun meshObj =>
            let vertices := getTriangleVertices (heap s) (triangle meshObj) in
            mkMeshObj (line meshObj) (geometry meshObj) (material meshObj)
                      (triangle meshObj) (colorSeed meshObj)
                      (coordinates (lineVertices vertices)))
         (meshes s))
    s.

Definition clearTriangleMeshes (s : State) : State :=
  set_meshes []
    (fold_left
       (fun s meshObj =>
          set_disposed ({[material meshObj]} ∪ ({[geometry meshObj]} ∪ disposed s))
            (set_scene (scene s ∖ {[line meshObj]}) s))
       (meshes s) s).

Definition calculateAndDraw (s : State) : State :=
  let s := clearTriangleMeshes s in
  if bool_decide (length (points s) >= 3)%nat then
    let s := set_triangles (findDelaunayTriangles s) s in
    fold_left (fun s triangle => drawTriangle triangle s) (triangles s) s
  else s.

Definition dispose (s : State) : State :=
  set_triangles [] (clearTriangleMeshes s).

End DelaunayTriangulation.

(** ** PointManager *)

Module PointManager.

Section Methods.

(** The constant tables, and the values successive calls of [Math.random()]
    return. *)
Context (cfg : Constants) (random : nat → R).

Definition removePoint (point : option loc) (s : State) : State :=
  match point with
  | Some p =>
      set_heap (alter (fun m => mkMesh (position_x m) (position_y m) None) p (heap s))
        (set_scene (scene s ∖ {[p]}) s)
  | None => s
  end.

(** [addPoint(x, y)], in a window of [innerWidth] by [innerHeight]; the
    result is the new state and the mesh returned. *)
Definition addPoint (innerWidth innerHeight x y : R) (s : State) : State * loc :=
  let s :=
    if bool_decide (length (points s) >= MAX_POINTS cfg)%nat then
      let oldestPoint := head (points s) in
      removePoint oldestPoint (set_points (tail (points s)) s)
    else s in
  let threeX := x - innerWidth / 2 in
  let threeY := innerHeight / 2 - y in
  let mesh := nextLoc s in
  let s := set_nextLoc (S mesh)
             (set_heap (<[mesh := mkMesh threeX threeY
                                         (Some (mkUserData 0 0 threeX threeY))]> (heap s)) s) in
  let s := set_scene ({[mesh]} ∪ scene s) s in
  let s := set_points (points s ++ [mesh]) s in
  let s := set_lastAddedPoint (Some mesh) s in
  (s, mesh).

Definition applyRepulsionForce (point other : loc) (strength radius : R)
    (h : gmap loc Mesh) : gmap loc Mesh :=
  alter (OnMesh.applyRepulsionForce (position_x (h !!! other)) (position_y (h !!! other))
                                    strength radius) point h.

Definition applyRepulsion (newPoint : loc) (s : State) : State :=
  let s := set_lastAddedPoint (Some newPoint) s in
  let s :=
    fold_left
      (fun s point =>
         if bool_decide (point = newPoint) then s
         else set_heap (applyRepulsionForce point newPoint (Repulsion_STRENGTH cfg)
                                            (RADIUS cfg) (heap s)) s)
      (points s) s in
  if triangulation s && bool_decide (length (points s) >= 3)%nat
  then DelaunayTriangulation.calculateAndDraw s
  else s.

Definition applyBrownianMotion (s : State) : State :=
  fold_left
    (fun s point =>
       let r1 := random (randomCalls s) in
       let r2 := random (S (randomCalls s)) in
       set_randomCalls (S (S (randomCalls s)))
         (set_heap (alter (OnMesh.addVelocity ((r1 - 0.5) * Brownian_STRENGTH cfg)
                                              ((r2 - 0.5) * Brownian_STRENGTH cfg))
                          point (heap s)) s))
    (points s) s.

Definition constrainToOriginalPosition (point : loc) (maxDistance returnForce : R)
    (h : gmap loc Mesh) : gmap loc Mesh :=
  alter (OnMesh.constrainToOriginalPosition maxDistance returnForce) point h.

Definition applyPositionConstraints (s : State) : State :=
  fold_left
    (fun s point =>
       set_heap (constrainToOriginalPosition point (MAX_DISTANCE cfg) (RETURN_FORCE cfg)
                                             (heap s)) s)
    (points s) s.

Definition applyFriction (point : loc) (friction : R) (h : gmap loc Mesh) : gmap loc Mesh :=
  alter (OnMesh.applyFriction friction) point h.

Definition constrainToScreen (point : loc) (halfWidth halfHeight bounceFactor : R)
    (h : gmap loc Mesh) : gmap loc Mesh :=
  alter (OnMesh.constrainToScreen halfWidth halfHeight bounceFactor) point h.

(** One iteration of the loop of [updatePoints]; the boolean is
    [positionsChanged]. *)
Definition updatePoint (screenWidth screenHeight : R) (acc : State * bool) (point : loc)
    : State * bool :=
  let s := acc.1 in
  let oldX := position_x (heap s !!! point) in
  let oldY := position_y (heap s !!! point) in
  let h := alter OnMesh.move point (heap s) in
  let h := constrainToScreen point (screenWidth / 2) (screenHeight / 2)
                             (BOUNCE_FACTOR cfg) h in
  let h := applyFriction point (FRICTION cfg) h in
  (set_heap h s,
   if bool_decide (oldX ≠ position_x (h !!! point) ∨ oldY ≠ position_y (h !!! point))
   then true else acc.2).

Definition updatePoints (screenWidth screenHeight : R) (s : State) : State :=
  let s := applyBrownianMotion s in
  let s := applyPositionConstraints s in
  let '(s, positionsChanged) :=
    fold_left (updatePoint screenWidth screenHeight) (points s) (s, false) in
  if positionsChanged && triangulation s
  then DelaunayTriangulation.updateTrianglePositions s
  else s.

Definition getPoints (s : State) : list loc := points s.

Definition getLastAddedPoint (s : State) : option loc := lastAddedPoint s.

Definition dispose (s : State) : State :=
  let s := set_points []
             (fold_left (fun s point => removePoint (Some point) s) (points s) s) in
  set_disposed ({[pointMaterial s]} ∪ ({[pointGeometry s]} ∪ disposed s)) s.

End Methods.

End PointManager.

(** ** InputHandler and DelaunayApp *)

Module InputHandler.

(** What [handleMouseDown] (and [handleTouchStart]) does to the points when
    no touch is in progress: the new point is added at the coordinates [x],
    [y] of the event relative to the container and repels the others.  The
    [isTouch] flag and the audio feedback are not part of this function; the
    handlers with both are in [Page]. *)
Definition handleMouseDown (cfg : Constants) (innerWidth innerHeight x y : R) (s : State)
    : State :=
  let newPoint := PointManager.addPoint cfg innerWidth innerHeight x y s in
  PointManager.applyRepulsion cfg newPoint.2 newPoint.1.

End InputHandler.

(** The events the application reacts to, with the window size at the time
    of a press and the size the application recorded at the time of a
    frame. *)
Inductive Event :=
  | MouseDown (innerWidth innerHeight x y : R)
  | AnimationFrame (width height : R)
  | WindowResize.

Module DelaunayApp.

(** [animate] calls [updatePoints(this.width, this.height)] and
    [onWindowResize] calls [calculateAndDraw]; rendering is not modelled. *)
Definition handle (cfg : Constants) (random : nat → R) (s : State) (e : Event) : State :=
  match e with
  | MouseDown innerWidth innerHeight x y =>
      InputHandler.handleMouseDown cfg innerWidth innerHeight x y s
  | AnimationFrame width height => PointManager.updatePoints cfg random width height s
  | WindowResize => DelaunayTriangulation.calculateAndDraw s
  end.

Definition run (cfg : Constants) (random : nat → R) (events : list Event) (s : State)
    : State :=
  fold_left (handle cfg random) events s.

(** [dispose], for the components the state holds: the triangulation is
    disposed of first, then the point manager. *)
Definition dispose (s : State) : State :=
  PointManager.dispose (DelaunayTriangulation.dispose s).

End DelaunayApp.

(** ** Runs of the program *)

(** A call of [addPoint]: the window size at the time of the call and the
    screen coordinates of the new point. *)
Record AddPointCall := mkAddPointCall {
  call_innerWidth : R;
  call_innerHeight : R;
  call_x : R;
  call_y : R
}.

(** A sequence of [addPoint] calls, continuing a run: the second component
    collects the meshes the calls returned, oldest first. *)
Definition addPointsFrom (cfg : Constants) (calls : list AddPointCall)
    (acc : State * list loc) : State * list loc :=
  fold_left
    (fun acc call =>
       let r := PointManager.addPoint cfg (call_innerWidth call) (call_innerHeight call)
                                      (call_x call) (call_y call) acc.1 in
       (r.1, acc.2 ++ [r.2]))
    calls acc.

Definition addPoints (cfg : Constants) (calls : list AddPointCall) (s : State)
    : State * list loc :=
  addPointsFrom cfg calls (s, []).


(** ** Well-formed states

    What holds of every state the methods build: the live points are distinct
    objects of the store that carry their [userData], and the references in
    use were all handed out by the allocator. *)
Record wf (s : State) : Prop := mkWf {
  wf_points_live :
    ∀ p, p ∈ points s → ∃ m u, heap s !! p = Some m ∧ userData m = Some u;
  wf_points_NoDup : NoDup (points s);
  wf_heap_fresh : ∀ p, is_Some (heap s !! p) → (p < nextLoc s)%nat;
  wf_lines_fresh : ∀ meshObj, meshObj ∈ meshes s → (line meshObj < nextLoc s)%nat
}.

(** ** Vocabulary of the specification *)

(** Squared distance between two points of the plane. *)
Definition dist2 (x y cx cy : R) : R := (x - cx) * (x - cx) + (y - cy) * (y - cy).

(** The three points lie on one line. *)
Definition collinear (x1 y1 x2 y2 x3 y3 : R) : Prop :=
  (x2 - x1) * (y3 - y1) = (x3 - x1) * (y2 - y1).



(** The determinant [a] of [isPointInCircumcircle]. *)
Definition det_a (x1 y1 x2 y2 x3 y3 : R) : R :=
  x1 * (y2 - y3) - y1 * (x2 - x3) + x2 * y3 - x3 * y2.

(** The same notions on the objects of a store. *)
Definition collinearAt (h : gmap loc Mesh) (a b c : loc) : Prop :=
  collinear (position_x (h !!! a)) (position_y (h !!! a))
            (position_x (h !!! b)) (position_y (h !!! b))
            (position_x (h !!! c)) (position_y (h !!! c)).

Definition triangleDet (h : gmap loc Mesh) (t : Triangle) : R :=
  det_a (position_x (h !!! p1 t)) (position_y (h !!! p1 t))
        (position_x (h !!! p2 t)) (position_y (h !!! p2 t))
        (position_x (h !!! p3 t)) (position_y (h !!! p3 t)).

(** The triangle on the points of indices [i < j < k] of the point array. *)
Definition triangleAt (pts : list loc) (i j k : nat) : Triangle :=
  mkTriangle (pts !!! i) (pts !!! j) (pts !!! k).

Arguments triangleAt pts (i j k)%_nat.

(** Two entries of the drawable table are the same drawable: same line
    object, same geometry and material objects, for the same triangle; only
    the vertex coordinates may differ. *)
Definition sameDrawable (a b : MeshObj) : Prop :=
  line a = line b ∧ geometry a = geometry b ∧ material a = material b ∧
  triangle a = triangle b ∧ colorSeed a = colorSeed b.

(** Distance of a point from its origin. *)
Definition distanceFromOrigin (m : Mesh) : R :=
  match userData m with
  | Some u => sqrt (dist2 (position_x m) (position_y m) (origX u) (origY u))
  | None => 0
  end.

(** The position is inside the screen rectangle. *)
Definition onScreen (screenWidth screenHeight : R) (m : Mesh) : Prop :=
  - (screenWidth / 2) <= position_x m <= screenWidth / 2 ∧
  - (screenHeight / 2) <= position_y m <= screenHeight / 2.




(** The multipliers of [getColorSeed], in the order of the six terms
    [x1, y1, x2, y2, x3, y3]. *)
Definition seedMultipliers : list Z :=
  [73856093; 19349663; 83492791; 52801763; 92083207; 73856093]%Z.

(** The body of the loop of [applyBrownianMotion]. *)
Definition brownianStep (cfg : Constants) (random : nat → R) (s : State) (point : loc)
    : State :=
  let r1 := random (randomCalls s) in
  let r2 := random (S (randomCalls s)) in
  set_randomCalls (S (S (randomCalls s)))
    (set_heap (alter (OnMesh.addVelocity ((r1 - 0.5) * Brownian_STRENGTH cfg)
                                         ((r2 - 0.5) * Brownian_STRENGTH cfg))
                     point (heap s)) s).

(** What the loop of [updatePoints] does to the mesh of a live point:
    integration, screen constraint, friction. *)
Definition integrateMesh (cfg : Constants) (screenWidth screenHeight : R) (m : Mesh) : Mesh :=
  OnMesh.applyFriction (FRICTION cfg)
    (OnMesh.constrainToScreen (screenWidth / 2) (screenHeight / 2) (BOUNCE_FACTOR cfg)
       (OnMesh.move m)).

(** What one tick does to a live point: the updates of [updatePoints] in
    their order, [r1] and [r2] being the two random draws of the point. *)
Definition tickMesh (cfg : Constants) (r1 r2 screenWidth screenHeight : R) (m : Mesh) : Mesh :=
  integrateMesh cfg screenWidth screenHeight
    (OnMesh.constrainToOriginalPosition (MAX_DISTANCE cfg) (RETURN_FORCE cfg)
       (OnMesh.addVelocity ((r1 - 0.5) * Brownian_STRENGTH cfg)
                           ((r2 - 0.5) * Brownian_STRENGTH cfg) m)).

(** ** ColorUtils

    The seed [generatePastelColor] receives is an integer, and the products
    it forms can exceed 2^53, beyond which a JavaScript number no longer
    holds every integer.  Here the arithmetic is therefore done on integers
    with the rounding of a double written out. *)

(** The double nearest to the integer [z], ties going to the even
    significand of 53 bits (no overflow below 2^1024). *)
Definition roundToDouble (z : Z) : Z :=
  let e := (Z.log2 (Z.abs z) - 52)%Z in
  if (e <=? 0)%Z then z else
  let q := (Z.abs z / 2 ^ e)%Z in
  let r := (Z.abs z mod 2 ^ e)%Z in
  let half := (2 ^ (e - 1))%Z in
  let q' := if (r <? half)%Z then q
            else if (half <? r)%Z then (q + 1)%Z
            else if Z.even q then q else (q + 1)%Z in
  (Z.sgn z * (q' * 2 ^ e))%Z.

(** [a * b], [a + b] and [a % b] on numbers that hold integers. *)
Definition jsmul (a b : Z) : Z := roundToDouble (a * b).
Definition jsadd (a b : Z) : Z := roundToDouble (a + b).
Definition jsrem (a b : Z) : Z := Z.rem a b.

(** [a << n] and [a | b] *)
Definition shl (a n : Z) : Z := ToInt32 (Z.shiftl (ToInt32 a) (n mod 32)).
Definition bitor (a b : Z) : Z := Z.lor (ToInt32 a) (ToInt32 b).

Module ColorUtils.

Definition generatePastelColor (seed : Z) : Z :=
  let r := jsadd (jsrem (jsadd (jsmul seed 1664525) 1013904223) 128) 128 in
  let g := jsadd (jsrem (jsadd (jsmul seed 22695477) 1) 128) 128 in
  let b := jsadd (jsrem (jsadd (jsmul seed 214013) 2531011) 128) 128 in
  bitor (bitor (shl r 16) (shl g 8)) b.

End ColorUtils.

(** The three channels of a colour [0xRRGGBB]. *)
Definition red (color : Z) : Z := ((color / 65536) mod 256)%Z.
Definition green (color : Z) : Z := ((color / 256) mod 256)%Z.
Definition blue (color : Z) : Z := (color mod 256)%Z.

(** The colour [drawTriangle] gave to the material of a drawable. *)
Definition materialColor (meshObj : MeshObj) : Z :=
  ColorUtils.generatePastelColor (colorSeed meshObj).

(** ** Invariants of the running application *)

(** The drawables [drawTriangle] appends for the triangles [ts], the first
    one on the fresh references [n], [n + 1] and [n + 2], with the positions
    read from the store [h]. *)
Fixpoint drawablesFrom (h : gmap loc Mesh) (n : loc) (ts : list Triangle) : list MeshObj :=
  match ts with
  | [] => []
  | t :: ts =>
      mkMeshObj (S (S n)) n (S n) t (Triangle.getColorSeed h t)
                (DelaunayTriangulation.coordinates
                   (DelaunayTriangulation.lineVertices
                      (DelaunayTriangulation.getTriangleVertices h t)))
      :: drawablesFrom h (S (S (S n))) ts
  end.

(** The loop of [applyRepulsion], after [lastAddedPoint] was recorded and
    before the triangulation is recalculated. *)
Definition repulsionLoop (cfg : Constants) (newPoint : loc) (s : State) : State :=
  fold_left
    (fun s point =>
       if bool_decide (point = newPoint) then s
       else set_heap (PointManager.applyRepulsionForce
                        point newPoint (Repulsion_STRENGTH cfg) (RADIUS cfg) (heap s)) s)
    (points s) (set_lastAddedPoint (Some newPoint) s).

(** The objects of a state are accounted for: the scene holds the live
    points and the lines of the drawables and nothing else; every drawable
    is made of three objects of its own that are no point mesh and were not
    disposed of; what was disposed of are objects the allocator handed out
    after the geometry and the material of the points. *)
Record tidy (s : State) : Prop := mkTidy {
  tidy_wf : wf s;
  tidy_triangulation : triangulation s = true;
  tidy_point_resources :
    pointGeometry s = 0%nat ∧ pointMaterial s = 1%nat ∧ (2 ≤ nextLoc s)%nat;
  tidy_scene : ∀ l, l ∈ scene s ↔ l ∈ points s ∨ l ∈ map line (meshes s);
  tidy_drawables :
    ∀ meshObj, meshObj ∈ meshes s →
      (2 ≤ geometry meshObj)%nat ∧
      material meshObj = S (geometry meshObj) ∧
      line meshObj = S (S (geometry meshObj)) ∧
      (line meshObj < nextLoc s)%nat ∧
      heap s !! line meshObj = None ∧
      (geometry meshObj ∉ disposed s) ∧ (material meshObj ∉ disposed s) ∧
      (0 <= colorSeed meshObj < 2 ^ 32)%Z;
  tidy_disposed : ∀ l, l ∈ disposed s → (2 ≤ l < nextLoc s)%nat
}.

(** The triangulation is the one of the live points: the drawables are
    those of the triangle list, in its order; the triangles are made of live
    points and are no more than the index triples; the vertex buffer of
    every drawable holds the current positions of its three points. *)
Record coherent (s : State) : Prop := mkCoherent {
  coh_tidy : tidy s;
  coh_meshes : map triangle (meshes s) = triangles s;
  coh_vertices :
    ∀ t, t ∈ triangles s → p1 t ∈ points s ∧ p2 t ∈ points s ∧ p3 t ∈ points s;
  coh_count :
    (6 * length (triangles s)
     ≤ length (points s) * (length (points s) - 1) * (length (points s) - 2))%nat;
  coh_sync :
    ∀ meshObj, meshObj ∈ meshes s →
      positionAttr meshObj =
      DelaunayTriangulation.coordinates
        (DelaunayTriangulation.lineVertices
           (DelaunayTriangulation.getTriangleVertices (heap s) (triangle meshObj)))
}.

(** The origin a point returns to, while the mesh has its [userData]. *)
Definition originOf (m : Mesh) : option (R * R) :=
  (fun u => (origX u, origY u)) <$> userData m.
(** ** AudioManager

    The manager is modelled with the Web Audio objects it touches: an audio
    context that exists or not and is closed or not, and the oscillator and
    gain nodes it creates, with the properties the code sets on them.  A
    callback given to [setTimeout] waits in the list of pending timers until
    the event loop runs it.  The calls made on started oscillators and on
    connected nodes ([stop], [disconnect]) do not throw.

    [this.effects] is a plain object used as a map from names to effect
    definitions.  The map of the model holds its own properties and, under
    the key '__proto__', the definition an assignment to that name installs
    as the prototype of the object, which is what a later read of that name
    returns. *)
Module AudioManager.

(** The [options] of an effect; a field the object does not have is
    [None]. *)
Record Options := mkOptions {
  type : option string;
  frequency : option R;
  volume : option R;
  duration : option R
}.

(** An effect definition, [{ type, options }]. *)
Record Effect := mkEffect {
  effect_type : option string;
  options : option Options
}.

(** An audio node: an oscillator with its [type] and [frequency.value], or a
    gain node with its [gain.value]. *)
Inductive NodeKind :=
  | OscillatorNode (oscillatorType : string) (frequencyValue : R)
  | GainNode (gainValue : R).

Record Node := mkNode {
  kind : NodeKind;
  playing : bool;      (* an oscillator that was started and not stopped *)
  connected : bool     (* the node has an outgoing connection *)
}.

(** A pending [setTimeout] callback of [playOscillator], with the nodes it
    closes over. *)
Record Timer := mkTimer {
  delay : R;
  timer_oscillator : loc;
  timer_gainNode : loc
}.

Record Audio := mkAudio {
  context : bool;                (* [this.context] is not null *)
  closed : bool;                 (* [this.context.state] is 'closed' *)
  activeNodes : gset loc;        (* [this.activeNodes] *)
  effects : gmap string Effect;  (* [this.effects] *)
  nodes : gmap loc Node;         (* the audio nodes created so far *)
  nextNode : loc;                (* the next fresh node reference *)
  timers : list Timer            (* the pending timeouts *)
}.

(** The constructor; [supported] tells whether [new AudioContext()]
    succeeds. *)
Definition constructor (supported : bool) : Audio :=
  mkAudio supported false ∅
    {[ "touch" := mkEffect (Some "oscillator")
                    (Some (mkOptions (Some "sine") (Some 659.26) (Some 0.2) (Some 50))) ]}
    ∅ 0%nat [].

(** [value || fallback] on a string and on a number: the empty string and 0
    are falsy, like a missing field. *)
Definition orString (value : option string) (fallback : string) : string :=
  match value with
  | Some v => if decide (v = "") then fallback else v
  | None => fallback
  end.

Definition orNumber (value : option R) (fallback : R) : R :=
  match value with
  | Some v => if decide (v = 0) then fallback else v
  | None => fallback
  end.

(** How a call ends: it returns a value or throws. *)
Inductive Outcome (A : Type) :=
  | Returned (value : A)
  | Threw.

Arguments Returned {A} value.
Arguments Threw {A}.

(** The setter of [oscillator.type]: one of the four wave forms is stored,
    'custom' is refused with an exception, and any other string is ignored,
    the type staying what it was. *)
Definition isWaveform (value : string) : bool :=
  bool_decide (value = "sine") || bool_decide (value = "square") ||
  bool_decide (value = "sawtooth") || bool_decide (value = "triangle").

Definition setType (value current : string) : Outcome string :=
  if decide (value = "custom") then Threw
  else if isWaveform value then Returned value
  else Returned current.

(** [playOscillator(options)].  Both nodes are created before [options] is
    read; reading a field of [undefined] throws, and so does the type
    'custom'. *)
Definition playOscillator (options : option Options) (a : Audio) : Audio * Outcome unit :=
  let oscillator := nextNode a in
  let gainNode := S (nextNode a) in
  let created :=
    <[gainNode := mkNode (GainNode 1) false false]>
      (<[oscillator := mkNode (OscillatorNode "sine" 440) false false]> (nodes a)) in
  let failed :=
    (mkAudio (context a) (closed a) (activeNodes a) (effects a) created
             (S (S (nextNode a))) (timers a), Threw) in
  match options with
  | None => failed
  | Some options =>
      match setType (orString (type options) "sine") "sine" with
      | Threw => failed
      | Returned oscillatorType =>
          let configured :=
            <[gainNode := mkNode (GainNode (orNumber (volume options) 0.5)) false true]>
              (<[oscillator :=
                   mkNode (OscillatorNode oscillatorType
                                          (orNumber (frequency options) 440))
                          true true]> (nodes a)) in
          (mkAudio (context a) (closed a)
                   ({[gainNode]} ∪ ({[oscillator]} ∪ activeNodes a))
                   (effects a) configured (S (S (nextNode a)))
                   (timers a ++
                      [mkTimer (orNumber (duration options) 500) oscillator gainNode]),
           Returned tt)
      end
  end.

(** [this.effects[effectName]] where the object has no own property of that
    name: the value is inherited.  What the prototype of a plain object
    provides has no [type], and [play] gives up on it like on a missing
    effect.  A definition installed as the prototype provides its [type], a
    string, which has no [type] either, and its [options]: when the [type]
    of these is 'oscillator', [play] takes them for an oscillator effect,
    which has no [options] of its own. *)
Definition inheritedOscillator (effectName : string) (a : Audio) : bool :=
  if decide (effectName = "options") then
    match effects a !! "__proto__" with
    | Some definition =>
        match options definition with
        | Some o => bool_decide (type o = Some "oscillator")
        | None => false
        end
    | None => false
    end
  else false.

(** [play(effectName)] *)
Definition play (effectName : string) (a : Audio) : Audio * Outcome bool :=
  if negb (context a) then (a, Returned false) else
  match effects a !! effectName with
  | None =>
      if inheritedOscillator effectName a then
        match playOscillator None a with
        | (a, Returned _) => (a, Returned true)
        | (a, Threw) => (a, Threw)
        end
      else (a, Returned false)
  | Some effect =>
      if decide (effect_type effect = Some "oscillator") then
        match playOscillator (options effect) a with
        | (a, Returned _) => (a, Returned true)
        | (a, Threw) => (a, Threw)
        end
      else (a, Returned false)
  end.

(** [addEffect(name, definition)] *)
Definition addEffect (name : string) (definition : Effect) (a : Audio) : Audio :=
  mkAudio (context a) (closed a) (activeNodes a) (<[name := definition]> (effects a))
          (nodes a) (nextNode a) (timers a).

(** [node.stop()] where the node has the method, and [node.disconnect()]. *)
Definition stop (n : Node) : Node :=
  match kind n with
  | OscillatorNode _ _ => mkNode (kind n) false (connected n)
  | GainNode _ => n
  end.

Definition disconnect (n : Node) : Node := mkNode (kind n) (playing n) false.

(** The callback of the [i]-th pending timeout runs: the oscillator is
    stopped, both nodes leave [activeNodes] and are disconnected. *)
Definition timerFires (i : nat) (a : Audio) : Audio :=
  match timers a !! i with
  | None => a
  | Some t =>
      mkAudio (context a) (closed a)
              (activeNodes a ∖ {[timer_oscillator t]} ∖ {[timer_gainNode t]})
              (effects a)
              (alter disconnect (timer_gainNode t)
                 (alter (fun n => disconnect (stop n)) (timer_oscillator t) (nodes a)))
              (nextNode a) (delete i (timers a))
  end.

(** [dispose()]: every active node is stopped and disconnected, the set is
    cleared and the context closed. *)
Definition dispose (a : Audio) : Audio :=
  mkAudio (context a) (closed a || context a) ∅ (effects a)
          (set_fold (fun node ns => alter (fun n => disconnect (stop n)) node ns)
                    (nodes a) (activeNodes a))
          (nextNode a) (timers a).

End AudioManager.

(** The calls made on an [AudioManager] and the timeouts that expire, in
    the order in which they happen. *)
Inductive AudioOp :=
  | Play (effectName : string)
  | AddEffect (name : string) (definition : AudioManager.Effect)
  | TimerFires (i : nat).

Definition audioStep (a : AudioManager.Audio) (op : AudioOp) : AudioManager.Audio :=
  match op with
  | Play effectName => (AudioManager.play effectName a).1
  | AddEffect name definition => AudioManager.addEffect name definition a
  | TimerFires i => AudioManager.timerFires i a
  end.

Definition audioRun (ops : list AudioOp) (a : AudioManager.Audio) : AudioManager.Audio :=
  fold_left audioStep ops a.

(** The nodes the pending timeouts will release. *)
Definition timerNodes (ts : list AudioManager.Timer) : list loc :=
  t ← ts; [AudioManager.timer_oscillator t; AudioManager.timer_gainNode t].

(** The active nodes are the nodes of the pending timeouts, each owned by
    one timeout, connected, and created by the manager. *)
Record tracked (a : AudioManager.Audio) : Prop := mkTracked {
  tracked_active : ∀ l, l ∈ AudioManager.activeNodes a ↔ l ∈ timerNodes (AudioManager.timers a);
  tracked_NoDup : NoDup (timerNodes (AudioManager.timers a));
  tracked_fresh : ∀ l, l ∈ timerNodes (AudioManager.timers a) → (l < AudioManager.nextNode a)%nat;
  tracked_connected :
    ∀ l, l ∈ AudioManager.activeNodes a →
         ∃ n, AudioManager.nodes a !! l = Some n ∧ AudioManager.connected n = true
}.

(** ** The page: the components and their listeners

    [DelaunayApp] with its [InputHandler] and its [AudioManager].  The
    handlers registered on the container, on the document and on the window
    are state: a press registers a one-shot release listener on the document,
    and [dispose] removes the handlers of the container and of the window and
    cancels the animation frame. *)
Module Page.

Record App := mkApp {
  program : State;                     (* the point manager and the triangulation *)
  audioManager : AudioManager.Audio;
  isTouch : bool;                      (* [InputHandler.isTouch] *)
  mouseUpListeners : nat;              (* [handleMouseUp] closures on the document *)
  touchEndListeners : nat;             (* [handleTouchEnd] closures on the document *)
  listening : bool                     (* the handlers of the container and of the
                                          window are registered, a frame is requested *)
}.

(** The page once [new DelaunayApp()] has returned: the components are
    built; [calculateAndDraw] and the first [animate] find no point. *)
Definition start (audioSupported : bool) : App :=
  mkApp initial (AudioManager.constructor audioSupported) false 0 0 true.

(** The body of [handleMouseDown] and of [handleTouchStart], [x] and [y]
    being the coordinates of the event relative to the container and
    [registered] what the handler adds to the listeners of the document when
    it reaches its end.  An exception thrown by [play] leaves the handler
    where it is thrown. *)
Definition press (cfg : Constants) (innerWidth innerHeight x y : R)
    (registered : App → App) (a : App) : App :=
  let wasTouch := isTouch a in
  let a := mkApp (program a) (audioManager a) true (mouseUpListeners a)
                 (touchEndListeners a) (listening a) in
  if wasTouch then registered a
  else
    match AudioManager.play "touch" (audioManager a) with
    | (audio, AudioManager.Threw) =>
        mkApp (program a) audio true (mouseUpListeners a) (touchEndListeners a) (listening a)
    | (audio, AudioManager.Returned _) =>
        registered
          (mkApp (InputHandler.handleMouseDown cfg innerWidth innerHeight x y (program a))
                 audio true (mouseUpListeners a) (touchEndListeners a) (listening a))
    end.

Definition handleMouseDown (cfg : Constants) (innerWidth innerHeight x y : R) (a : App) : App :=
  press cfg innerWidth innerHeight x y
    (fun a => mkApp (program a) (audioManager a) (isTouch a) (S (mouseUpListeners a))
                    (touchEndListeners a) (listening a))
    a.

Definition handleTouchStart (cfg : Constants) (innerWidth innerHeight x y : R) (a : App) : App :=
  press cfg innerWidth innerHeight x y
    (fun a => mkApp (program a) (audioManager a) (isTouch a) (mouseUpListeners a)
                    (S (touchEndListeners a)) (listening a))
    a.

(** A 'mouseup' on the document: every registered [handleMouseUp] runs,
    clears [isTouch] and removes itself. *)
Definition mouseUp (a : App) : App :=
  match mouseUpListeners a with
  | O => a
  | S _ => mkApp (program a) (audioManager a) false 0 (touchEndListeners a) (listening a)
  end.

Definition touchEnd (a : App) : App :=
  match touchEndListeners a with
  | O => a
  | S _ => mkApp (program a) (audioManager a) false (mouseUpListeners a) 0 (listening a)
  end.

(** [DelaunayApp.dispose] *)
Definition dispose (a : App) : App :=
  mkApp (DelaunayApp.dispose (program a)) (AudioManager.dispose (audioManager a))
        (isTouch a) (mouseUpListeners a) (touchEndListeners a) false.

End Page.

(** What happens in the page. *)
Inductive PageEvent :=
  | MouseDownAt (innerWidth innerHeight x y : R)
  | TouchStartAt (innerWidth innerHeight x y : R)
  | MouseUp
  | TouchEnd
  | Frame (width height : R)
  | Resize
  | Timeout (i : nat)
  | Unload.

(** The reaction of the page to an event; the events whose handlers were
    removed find none. *)
Definition pageStep (cfg : Constants) (random : nat → R) (a : Page.App) (e : PageEvent)
    : Page.App :=
  let onProgram f :=
    Page.mkApp (f (Page.program a)) (Page.audioManager a) (Page.isTouch a)
               (Page.mouseUpListeners a) (Page.touchEndListeners a) (Page.listening a) in
  match e with
  | MouseDownAt innerWidth innerHeight x y =>
      if Page.listening a then Page.handleMouseDown cfg innerWidth innerHeight x y a else a
  | TouchStartAt innerWidth innerHeight x y =>
      if Page.listening a then Page.handleTouchStart cfg innerWidth innerHeight x y a else a
  | MouseUp => Page.mouseUp a
  | TouchEnd => Page.touchEnd a
  | Frame width height =>
      if Page.listening a
      then onProgram (PointManager.updatePoints cfg random width height) else a
  | Resize =>
      if Page.listening a then onProgram DelaunayTriangulation.calculateAndDraw else a
  | Timeout i =>
      Page.mkApp (Page.program a) (AudioManager.timerFires i (Page.audioManager a))
                 (Page.isTouch a) (Page.mouseUpListeners a) (Page.touchEndListeners a)
                 (Page.listening a)
  | Unload => if Page.listening a then Page.dispose a else a
  end.

Definition pageRun (cfg : Constants) (random : nat → R) (events : list PageEvent)
    (a : Page.App) : Page.App :=
  fold_left (pageStep cfg random) events a.

(** A press or the start of a touch. *)
Definition isPress (e : PageEvent) : bool :=
  match e with
  | MouseDownAt _ _ _ _ | TouchStartAt _ _ _ _ => true
  | _ => false
  end.

(** What holds of the page between two events: a touch in progress has a
    release listener waiting for it, and the manager still has the 'touch'
    effect it was built with. *)
Record armed (a : Page.App) : Prop := mkArmed {
  armed_release :
    Page.isTouch a = true → (1 ≤ Page.mouseUpListeners a + Page.touchEndListeners a)%nat;
  armed_effect :
    ∃ effect o,
      AudioManager.effects (Page.audioManager a) !! "touch" = Some effect ∧
      AudioManager.effect_type effect = Some "oscillator" ∧
      AudioManager.options effect = Some o ∧
      AudioManager.type o ≠ Some "custom"
}.

(** What holds of the page between two events, before and after it is
    unloaded. *)
Record settled (a : Page.App) : Prop := mkSettled {
  settled_armed : armed a;
  settled_running :
    Page.listening a = true →
    coherent (Page.program a) ∧ tracked (Page.audioManager a);
  settled_unloaded :
    Page.listening a = false →
    AudioManager.activeNodes (Page.audioManager a) = ∅ ∧
    scene (Page.program a) = ∅ ∧ points (Page.program a) = [] ∧
    triangles (Page.program a) = [] ∧ meshes (Page.program a) = []
}.

(** ** Concrete inputs *)

(** A point at rest at [(x, y)], as [addPoint] creates it. *)
Definition atRest (x y : R) : Mesh := mkMesh x y (Some (mkUserData 0 0 x y)).

(** The state in which the meshes [ms] are the live points, at references
    0, 1, 2, ... in insertion order, and nothing has been drawn yet. *)
Definition stateOf (ms : list Mesh) : State :=
  mkState (map_seq 0 ms) (S (S (length ms))) (list_to_set (seq 0 (length ms))) ∅ 0%nat
          (seq 0 (length ms)) None true (length ms) (S (length ms)) [] [].

(** Three points on the x axis. *)
Definition threeOnALine : State :=
  stateOf [atRest 0 0; atRest 1 0; atRest 2 0].

(** The same three points and a fourth one off the line. *)
Definition threeOnALineAndOne : State :=
  stateOf [atRest 0 0; atRest 1 0; atRest 2 0; atRest 1 1].

(** The four corners of the unit square. *)
Definition unitSquare : State :=
  stateOf [atRest 0 0; atRest 1 0; atRest 0 1; atRest 1 1].

(** Random draws that produce no Brownian noise: [Math.random()] always
    returns 0.5. *)
Definition noNoise : nat → R := fun _ => 0.5.

(** A point far off the screen and moving fast, and a point at rest. *)
Definition farAway : State :=
  stateOf [mkMesh 1000 (-1000) (Some (mkUserData 50 (-70) 0 0)); atRest 3 4].

(** On a screen 100 wide: a point 5 beyond the right edge, moving right at
    speed 3, whose origin is where it is. *)
Definition beyondRightEdge : State :=
  stateOf [mkMesh 55 0 (Some (mkUserData 3 0 55 0))].

(** Thirty-one clicks along the diagonal of a window of 800 by 600. *)
Definition thirtyOneCalls : list AddPointCall :=
  map (fun n => mkAddPointCall 800 600 (INR n) (INR n)) (seq 0 31).


(** Three points that span a triangle of area 1/2. *)
Definition threeCorners : State :=
  stateOf [atRest 0 0; atRest 1 0; atRest 0 1].

(** The triangulation of [threeCorners] was computed and drawn, and the
    point manager was then disposed of: no point is left. *)
Definition pointsDisposed : State :=
  PointManager.dispose (DelaunayTriangulation.calculateAndDraw threeCorners).



(** In a window of 800 by 600, three presses on the same pixel row, next to
    each other; their points are at [(0, 0)], [(1, 0)] and [(2, 0)]. *)
Definition threePressesInARow : list Event :=
  [MouseDown 800 600 400 300; MouseDown 800 600 401 300; MouseDown 800 600 402 300].

(** [ToInt32] on an integer, under the name the doubles use it by. *)
Definition wrapInt32 : Z → Z := ToInt32.

(** ** Double precision

    Where the result of the code depends on how a JavaScript number is
    rounded, overflows or becomes NaN, the arithmetic is modelled on the
    binary64 numbers themselves: the circumcircle test and the search that
    uses it, the colour seed, and the update of the points of one animation
    frame.  A point of this model is a live point, with the [userData]
    [addPoint] gave it; the drawables are not part of it. *)
Module Binary64.

#[local] Open Scope float_scope.

(** A decimal constant of the source denotes the nearest double, here as
    there. *)
#[local] Set Warnings "-inexact-float".

Record UserData := mkUserData {
  vx : float;
  vy : float;
  origX : float;
  origY : float
}.

Record Mesh := mkMesh {
  position_x : float;
  position_y : float;
  userData : UserData
}.

#[global] Instance Mesh_inhabited : Inhabited Mesh :=
  populate (mkMesh 0 0 (mkUserData 0 0 0 0)).

(** The point manager: the point meshes by reference, the point array and
    the number of [Math.random()] calls made so far. *)
Record State := mkState {
  heap : gmap loc Mesh;
  points : list loc;
  randomCalls : nat
}.

(** The value of a double, when it is finite. *)
Definition toR (x : float) : R :=
  match Prim2SF x with
  | S754_finite s m e =>
      if (0 <=? e)%Z then IZR (cond_Zopp s (Z.pos m) * 2 ^ e)
      else (IZR (cond_Zopp s (Z.pos m)) / IZR (2 ^ (- e)))%R
  | _ => 0%R
  end.

(** [Math.floor] *)
Definition Math_floor (x : float) : float :=
  match Prim2SF x with
  | S754_finite s m e =>
      if (0 <=? e)%Z then x
      else SF2Prim (binary_normalize prec emax (cond_Zopp s (Z.pos m) / 2 ^ (- e)) 0 s)
  | _ => x
  end.

(** The conversion the bitwise operators apply to an operand: NaN and the
    infinities give 0, a finite number is truncated toward zero and wrapped
    to 32 bits. *)
Definition ToInt32 (x : float) : Z :=
  match Prim2SF x with
  | S754_finite s m e =>
      wrapInt32
        (cond_Zopp s (if (0 <=? e)%Z then Z.pos m * 2 ^ e else Z.pos m / 2 ^ (- e)))
  | _ => 0%Z
  end.

Module Triangle.

(** The body of [Triangle.isPointInCircumcircle] on the coordinates of the
    three vertices and of the tested point. *)
Definition inCircumcircle (x1 y1 x2 y2 x3 y3 px py : float) : bool :=
  let a := x1 * (y2 - y3) - y1 * (x2 - x3) + x2 * y3 - x3 * y2 in
  if PrimFloat.abs a <? 1e-6 then false else
  let b := (x1 * x1 + y1 * y1) * (y3 - y2) +
           (x2 * x2 + y2 * y2) * (y1 - y3) +
           (x3 * x3 + y3 * y3) * (y2 - y1) in
  let c := (x1 * x1 + y1 * y1) * (x2 - x3) +
           (x2 * x2 + y2 * y2) * (x3 - x1) +
           (x3 * x3 + y3 * y3) * (x1 - x2) in
  let d := (x1 * x1 + y1 * y1) * (x3 * y2 - x2 * y3) +
           (x2 * x2 + y2 * y2) * (x1 * y3 - x3 * y1) +
           (x3 * x3 + y3 * y3) * (x2 * y1 - x1 * y2) in
  let centerX := - b / (2 * a) in
  let centerY := - c / (2 * a) in
  let radiusSquared := (b * b + c * c - 4 * a * d) / (4 * a * a) in
  let distSq := (px - centerX) * (px - centerX) +
                (py - centerY) * (py - centerY) in
  distSq <? radiusSquared.

(** [this.isPointInCircumcircle(p)] *)
Definition isPointInCircumcircle (h : gmap loc Mesh) (this : Triangle) (p : loc) : bool :=
  inCircumcircle
    (position_x (h !!! p1 this)) (position_y (h !!! p1 this))
    (position_x (h !!! p2 this)) (position_y (h !!! p2 this))
    (position_x (h !!! p3 this)) (position_y (h !!! p3 this))
    (position_x (h !!! p)) (position_y (h !!! p)).

(** [this.getColorSeed()]: the operator [^] converts both operands to 32-bit
    integers. *)
Definition getColorSeed (h : gmap loc Mesh) (this : Triangle) : Z :=
  let x1 := Math_floor (position_x (h !!! p1 this) * 73856093) in
  let y1 := Math_floor (position_y (h !!! p1 this) * 19349663) in
  let x2 := Math_floor (position_x (h !!! p2 this) * 83492791) in
  let y2 := Math_floor (position_y (h !!! p2 this) * 52801763) in
  let x3 := Math_floor (position_x (h !!! p3 this) * 92083207) in
  let y3 := Math_floor (position_y (h !!! p3 this) * 73856093) in
  ushr0 (bitxor (bitxor (bitxor (bitxor (bitxor (ToInt32 x1) (ToInt32 y1)) (ToInt32 x2))
                                (ToInt32 y2)) (ToInt32 x3)) (ToInt32 y3)).

End Triangle.

Module DelaunayTriangulation.

(** The inner loop over [l] of [findDelaunayTriangles]. *)
Definition isDelaunay (h : gmap loc Mesh) (points : list loc)
    (tri : Triangle) (i j k : nat) : bool :=
  forallb
    (fun l =>
       negb (bool_decide (l ≠ i) && bool_decide (l ≠ j) && bool_decide (l ≠ k)
             && Triangle.isPointInCircumcircle h tri (points !!! l)))
    (seq 0%nat (length points)).

(** The three nested loops over [i < j < k], on the point array [points]. *)
Definition delaunayTrianglesOf (h : gmap loc Mesh) (points : list loc) : list Triangle :=
  let n := length points in
  if bool_decide (n < 3)%nat then [] else
  i ← seq 0%nat (n - 2)%nat;
  j ← seq (i + 1)%nat (n - 1 - (i + 1))%nat;
  k ← seq (j + 1)%nat (n - (j + 1))%nat;
  let tri := mkTriangle (points !!! i) (points !!! j) (points !!! k) in
  if isDelaunay h points tri i j k then [tri] else [].

Definition findDelaunayTriangles (s : State) : list Triangle :=
  delaunayTrianglesOf (heap s) (points s).

End DelaunayTriangulation.

(** The constant tables the update of the points reads. *)
Record Constants := mkConstants {
  FRICTION : float;             (* PhysicsConstants.FRICTION *)
  BOUNCE_FACTOR : float;        (* PhysicsConstants.BOUNCE_FACTOR *)
  Brownian_STRENGTH : float;    (* BrownianConstants.STRENGTH *)
  MAX_DISTANCE : float;         (* BrownianConstants.MAX_DISTANCE *)
  RETURN_FORCE : float          (* BrownianConstants.RETURN_FORCE *)
}.

(** The values written in js/Constants.js. *)
Definition constants : Constants := {|
  FRICTION := 0.9;
  BOUNCE_FACTOR := 0.5;
  Brownian_STRENGTH := 0.2;
  MAX_DISTANCE := 5.0;
  RETURN_FORCE := 0.1
|}.

(** The changes the methods of [PointManager] make to the mesh they are
    given. *)
Module OnMesh.

Definition addVelocity (dvx dvy : float) (m : Mesh) : Mesh :=
  mkMesh (position_x m) (position_y m)
         (mkUserData (vx (userData m) + dvx) (vy (userData m) + dvy)
                     (origX (userData m)) (origY (userData m))).

Definition constrainToOriginalPosition (maxDistance returnForce : float) (m : Mesh) : Mesh :=
  let dx := position_x m - origX (userData m) in
  let dy := position_y m - origY (userData m) in
  let dist := PrimFloat.sqrt (dx * dx + dy * dy) in
  if maxDistance <? dist then
    let force := (dist - maxDistance) * returnForce in
    mkMesh (position_x m) (position_y m)
           (mkUserData (vx (userData m) - dx / dist * force)
                       (vy (userData m) - dy / dist * force)
                       (origX (userData m)) (origY (userData m)))
  else m.

Definition applyFriction (friction : float) (m : Mesh) : Mesh :=
  mkMesh (position_x m) (position_y m)
         (mkUserData (vx (userData m) * friction) (vy (userData m) * friction)
                     (origX (userData m)) (origY (userData m))).

Definition bounceX (bound bounceFactor : float) (m : Mesh) : Mesh :=
  mkMesh bound (position_y m)
         (mkUserData (- vx (userData m) * bounceFactor) (vy (userData m))
                     (origX (userData m)) (origY (userData m))).

Definition bounceY (bound bounceFactor : float) (m : Mesh) : Mesh :=
  mkMesh (position_x m) bound
         (mkUserData (vx (userData m)) (- vy (userData m) * bounceFactor)
                     (origX (userData m)) (origY (userData m))).

Definition constrainToScreen (halfWidth halfHeight bounceFactor : float) (m : Mesh) : Mesh :=
  let m1 := if position_x m <? - halfWidth
            then bounceX (- halfWidth) bounceFactor m else m in
  let m2 := if halfWidth <? position_x m1
            then bounceX halfWidth bounceFactor m1 else m1 in
  let m3 := if position_y m2 <? - halfHeight
            then bounceY (- halfHeight) bounceFactor m2 else m2 in
  if halfHeight <? position_y m3
  then bounceY halfHeight bounceFactor m3 else m3.

(** [point.position.x += point.userData.vx; point.position.y += point.userData.vy] *)
Definition move (m : Mesh) : Mesh :=
  mkMesh (position_x m + vx (userData m)) (position_y m + vy (userData m)) (userData m).

End OnMesh.

Module PointManager.

Section Methods.

(** The constant tables, and the values successive calls of [Math.random()]
    return. *)
Context (cfg : Constants) (random : nat → float).

Definition applyBrownianMotion (s : State) : State :=
  fold_left
    (fun s point =>
       let r1 := random (randomCalls s) in
       let r2 := random (S (randomCalls s)) in
       mkState (alter (OnMesh.addVelocity ((r1 - 0.5) * Brownian_STRENGTH cfg)
                                          ((r2 - 0.5) * Brownian_STRENGTH cfg))
                      point (heap s))
               (points s) (S (S (randomCalls s))))
    (points s) s.

Definition applyPositionConstraints (s : State) : State :=
  fold_left
    (fun s point =>
       mkState (alter (OnMesh.constrainToOriginalPosition (MAX_DISTANCE cfg) (RETURN_FORCE cfg))
                      point (heap s))
               (points s) (randomCalls s))
    (points s) s.

(** One iteration of the loop of [updatePoints]; the boolean is
    [positionsChanged], and [!==] on numbers is the negation of [==]. *)
Definition updatePoint (screenWidth screenHeight : float) (acc : State * bool) (point : loc)
    : State * bool :=
  let s := acc.1 in
  let oldX := position_x (heap s !!! point) in
  let oldY := position_y (heap s !!! point) in
  let h := alter OnMesh.move point (heap s) in
  let h := alter (OnMesh.constrainToScreen (screenWidth / 2) (screenHeight / 2)
                                           (BOUNCE_FACTOR cfg)) point h in
  let h := alter (OnMesh.applyFriction (FRICTION cfg)) point h in
  (mkState h (points s) (randomCalls s),
   if negb (oldX =? position_x (h !!! point)) || negb (oldY =? position_y (h !!! point))
   then true else acc.2).

(** [updatePoints(screenWidth, screenHeight)]: the state of the points, and
    whether the positions of the drawables are refreshed at the end. *)
Definition updatePoints (screenWidth screenHeight : float) (s : State) : State * bool :=
  let s := applyBrownianMotion s in
  let s := applyPositionConstraints s in
  fold_left (updatePoint screenWidth screenHeight) (points s) (s, false).

End Methods.

End PointManager.

(** *** Vocabulary of the specification, on the values of the doubles *)

(** The position is inside the screen rectangle. *)
Definition onScreen (screenWidth screenHeight : float) (m : Mesh) : bool :=
  (- (screenWidth / 2) <=? position_x m) && (position_x m <=? screenWidth / 2) &&
  ((- (screenHeight / 2) <=? position_y m) && (position_y m <=? screenHeight / 2)).

Definition collinearAt (h : gmap loc Mesh) (a b c : loc) : Prop :=
  collinear (toR (position_x (h !!! a))) (toR (position_y (h !!! a)))
            (toR (position_x (h !!! b))) (toR (position_y (h !!! b)))
            (toR (position_x (h !!! c))) (toR (position_y (h !!! c))).





(** The determinant [a] of [isPointInCircumcircle], as the code computes
    it. *)
Definition triangleDet (h : gmap loc Mesh) (t : Triangle) : float :=
  let x1 := position_x (h !!! p1 t) in let y1 := position_y (h !!! p1 t) in
  let x2 := position_x (h !!! p2 t) in let y2 := position_y (h !!! p2 t) in
  let x3 := position_x (h !!! p3 t) in let y3 := position_y (h !!! p3 t) in
  x1 * (y2 - y3) - y1 * (x2 - x3) + x2 * y3 - x3 * y2.


(** The coordinate is in the interval of the screen on its axis. *)
Definition within (size x : float) : bool :=
  (- (size / 2) <=? x) && (x <=? size / 2).

(** The six coordinates of a triangle, in the order of the terms of
    [getColorSeed]. *)
Definition seedCoordinates (h : gmap loc Mesh) (t : Triangle) : list float :=
  [ position_x (h !!! p1 t); position_y (h !!! p1 t);
    position_x (h !!! p2 t); position_y (h !!! p2 t);
    position_x (h !!! p3 t); position_y (h !!! p3 t) ].

(** The multipliers of [getColorSeed], as doubles. *)
Definition seedFactors : list float :=
  [73856093; 19349663; 83492791; 52801763; 92083207; 73856093].

(** *** Concrete inputs *)

(** A point at rest at [(x, y)], as [addPoint] creates it. *)
Definition atRest (x y : float) : Mesh := mkMesh x y (mkUserData 0 0 x y).

(** The state in which the meshes [ms] are the points, at references 0, 1,
    2, ... in insertion order. *)
Definition stateOf (ms : list Mesh) : State :=
  mkState (map_seq 0%nat ms) (seq 0%nat (length ms)) 0%nat.


(** The four corners of the unit square. *)
Definition unitSquare : State :=
  stateOf [atRest 0 0; atRest 1 0; atRest 0 1; atRest 1 1].

(** Two stores for the colour seed: in the first only the x coordinate of the
    first vertex is not zero, in the second only the y coordinate of the
    third vertex. *)
Definition onlyX1 : State := stateOf [atRest 1 0; atRest 0 0; atRest 0 0].
Definition onlyY3 : State := stateOf [atRest 0 0; atRest 0 0; atRest 0 1].

(** A triangle whose first vertex has an x coordinate with a product that is
    rounded up to an integer. *)
Definition roundedUp : State :=
  stateOf [atRest 38.22698877396615 0; atRest 0 0; atRest 0 0].

(** Random draws that produce no Brownian noise. *)
Definition noNoise : nat → float := fun _ => 0.5.

(** A point at rest at 1e200 on the x axis whose origin is [(0, 0)]. *)
Definition farOut : State :=
  stateOf [mkMesh 1e200 0 (mkUserData 0 0 0 0)].

(** A point far off the screen and moving fast, and a point at rest. *)
Definition farAway : State :=
  stateOf [mkMesh 1000 (-1000) (mkUserData 50 (-70) 0 0); atRest 3 4].

End Binary64.

(** * Proof tools *)

(** Reading a field of a state built with the field setters. *)
Ltac state_simpl :=
  cbn [heap nextLoc scene disposed randomCalls points lastAddedPoint triangulation
       pointGeometry pointMaterial triangles meshes set_heap set_points set_scene set_disposed set_lastAddedPoint
       set_triangles set_meshes set_nextLoc set_randomCalls fst snd] in *.

(** * The circumcircle test and the search *)

Section DelaunayLemmas.

Import DelaunayTriangulation.

Lemma inCircumcircle_degenerate x1 y1 x2 y2 x3 y3 px py :
  Rabs (det_a x1 y1 x2 y2 x3 y3) < 1e-6 →
  Triangle.inCircumcircle x1 y1 x2 y2 x3 y3 px py = false.
Proof.
  intros H. unfold Triangle.inCircumcircle. fold (det_a x1 y1 x2 y2 x3 y3).
  cbv zeta. rewrite bool_decide_eq_true_2; done.
Qed.

Lemma isDelaunay_true h pts tri i j k :
  isDelaunay h pts tri i j k = true ↔
  ∀ l, (l < length pts)%nat → l ≠ i → l ≠ j → l ≠ k →
       Triangle.isPointInCircumcircle h tri (pts !!! l) = false.
Proof.
  unfold isDelaunay. rewrite <- Is_true_true, forallb_True, Forall_forall.
  split.
  - intros H l Hl Hi Hj Hk. specialize (H l).
    rewrite elem_of_seq in H. specialize (H ltac:(lia)).
    rewrite !bool_decide_eq_true_2 in H by done. simpl in H.
    by destruct (Triangle.isPointInCircumcircle _ _ _).
  - intros H l [_ Hl]%elem_of_seq.
    repeat case_bool_decide; simpl; try done.
    rewrite H; [done|lia|done..].
Qed.

Lemma elem_of_delaunayTrianglesOf h pts t :
  t ∈ delaunayTrianglesOf h pts ↔
  ∃ i j k, (i < j)%nat ∧ (j < k)%nat ∧ (k < length pts)%nat ∧
           t = mkTriangle (pts !!! i) (pts !!! j) (pts !!! k) ∧
           ∀ l, (l < length pts)%nat → l ≠ i → l ≠ j → l ≠ k →
                Triangle.isPointInCircumcircle h t (pts !!! l) = false.
Proof.
  unfold delaunayTrianglesOf. cbv zeta. case_bool_decide as Hn.
  - split; [by intros ?%elem_of_nil|]. intros (i & j & k & ? & ? & ? & _). lia.
  - split.
    + intros (i & Ht & Hi)%list_elem_of_bind.
      apply list_elem_of_bind in Ht as (j & Ht & Hj).
      apply list_elem_of_bind in Ht as (k & Ht & Hk).
      apply elem_of_seq in Hi, Hj, Hk.
      destruct (isDelaunay _ _ _ _ _ _) eqn:Hd; [|by apply elem_of_nil in Ht].
      apply list_elem_of_singleton in Ht as ->.
      exists i, j, k. repeat split; try lia.
      by apply isDelaunay_true.
    + intros (i & j & k & Hij & Hjk & Hk & -> & Hd).
      apply list_elem_of_bind. exists i. split; [|apply elem_of_seq; lia].
      apply list_elem_of_bind. exists j. split; [|apply elem_of_seq; lia].
      apply list_elem_of_bind. exists k. split; [|apply elem_of_seq; lia].
      apply isDelaunay_true in Hd. rewrite Hd. by apply list_elem_of_singleton.
Qed.

End DelaunayLemmas.

(** * What the methods of DelaunayTriangulation leave unchanged *)

Section Frames.

Import DelaunayTriangulation.

Lemma fold_left_preserves {A B C} (f : A → B → A) (proj : A → C) :
  (∀ a b, proj (f a b) = proj a) →
  ∀ l a, proj (fold_left f l a) = proj a.
Proof.
  intros Hf l. induction l as [|b l IH]; intros a; simpl; [done|].
  by rewrite IH, Hf.
Qed.

Lemma clearTriangleMeshes_heap s : heap (clearTriangleMeshes s) = heap s.
Proof. unfold clearTriangleMeshes; simpl. by apply (fold_left_preserves _ heap). Qed.

Lemma clearTriangleMeshes_points s : points (clearTriangleMeshes s) = points s.
Proof. unfold clearTriangleMeshes; simpl. by apply (fold_left_preserves _ points). Qed.

Lemma clearTriangleMeshes_triangles s : triangles (clearTriangleMeshes s) = triangles s.
Proof. unfold clearTriangleMeshes; simpl. by apply (fold_left_preserves _ triangles). Qed.

Lemma clearTriangleMeshes_nextLoc s : nextLoc (clearTriangleMeshes s) = nextLoc s.
Proof. unfold clearTriangleMeshes; simpl. by apply (fold_left_preserves _ nextLoc). Qed.

Lemma clearTriangleMeshes_meshes s : meshes (clearTriangleMeshes s) = [].
Proof. done. Qed.

Lemma drawTriangles_heap ts s :
  heap (fold_left (fun s t => drawTriangle t s) ts s) = heap s.
Proof. by apply (fold_left_preserves _ heap). Qed.

Lemma drawTriangles_points ts s :
  points (fold_left (fun s t => drawTriangle t s) ts s) = points s.
Proof. by apply (fold_left_preserves _ points). Qed.

Lemma drawTriangles_triangles ts s :
  triangles (fold_left (fun s t => drawTriangle t s) ts s) = triangles s.
Proof. by apply (fold_left_preserves _ triangles). Qed.

Lemma drawTriangles_disposed ts s :
  disposed (fold_left (fun s t => drawTriangle t s) ts s) = disposed s.
Proof. by apply (fold_left_preserves _ disposed). Qed.

Lemma calculateAndDraw_heap s : heap (calculateAndDraw s) = heap s.
Proof.
  unfold calculateAndDraw. case_bool_decide.
  - rewrite drawTriangles_heap. unfold set_triangles; cbn [heap].
    apply clearTriangleMeshes_heap.
  - apply clearTriangleMeshes_heap.
Qed.

Lemma calculateAndDraw_points s : points (calculateAndDraw s) = points s.
Proof.
  unfold calculateAndDraw. case_bool_decide.
  - rewrite drawTriangles_points. unfold set_triangles; cbn [points].
    apply clearTriangleMeshes_points.
  - apply clearTriangleMeshes_points.
Qed.

(** With at least three points the triangle list is the result of the
    brute-force search. *)
Lemma calculateAndDraw_triangles_rebuilt s :
  (3 ≤ length (points s))%nat →
  triangles (calculateAndDraw s) = findDelaunayTriangles s.
Proof.
  intros Hn. unfold calculateAndDraw.
  rewrite bool_decide_eq_true_2 by (rewrite clearTriangleMeshes_points; unfold ge; lia).
  rewrite drawTriangles_triangles. unfold set_triangles; cbn [triangles].
  unfold findDelaunayTriangles.
  by rewrite clearTriangleMeshes_heap, clearTriangleMeshes_points.
Qed.

(** With fewer than three points the triangle list is left as it was. *)
Lemma calculateAndDraw_triangles_kept s :
  (length (points s) < 3)%nat →
  triangles (calculateAndDraw s) = triangles s.
Proof.
  intros Hn. unfold calculateAndDraw.
  rewrite bool_decide_eq_false_2 by (rewrite clearTriangleMeshes_points; unfold ge; lia).
  apply clearTriangleMeshes_triangles.
Qed.

End Frames.

(** * Reading concrete states *)

Lemma stateOf_heap_lookup ms (i : nat) : heap (stateOf ms) !!! i = ms !!! i.
Proof.
  unfold stateOf; cbn [heap].
  rewrite lookup_total_alt, lookup_map_seq_0. by rewrite list_lookup_total_alt.
Qed.

Lemma stateOf_points ms : points (stateOf ms) = seq 0 (length ms).
Proof. done. Qed.

(** Reading the points of a concrete state. *)
Ltac read_points :=
  rewrite ?stateOf_points, ?stateOf_heap_lookup;
  cbn [lookup_total list_lookup_total seq length];
  rewrite ?stateOf_heap_lookup;
  cbn [lookup_total list_lookup_total position_x position_y userData atRest].

(** * The triangle list *)

Section DelaunayClaims.

Import DelaunayTriangulation.

(** A triple the determinant test takes for degenerate passes the Delaunay
    test whatever the other points are. *)
Lemma degenerate_triangle_retained h pts i j k :
  (i < j)%nat → (j < k)%nat → (k < length pts)%nat →
  Rabs (triangleDet h (triangleAt pts i j k)) < 1e-6 →
  triangleAt pts i j k ∈ delaunayTrianglesOf h pts.
Proof.
  intros Hij Hjk Hk Hdet. apply elem_of_delaunayTrianglesOf.
  exists i, j, k. repeat split; try done.
  intros l _ _ _ _. unfold Triangle.isPointInCircumcircle.
  by apply inCircumcircle_degenerate.
Qed.


End DelaunayClaims.

(** * The loops of PointManager *)

Section Loops.

Import PointManager.

Context (cfg : Constants) (random : nat → R).

(** A loop that alters the mesh of each point of a duplicate-free array. *)
Lemma fold_left_alter_lookup {A} (step : A → loc → A) (hp : A → gmap loc Mesh)
    (F : loc → Mesh → Mesh) (I : A → Prop) :
  (∀ a x, I a → hp (step a x) = alter (F x) x (hp a) ∧ I (step a x)) →
  ∀ pts a p, I a → NoDup pts →
    hp (fold_left step pts a) !! p =
    if decide (p ∈ pts) then F p <$> hp a !! p else hp a !! p.
Proof.
  intros Hstep pts. induction pts as [|x xs IH]; intros a p Ha Hnd; cbn [fold_left].
  - rewrite decide_False; [done|]. apply not_elem_of_nil.
  - apply NoDup_cons in Hnd as [Hx Hnd].
    destruct (Hstep a x Ha) as [Hhp Ha'].
    rewrite (IH _ p Ha' Hnd), Hhp.
    destruct (decide (p = x)) as [->|Hne].
    + rewrite (decide_False (P := x ∈ xs)) by done.
      rewrite decide_True by apply list_elem_of_here.
      apply lookup_alter_eq.
    + rewrite !lookup_alter_ne by done.
      destruct (decide (p ∈ xs)) as [Hin|Hin].
      * rewrite decide_True; [done|]. by apply list_elem_of_further.
      * rewrite decide_False; [done|]. rewrite elem_of_cons. intros [?|?]; done.
Qed.

(** ** applyBrownianMotion *)

Lemma applyBrownianMotion_fold s :
  applyBrownianMotion cfg random s = fold_left (brownianStep cfg random) (points s) s.
Proof. done. Qed.

Lemma brownian_fold_randomCalls pts s :
  randomCalls (fold_left (brownianStep cfg random) pts s) = (randomCalls s + 2 * length pts)%nat.
Proof.
  revert s. induction pts as [|x xs IH]; intros s; simpl; [lia|].
  rewrite IH. simpl. lia.
Qed.

Lemma brownian_fold_notin pts s p :
  p ∉ pts → heap (fold_left (brownianStep cfg random) pts s) !! p = heap s !! p.
Proof.
  revert s. induction pts as [|x xs IH]; intros s Hp; simpl; [done|].
  apply not_elem_of_cons in Hp as [Hne Hp].
  rewrite IH by done. simpl. by rewrite lookup_alter_ne.
Qed.

Lemma brownian_fold_lookup pts s i p :
  NoDup pts → pts !! i = Some p →
  heap (fold_left (brownianStep cfg random) pts s) !! p =
  OnMesh.addVelocity
    ((random (randomCalls s + 2 * i)%nat - 0.5) * Brownian_STRENGTH cfg)
    ((random (S (randomCalls s + 2 * i)) - 0.5) * Brownian_STRENGTH cfg)
    <$> heap s !! p.
Proof.
  revert s i. induction pts as [|x xs IH]; intros s i Hnd Hi; [done|].
  apply NoDup_cons in Hnd as [Hx Hnd]. cbn [fold_left].
  destruct i as [|i]; simpl in Hi.
  - injection Hi as ->. rewrite brownian_fold_notin by done.
    unfold brownianStep; cbn [heap set_randomCalls set_heap].
    rewrite lookup_alter_eq.
    by replace (randomCalls s + 2 * 0)%nat with (randomCalls s) by lia.
  - rewrite (IH _ i Hnd Hi).
    unfold brownianStep; cbn [heap randomCalls set_randomCalls set_heap].
    assert (p ≠ x) as Hne.
    { intros ->. apply Hx. by eapply list_elem_of_lookup_2. }
    rewrite lookup_alter_ne by done.
    by replace (S (S (randomCalls s)) + 2 * i)%nat with (randomCalls s + 2 * S i)%nat by lia.
Qed.

Lemma applyBrownianMotion_points s :
  points (applyBrownianMotion cfg random s) = points s.
Proof. by apply (fold_left_preserves _ points). Qed.

Lemma applyBrownianMotion_triangulation s :
  triangulation (applyBrownianMotion cfg random s) = triangulation s.
Proof. by apply (fold_left_preserves _ triangulation). Qed.

Lemma applyBrownianMotion_triangles s :
  triangles (applyBrownianMotion cfg random s) = triangles s.
Proof. by apply (fold_left_preserves _ triangles). Qed.

Lemma applyBrownianMotion_meshes s :
  meshes (applyBrownianMotion cfg random s) = meshes s.
Proof. by apply (fold_left_preserves _ meshes). Qed.

Lemma applyBrownianMotion_scene s :
  scene (applyBrownianMotion cfg random s) = scene s.
Proof. by apply (fold_left_preserves _ scene). Qed.

Lemma applyBrownianMotion_nextLoc s :
  nextLoc (applyBrownianMotion cfg random s) = nextLoc s.
Proof. by apply (fold_left_preserves _ nextLoc). Qed.

Lemma applyBrownianMotion_disposed s :
  disposed (applyBrownianMotion cfg random s) = disposed s.
Proof. by apply (fold_left_preserves _ disposed). Qed.

(** ** applyPositionConstraints *)

Lemma applyPositionConstraints_points s :
  points (applyPositionConstraints cfg s) = points s.
Proof. by apply (fold_left_preserves _ points). Qed.

Lemma applyPositionConstraints_triangulation s :
  triangulation (applyPositionConstraints cfg s) = triangulation s.
Proof. by apply (fold_left_preserves _ triangulation). Qed.

Lemma applyPositionConstraints_triangles s :
  triangles (applyPositionConstraints cfg s) = triangles s.
Proof. by apply (fold_left_preserves _ triangles). Qed.

Lemma applyPositionConstraints_meshes s :
  meshes (applyPositionConstraints cfg s) = meshes s.
Proof. by apply (fold_left_preserves _ meshes). Qed.

Lemma applyPositionConstraints_scene s :
  scene (applyPositionConstraints cfg s) = scene s.
Proof. by apply (fold_left_preserves _ scene). Qed.

Lemma applyPositionConstraints_nextLoc s :
  nextLoc (applyPositionConstraints cfg s) = nextLoc s.
Proof. by apply (fold_left_preserves _ nextLoc). Qed.

Lemma applyPositionConstraints_disposed s :
  disposed (applyPositionConstraints cfg s) = disposed s.
Proof. by apply (fold_left_preserves _ disposed). Qed.

Lemma applyPositionConstraints_lookup s p :
  NoDup (points s) →
  heap (applyPositionConstraints cfg s) !! p =
  if decide (p ∈ points s)
  then OnMesh.constrainToOriginalPosition (MAX_DISTANCE cfg) (RETURN_FORCE cfg)
         <$> heap s !! p
  else heap s !! p.
Proof.
  intros Hnd. unfold applyPositionConstraints.
  by apply (fold_left_alter_lookup _ heap
              (fun _ => OnMesh.constrainToOriginalPosition (MAX_DISTANCE cfg) (RETURN_FORCE cfg))
              (fun _ => True)).
Qed.

(** ** The integration loop of updatePoints *)

Lemma updatePoint_heap w h acc p :
  heap (updatePoint cfg w h acc p).1 = alter (integrateMesh cfg w h) p (heap acc.1).
Proof.
  unfold updatePoint, applyFriction, constrainToScreen, integrateMesh.
  cbn [fst heap set_heap]. by rewrite !alter_alter_eq.
Qed.

Lemma integration_loop_lookup w h pts s b p :
  NoDup pts →
  heap (fold_left (updatePoint cfg w h) pts (s, b)).1 !! p =
  if decide (p ∈ pts) then integrateMesh cfg w h <$> heap s !! p else heap s !! p.
Proof.
  intros Hnd.
  apply (fold_left_alter_lookup (updatePoint cfg w h) (fun acc => heap acc.1)
           (fun _ => integrateMesh cfg w h) (fun _ => True)); [|done..].
  intros a x _. split; [apply updatePoint_heap|done].
Qed.

Lemma integration_loop_preserves {C} (proj : State → C) w h pts acc :
  (∀ hp s, proj (set_heap hp s) = proj s) →
  proj (fold_left (updatePoint cfg w h) pts acc).1 = proj acc.1.
Proof.
  intros Hproj.
  apply (fold_left_preserves (updatePoint cfg w h) (fun acc => proj acc.1)).
  intros a b. unfold updatePoint. cbn [fst]. apply Hproj.
Qed.

(** ** updatePoints *)

(** The state after the three loops of [updatePoints]. *)
Lemma updatePoints_cases w h s :
  let s2 := applyPositionConstraints cfg (applyBrownianMotion cfg random s) in
  let s3 := (fold_left (updatePoint cfg w h) (points s2) (s2, false)).1 in
  updatePoints cfg random w h s = s3 ∨
  updatePoints cfg random w h s = DelaunayTriangulation.updateTrianglePositions s3.
Proof.
  cbv zeta. unfold updatePoints.
  destruct (fold_left _ _ _) as [s3 b]. cbn [fst].
  destruct (b && triangulation s3); auto.
Qed.

Lemma updatePoints_preserves {C} (proj : State → C) w h s :
  (∀ hp s, proj (set_heap hp s) = proj s) →
  (∀ n s, proj (set_randomCalls n s) = proj s) →
  (∀ ms s, proj (set_meshes ms s) = proj s) →
  proj (updatePoints cfg random w h s) = proj s.
Proof.
  intros Hheap Hrand Hmeshes.
  assert (proj (applyBrownianMotion cfg random s) = proj s) as H1.
  { apply (fold_left_preserves _ proj). intros a b. unfold brownianStep.
    by rewrite Hrand, Hheap. }
  assert (∀ s, proj (applyPositionConstraints cfg s) = proj s) as H2.
  { intros s'. apply (fold_left_preserves _ proj). intros a b. apply Hheap. }
  destruct (updatePoints_cases w h s) as [-> | ->];
    [|unfold DelaunayTriangulation.updateTrianglePositions; rewrite Hmeshes];
    rewrite integration_loop_preserves by done; cbn [fst]; by rewrite H2, H1.
Qed.

Lemma updatePoints_points w h s : points (updatePoints cfg random w h s) = points s.
Proof. by apply (updatePoints_preserves points). Qed.

Lemma updatePoints_triangles w h s : triangles (updatePoints cfg random w h s) = triangles s.
Proof. by apply (updatePoints_preserves triangles). Qed.

Lemma updatePoints_scene w h s : scene (updatePoints cfg random w h s) = scene s.
Proof. by apply (updatePoints_preserves scene). Qed.

Lemma updatePoints_nextLoc w h s : nextLoc (updatePoints cfg random w h s) = nextLoc s.
Proof. by apply (updatePoints_preserves nextLoc). Qed.

Lemma updatePoints_disposed w h s : disposed (updatePoints cfg random w h s) = disposed s.
Proof. by apply (updatePoints_preserves disposed). Qed.

Lemma updatePoints_triangulation w h s :
  triangulation (updatePoints cfg random w h s) = triangulation s.
Proof. by apply (updatePoints_preserves triangulation). Qed.

Lemma updatePoints_heap w h s :
  let s2 := applyPositionConstraints cfg (applyBrownianMotion cfg random s) in
  heap (updatePoints cfg random w h s) =
  heap (fold_left (updatePoint cfg w h) (points s2) (s2, false)).1.
Proof. cbv zeta. by destruct (updatePoints_cases w h s) as [-> | ->]. Qed.

(** What one call of [updatePoints] does to the mesh of the live point of
    index [i]. *)
Lemma updatePoints_lookup w h s i p :
  NoDup (points s) → points s !! i = Some p →
  heap (updatePoints cfg random w h s) !! p =
  tickMesh cfg (random (randomCalls s + 2 * i)%nat)
               (random (S (randomCalls s + 2 * i))) w h
    <$> heap s !! p.
Proof.
  intros Hnd Hi. rewrite updatePoints_heap.
  assert (Hin : p ∈ points s) by (by eapply list_elem_of_lookup_2).
  rewrite applyPositionConstraints_points, applyBrownianMotion_points.
  rewrite integration_loop_lookup by done. rewrite decide_True by done.
  rewrite applyPositionConstraints_lookup
    by (by rewrite applyBrownianMotion_points).
  rewrite applyBrownianMotion_points, decide_True by done.
  rewrite applyBrownianMotion_fold, (brownian_fold_lookup _ _ i) by done.
  unfold tickMesh. by destruct (heap s !! p).
Qed.

(** A mesh that is not a live point is left alone. *)
Lemma updatePoints_lookup_other w h s p :
  NoDup (points s) → p ∉ points s →
  heap (updatePoints cfg random w h s) !! p = heap s !! p.
Proof.
  intros Hnd Hp. rewrite updatePoints_heap.
  rewrite applyPositionConstraints_points, applyBrownianMotion_points.
  rewrite integration_loop_lookup by done. rewrite decide_False by done.
  rewrite applyPositionConstraints_lookup
    by (by rewrite applyBrownianMotion_points).
  rewrite applyBrownianMotion_points, decide_False by done.
  by rewrite applyBrownianMotion_fold, brownian_fold_notin.
Qed.

End Loops.

(** * The physics of one point *)

Section OnePoint.

Context (cfg : Constants).

Ltac mesh_simpl :=
  cbn [position_x position_y userData vx vy origX origY fmap option_fmap option_map] in *.

Lemma constrainToScreen_onScreen hw hh bf m :
  0 <= hw → 0 <= hh →
  - hw <= position_x (OnMesh.constrainToScreen hw hh bf m) <= hw ∧
  - hh <= position_y (OnMesh.constrainToScreen hw hh bf m) <= hh.
Proof.
  intros Hw Hh. unfold OnMesh.constrainToScreen, OnMesh.bounceX, OnMesh.bounceY.
  repeat case_bool_decide; mesh_simpl; lra.
Qed.

Lemma applyFriction_position f m :
  position_x (OnMesh.applyFriction f m) = position_x m ∧
  position_y (OnMesh.applyFriction f m) = position_y m.
Proof. unfold OnMesh.applyFriction. by destruct (userData m). Qed.

(** A mesh within [MAX_DISTANCE] of its origin feels no return force. *)
Lemma constrainToOriginalPosition_near m :
  distanceFromOrigin m <= MAX_DISTANCE cfg →
  OnMesh.constrainToOriginalPosition (MAX_DISTANCE cfg) (RETURN_FORCE cfg) m = m.
Proof.
  unfold distanceFromOrigin, OnMesh.constrainToOriginalPosition, dist2.
  destruct (userData m) as [u|]; [|done]. intros Hd.
  rewrite bool_decide_eq_false_2; [done|lra].
Qed.

(** The reflection at the right edge of the screen, followed by the friction
    of the same tick. *)
Lemma tickMesh_bounce_right r1 r2 w h m u :
  userData m = Some u →
  0 <= w →
  position_x m = w / 2 + 5 → vx u = 3 → vy u = 0 →
  - (h / 2) <= position_y m <= h / 2 →
  (r1 - 0.5) * Brownian_STRENGTH cfg = 0 →
  (r2 - 0.5) * Brownian_STRENGTH cfg = 0 →
  distanceFromOrigin m <= MAX_DISTANCE cfg →
  ∃ u', userData (tickMesh cfg r1 r2 w h m) = Some u' ∧
        position_x (tickMesh cfg r1 r2 w h m) = w / 2 ∧
        position_y (tickMesh cfg r1 r2 w h m) = position_y m ∧
        vx u' = - 3 * BOUNCE_FACTOR cfg * FRICTION cfg ∧
        vy u' = 0.
Proof.
  intros Hu Hw Hx Hvx Hvy Hy Hr1 Hr2 Hd.
  destruct m as [x y ud]. destruct u as [vx0 vy0 ox oy]. mesh_simpl. subst ud.
  unfold tickMesh. rewrite Hr1, Hr2.
  assert (OnMesh.addVelocity 0 0 (mkMesh x y (Some (mkUserData vx0 vy0 ox oy)))
          = mkMesh x y (Some (mkUserData vx0 vy0 ox oy))) as ->.
  { unfold OnMesh.addVelocity; mesh_simpl. do 3 f_equal; lra. }
  rewrite constrainToOriginalPosition_near by done.
  unfold integrateMesh, OnMesh.move, OnMesh.constrainToScreen; mesh_simpl.
  rewrite (bool_decide_eq_false_2 (x + vx0 < - (w / 2))) by lra.
  rewrite (bool_decide_eq_true_2 (x + vx0 > w / 2)) by lra.
  unfold OnMesh.bounceX; mesh_simpl.
  rewrite (bool_decide_eq_false_2 (y + vy0 < - (h / 2))) by lra.
  rewrite (bool_decide_eq_false_2 (y + vy0 > h / 2)) by lra.
  unfold OnMesh.applyFriction; mesh_simpl.
  eexists. split; [reflexivity|]. mesh_simpl.
  repeat split; try lra. rewrite Hvx. lra. rewrite Hvy. lra.
Qed.

End OnePoint.

(** * Well-formed states *)

Section WellFormed.

Lemma wf_stateOf ms :
  Forall (fun m => is_Some (userData m)) ms → wf (stateOf ms).
Proof.
  intros Hms. split; unfold stateOf; cbn [points heap nextLoc meshes].
  - intros p [_ Hp]%elem_of_seq. simpl in Hp.
    destruct (lookup_lt_is_Some_2 ms p Hp) as [m Hm].
    rewrite Forall_lookup in Hms. destruct (Hms p m Hm) as [u Hu].
    exists m, u. by rewrite lookup_map_seq_0.
  - apply NoDup_seq.
  - intros p. rewrite lookup_map_seq_0. intros Hp%lookup_lt_is_Some_1. lia.
  - intros meshObj Hin. by apply elem_of_nil in Hin.
Qed.

Lemma wf_farAway : wf farAway.
Proof. apply wf_stateOf. repeat constructor; by eexists. Qed.

Lemma wf_beyondRightEdge : wf beyondRightEdge.
Proof. apply wf_stateOf. repeat constructor; by eexists. Qed.

End WellFormed.

(** * Claims on updatePoints *)

Section UpdatePointsClaims.

Import PointManager.


(** C4, as amended.  A point at [x = halfWidth + 5] with velocity
    [vx = +3], [vy = 0], vertically on screen, within [MAX_DISTANCE] of its
    origin and receiving no Brownian noise has, after one [updatePoints]
    call, [x = halfWidth] and [vx = -3 * BOUNCE_FACTOR * FRICTION]: the
    velocity is reflected, scaled by the bounce factor and then damped by
    the friction of the same call; there is no movement on the y axis. *)
Theorem C4_bounce_then_friction cfg random w h s i p m u :
  wf s → points s !! i = Some p →
  heap s !! p = Some m → userData m = Some u →
  0 <= w →
  position_x m = w / 2 + 5 → vx u = 3 → vy u = 0 →
  - (h / 2) <= position_y m <= h / 2 →
  (random (randomCalls s + 2 * i)%nat - 0.5) * Brownian_STRENGTH cfg = 0 →
  (random (S (randomCalls s + 2 * i)) - 0.5) * Brownian_STRENGTH cfg = 0 →
  distanceFromOrigin m <= MAX_DISTANCE cfg →
  ∃ m' u', heap (updatePoints cfg random w h s) !! p = Some m' ∧
           userData m' = Some u' ∧
           position_x m' = w / 2 ∧
           position_y m' = position_y m ∧
           vx u' = - 3 * BOUNCE_FACTOR cfg * FRICTION cfg ∧
           vy u' = 0.
Proof.
  intros Hwf Hi Hm Hu Hw Hx Hvx Hvy Hy Hr1 Hr2 Hd.
  rewrite (updatePoints_lookup cfg random w h s i p (wf_points_NoDup s Hwf) Hi), Hm.
  destruct (tickMesh_bounce_right cfg _ _ w h m u Hu Hw Hx Hvx Hvy Hy Hr1 Hr2 Hd)
    as (u' & Hu' & Hx' & Hy' & Hvx' & Hvy').
  eexists _, u'. split; [reflexivity|]. auto.
Qed.

Lemma beyondRightEdge_premises :
  points beyondRightEdge !! 0%nat = Some 0%nat ∧
  heap beyondRightEdge !! 0%nat = Some (mkMesh 55 0 (Some (mkUserData 3 0 55 0))) ∧
  0 <= 100 ∧ 55 = 100 / 2 + 5 ∧ - (100 / 2) <= 0 <= 100 / 2 ∧
  (noNoise (randomCalls beyondRightEdge + 2 * 0)%nat - 0.5)
    * Brownian_STRENGTH constants = 0 ∧
  (noNoise (S (randomCalls beyondRightEdge + 2 * 0)) - 0.5)
    * Brownian_STRENGTH constants = 0 ∧
  distanceFromOrigin (mkMesh 55 0 (Some (mkUserData 3 0 55 0)))
    <= MAX_DISTANCE constants.
Proof.
  repeat split; try reflexivity; try lra; try (unfold noNoise; lra).
  unfold distanceFromOrigin, dist2; cbn [userData position_x position_y origX origY].
  replace ((55 - 55) * (55 - 55) + (0 - 0) * (0 - 0)) with 0 by lra.
  rewrite sqrt_0. cbn [MAX_DISTANCE constants]. lra.
Qed.

Lemma C4_bounce_then_friction_witness :
  ∃ m' u',
    heap (updatePoints constants noNoise 100 100 beyondRightEdge) !! 0%nat = Some m' ∧
    userData m' = Some u' ∧
    position_x m' = 100 / 2 ∧
    position_y m' = 0 ∧
    vx u' = - 3 * BOUNCE_FACTOR constants * FRICTION constants ∧
    vy u' = 0.
Proof.
  destruct beyondRightEdge_premises as (Hi & Hm & Hw & Hx & Hy & Hr1 & Hr2 & Hd).
  exact (C4_bounce_then_friction constants noNoise 100 100 beyondRightEdge 0%nat 0%nat
           _ _ wf_beyondRightEdge Hi Hm eq_refl Hw Hx eq_refl eq_refl Hy Hr1 Hr2 Hd).
Defined.

(** C4 as stated fails.  On a screen 100 wide, with no Brownian noise and no
    return force, the point at [x = halfWidth + 5] with [vx = +3] ends the
    call with [vx = -1.35], not [-3 * BOUNCE_FACTOR = -1.5]. *)
Lemma C4_counterexample_friction :
  ∃ m u m' u',
    heap beyondRightEdge !! 0%nat = Some m ∧ userData m = Some u ∧
    position_x m = 100 / 2 + 5 ∧ vx u = 3 ∧ vy u = 0 ∧
    heap (updatePoints constants noNoise 100 100 beyondRightEdge) !! 0%nat = Some m' ∧
    userData m' = Some u' ∧
    vx u' = - 1.35 ∧
    vx u' ≠ - 3 * BOUNCE_FACTOR constants.
Proof.
  destruct beyondRightEdge_premises as (Hi & Hm & Hw & Hx & Hy & Hr1 & Hr2 & Hd).
  destruct (tickMesh_bounce_right constants
              (noNoise (randomCalls beyondRightEdge + 2 * 0)%nat)
              (noNoise (S (randomCalls beyondRightEdge + 2 * 0))) 100 100
              (mkMesh 55 0 (Some (mkUserData 3 0 55 0))) (mkUserData 3 0 55 0)
              eq_refl Hw Hx eq_refl eq_refl Hy Hr1 Hr2 Hd)
    as (u' & Hu' & _ & _ & Hvx & _).
  cbn [BOUNCE_FACTOR FRICTION constants] in Hvx.
  exists (mkMesh 55 0 (Some (mkUserData 3 0 55 0))), (mkUserData 3 0 55 0),
         (tickMesh constants (noNoise (randomCalls beyondRightEdge + 2 * 0)%nat)
                   (noNoise (S (randomCalls beyondRightEdge + 2 * 0))) 100 100
                   (mkMesh 55 0 (Some (mkUserData 3 0 55 0)))), u'.
  assert (Hm' : heap (updatePoints constants noNoise 100 100 beyondRightEdge) !! 0%nat
                = Some (tickMesh constants
                          (noNoise (randomCalls beyondRightEdge + 2 * 0)%nat)
                          (noNoise (S (randomCalls beyondRightEdge + 2 * 0))) 100 100
                          (mkMesh 55 0 (Some (mkUserData 3 0 55 0))))).
  { rewrite (updatePoints_lookup constants noNoise 100 100 beyondRightEdge 0%nat 0%nat
               (wf_points_NoDup _ wf_beyondRightEdge) Hi).
    by rewrite Hm. }
  cbn [position_x userData vx vy BOUNCE_FACTOR constants].
  repeat split; try done; lra.
Qed.

End UpdatePointsClaims.

(** * Geometry refresh *)

Section Refresh.

Import PointManager DelaunayTriangulation.

Lemma sameDrawable_refl ms : Forall2 sameDrawable ms ms.
Proof. induction ms; constructor; [by repeat split|done]. Qed.

Lemma updateTrianglePositions_sameDrawable s ms :
  Forall2 sameDrawable (meshes s) ms →
  Forall2 sameDrawable (meshes (updateTrianglePositions s)) ms.
Proof.
  unfold updateTrianglePositions; cbn [meshes set_meshes].
  induction 1 as [|a b l k (?&?&?&?&?) _ IH]; cbn [map]; constructor;
    [by repeat split|done].
Qed.

Lemma updateTrianglePositions_coordinates s meshObj :
  meshObj ∈ meshes (updateTrianglePositions s) →
  positionAttr meshObj =
  coordinates (lineVertices (getTriangleVertices (heap s) (triangle meshObj))).
Proof.
  unfold updateTrianglePositions; cbn [meshes set_meshes].
  intros Hin. apply list_elem_of_fmap in Hin as (old & -> & _). done.
Qed.

Lemma updatePoints_sameDrawable cfg random w h s :
  Forall2 sameDrawable (meshes (updatePoints cfg random w h s)) (meshes s).
Proof.
  assert (∀ hp s, meshes (set_heap hp s) = meshes s) as Hheap by done.
  assert (meshes (applyBrownianMotion cfg random s) = meshes s) as H1.
  { by apply (fold_left_preserves _ meshes). }
  assert (∀ s, meshes (applyPositionConstraints cfg s) = meshes s) as H2.
  { intros s'. by apply (fold_left_preserves _ meshes). }
  destruct (updatePoints_cases cfg random w h s) as [-> | ->].
  - rewrite integration_loop_preserves by done; cbn [fst].
    rewrite H2, H1. apply sameDrawable_refl.
  - apply updateTrianglePositions_sameDrawable.
    rewrite integration_loop_preserves by done; cbn [fst].
    rewrite H2, H1. apply sameDrawable_refl.
Qed.

(** C7.  A pure position update ([updatePoints], followed or not by
    [updateTrianglePositions]) leaves the triangle list as it was, keeps the
    same drawables for the same triangles, in the same number, adds nothing
    to the scene and allocates no object; after [updateTrianglePositions]
    the vertex coordinates of each drawable are those of the current
    positions of its triangle's points. *)
Theorem C7_refresh_keeps_membership cfg random w h s :
  let s1 := updatePoints cfg random w h s in
  let s2 := updateTrianglePositions s1 in
  (triangles s1 = triangles s ∧ triangles s2 = triangles s) ∧
  (points s1 = points s ∧ points s2 = points s) ∧
  (Forall2 sameDrawable (meshes s1) (meshes s) ∧
   Forall2 sameDrawable (meshes s2) (meshes s)) ∧
  (length (meshes s1) = length (meshes s) ∧ length (meshes s2) = length (meshes s)) ∧
  (scene s1 = scene s ∧ scene s2 = scene s) ∧
  (nextLoc s1 = nextLoc s ∧ nextLoc s2 = nextLoc s) ∧
  (∀ meshObj, meshObj ∈ meshes s2 →
     positionAttr meshObj =
     coordinates (lineVertices (getTriangleVertices (heap s1) (triangle meshObj)))).
Proof.
  cbv zeta.
  pose proof (updatePoints_sameDrawable cfg random w h s) as H1.
  assert (Forall2 sameDrawable
            (meshes (updateTrianglePositions (updatePoints cfg random w h s)))
            (meshes s)) as H2.
  { by apply updateTrianglePositions_sameDrawable. }
  repeat split.
  - apply updatePoints_triangles.
  - apply updatePoints_triangles.
  - apply updatePoints_points.
  - apply updatePoints_points.
  - exact H1.
  - exact H2.
  - by apply Forall2_length in H1.
  - by apply Forall2_length in H2.
  - apply updatePoints_scene.
  - apply updatePoints_scene.
  - apply updatePoints_nextLoc.
  - apply updatePoints_nextLoc.
  - apply updateTrianglePositions_coordinates.
Qed.

End Refresh.

(** * addPoint and the point array *)

Section AddPoint.

Import PointManager.

Context (cfg : Constants).

Lemma removePoint_points point s : points (removePoint point s) = points s.
Proof. by destruct point. Qed.

Lemma removePoint_nextLoc point s : nextLoc (removePoint point s) = nextLoc s.
Proof. by destruct point. Qed.

(** The point array after [addPoint]: the oldest point leaves when the array
    is full, and the new mesh is pushed at the end. *)
Lemma addPoint_points iw ih x y s :
  points (addPoint cfg iw ih x y s).1 =
  (if bool_decide (length (points s) >= MAX_POINTS cfg)%nat
   then tail (points s) else points s) ++ [(addPoint cfg iw ih x y s).2].
Proof.
  unfold addPoint. case_bool_decide; state_simpl;
    by rewrite ?removePoint_points, ?removePoint_nextLoc.
Qed.

Lemma addPoint_result iw ih x y s : (addPoint cfg iw ih x y s).2 = nextLoc s.
Proof.
  unfold addPoint. case_bool_decide; state_simpl; by rewrite ?removePoint_nextLoc.
Qed.

Lemma addPoint_nextLoc iw ih x y s :
  nextLoc (addPoint cfg iw ih x y s).1 = S (nextLoc s).
Proof.
  unfold addPoint. case_bool_decide; state_simpl; by rewrite ?removePoint_nextLoc.
Qed.

(** The invariant of a run of [addPoint] calls that has created the meshes
    [created] so far: the array holds the last [MAX_POINTS] of them. *)
Lemma addPointsFrom_cons call calls s created :
  addPointsFrom cfg (call :: calls) (s, created) =
  addPointsFrom cfg calls
    ((addPoint cfg (call_innerWidth call) (call_innerHeight call)
               (call_x call) (call_y call) s).1,
     created ++ [(addPoint cfg (call_innerWidth call) (call_innerHeight call)
                           (call_x call) (call_y call) s).2]).
Proof. done. Qed.

Lemma tail_drop {A} (l : list A) n : tail (drop n l) = drop (S n) l.
Proof. revert n. induction l as [|a l IH]; intros [|n]; try done. simpl. apply IH. Qed.

Lemma addPointsFrom_invariant calls s created :
  (1 ≤ MAX_POINTS cfg)%nat →
  points s = drop (length created - MAX_POINTS cfg) created →
  (∀ p, p ∈ created → (p < nextLoc s)%nat) →
  NoDup created →
  points (addPointsFrom cfg calls (s, created)).1 =
    drop (length (addPointsFrom cfg calls (s, created)).2 - MAX_POINTS cfg)
         (addPointsFrom cfg calls (s, created)).2 ∧
  length (addPointsFrom cfg calls (s, created)).2 = (length created + length calls)%nat ∧
  NoDup (addPointsFrom cfg calls (s, created)).2 ∧
  (∃ new, (addPointsFrom cfg calls (s, created)).2 = created ++ new).
Proof.
  intros Hmax. revert s created.
  induction calls as [|call calls IH]; intros s created Hpts Hfresh Hnd.
  - cbn [addPointsFrom fold_left fst snd]. repeat split; [done|simpl; lia|done|].
    exists []. by rewrite app_nil_r.
  - rewrite addPointsFrom_cons.
    set (iw := call_innerWidth call). set (ih := call_innerHeight call).
    set (x := call_x call). set (y := call_y call).
    specialize (IH (addPoint cfg iw ih x y s).1 (created ++ [(addPoint cfg iw ih x y s).2])).
    destruct IH as (H1 & H2 & H3 & new & H4).
    + rewrite addPoint_points, Hpts, addPoint_result.
      rewrite length_app; cbn [length].
      assert (length (drop (length created - MAX_POINTS cfg) created)
              = length created - (length created - MAX_POINTS cfg))%nat as Hlen
        by apply length_drop.
      case_bool_decide as Hfull.
      * rewrite Hlen in Hfull. unfold ge in Hfull.
        assert (MAX_POINTS cfg ≤ length created)%nat by lia.
        replace (length created + 1 - MAX_POINTS cfg)%nat
          with (S (length created - MAX_POINTS cfg)) by lia.
        rewrite drop_app_le by lia. by rewrite tail_drop.
      * rewrite Hlen in Hfull. unfold ge in Hfull.
        assert (length created < MAX_POINTS cfg)%nat by lia.
        replace (length created + 1 - MAX_POINTS cfg)%nat with 0%nat by lia.
        replace (length created - MAX_POINTS cfg)%nat with 0%nat by lia. done.
    + intros p [Hp | ->%list_elem_of_singleton]%elem_of_app;
        rewrite addPoint_nextLoc, ?addPoint_result; [|lia].
      specialize (Hfresh p Hp). lia.
    + apply NoDup_app. split; [done|]. split; [|apply NoDup_singleton].
      intros p Hp ->%list_elem_of_singleton. rewrite addPoint_result in Hp.
      specialize (Hfresh _ Hp). lia.
    + repeat split; [done| |done|].
      * rewrite H2, length_app. simpl. lia.
      * eexists. rewrite H4, <- app_assoc. reflexivity.
Qed.

Lemma addPoints_snoc calls call s :
  addPoints cfg (calls ++ [call]) s =
  ((addPoint cfg (call_innerWidth call) (call_innerHeight call) (call_x call) (call_y call)
             (addPoints cfg calls s).1).1,
   (addPoints cfg calls s).2 ++
   [(addPoint cfg (call_innerWidth call) (call_innerHeight call) (call_x call) (call_y call)
              (addPoints cfg calls s).1).2]).
Proof. unfold addPoints, addPointsFrom. by rewrite fold_left_app. Qed.

(** The store after [addPoint]: the evicted mesh loses its [userData] and the
    new mesh is at rest at the converted coordinates. *)
Lemma addPoint_heap iw ih x y s :
  heap (addPoint cfg iw ih x y s).1 =
  <[nextLoc s := atRest (x - iw / 2) (ih / 2 - y)]>
    (if bool_decide (length (points s) >= MAX_POINTS cfg)%nat
     then match head (points s) with
          | Some oldest =>
              alter (fun m => mkMesh (position_x m) (position_y m) None) oldest (heap s)
          | None => heap s
          end
     else heap s).
Proof.
  unfold addPoint. case_bool_decide; state_simpl; [|done].
  destruct (head (points s)); by state_simpl.
Qed.

(** The meshes a run has returned are below the allocation pointer. *)
Lemma addPoints_fresh calls :
  nextLoc (addPoints cfg calls initial).1 = (2 + length calls)%nat ∧
  ∀ p, p ∈ (addPoints cfg calls initial).2 →
       (p < nextLoc (addPoints cfg calls initial).1)%nat.
Proof.
  induction calls as [|call calls [IHn IH]] using rev_ind; [split; [done|]|].
  - intros p Hp. by apply elem_of_nil in Hp.
  - rewrite addPoints_snoc. cbn [fst snd]. rewrite addPoint_nextLoc, addPoint_result.
    split; [rewrite length_app; simpl; lia|].
    intros p [Hp | ->%list_elem_of_singleton]%elem_of_app; [|lia].
    specialize (IH p Hp). lia.
Qed.

Lemma elem_of_tail {A} (x : A) l : x ∈ tail l → x ∈ l.
Proof. destruct l; [done|]. simpl. apply list_elem_of_further. Qed.

(** Every live point of a run is at rest where its call put it. *)
Lemma addPoints_positions calls :
  (1 ≤ MAX_POINTS cfg)%nat →
  ∀ i call p,
    calls !! i = Some call →
    (addPoints cfg calls initial).2 !! i = Some p →
    p ∈ points (addPoints cfg calls initial).1 →
    heap (addPoints cfg calls initial).1 !! p =
    Some (atRest (call_x call - call_innerWidth call / 2)
                 (call_innerHeight call / 2 - call_y call)).
Proof.
  intros Hmax.
  induction calls as [|c calls IH] using rev_ind; intros i call p Hcall Hp Hlive; [done|].
  destruct (addPointsFrom_invariant calls initial [] Hmax) as (Hpts & Hlen & Hnd & _);
    [done | by intros ? ?%elem_of_nil | constructor |].
  fold (addPoints cfg calls initial) in Hpts, Hlen, Hnd. simpl in Hlen.
  destruct (addPoints_fresh calls) as [Hnext Hfresh].
  rewrite addPoints_snoc in Hp, Hlive |- *. cbn [fst snd] in *.
  rewrite addPoint_result in Hp. rewrite addPoint_points, addPoint_result in Hlive.
  rewrite addPoint_heap.
  destruct (decide (i < length calls)%nat) as [Hi|Hi].
  - rewrite lookup_app_l in Hcall by done.
    rewrite lookup_app_l in Hp by lia.
    assert (p ≠ nextLoc (addPoints cfg calls initial).1) as Hne.
    { intros ->. apply list_elem_of_lookup_2, Hfresh in Hp. lia. }
    rewrite lookup_insert_ne by done.
    apply elem_of_app in Hlive as [Hlive | ->%list_elem_of_singleton]; [|done].
    assert (NoDup (points (addPoints cfg calls initial).1)) as Hndp.
    { rewrite Hpts. eapply sublist_NoDup; [exact Hnd|apply sublist_drop]. }
    case_bool_decide.
    + destruct (points (addPoints cfg calls initial).1) as [|o ps] eqn:Eps;
        [by apply elem_of_nil in Hlive|].
      cbn [head tail] in *. apply NoDup_cons in Hndp as [Ho _].
      rewrite lookup_alter_ne by (intros ->; done).
      apply (IH i); [done..|]. rewrite ?Eps. by apply list_elem_of_further.
    + by apply (IH i).
  - assert (i = length calls) as ->.
    { apply lookup_lt_Some in Hcall. rewrite length_app in Hcall. simpl in Hcall. lia. }
    rewrite list_lookup_middle in Hcall by done. injection Hcall as ->.
    rewrite list_lookup_middle in Hp by lia. injection Hp as <-.
    by rewrite lookup_insert_eq.
Qed.

End AddPoint.

Section Capacity.

(** C3.  For every sequence of [addPoint] calls from the empty manager, the
    live points are the most recently created meshes, at most
    [MAX_POINTS = 30] of them, in insertion order, each at rest where its call
    put it; once the array is full each call evicts the oldest point, so that
    after 31 calls the array holds the last 30 meshes in their order and the
    first one is gone. *)
Theorem C3_fifo_capacity calls :
  let s := (addPoints constants calls initial).1 in
  let created := (addPoints constants calls initial).2 in
  MAX_POINTS constants = 30%nat ∧
  length created = length calls ∧
  NoDup created ∧
  (length (points s) ≤ 30)%nat ∧
  points s = drop (length calls - 30) created ∧
  (∀ i call p,
     calls !! i = Some call → created !! i = Some p → p ∈ points s →
     heap s !! p = Some (atRest (call_x call - call_innerWidth call / 2)
                                (call_innerHeight call / 2 - call_y call))) ∧
  (length calls = 31%nat →
   ∃ first rest, created = first :: rest ∧ points s = rest ∧
                 length rest = 30%nat ∧ first ∉ points s).
Proof.
  intros s created.
  assert (Hmax : (1 ≤ MAX_POINTS constants)%nat) by (simpl; lia).
  destruct (addPointsFrom_invariant constants calls initial [] Hmax)
    as (Hpts & Hlen & Hnd & _);
    [done | by intros ? ?%elem_of_nil | constructor |].
  fold (addPoints constants calls initial) in Hpts, Hlen, Hnd.
  fold s in Hpts. fold created in Hpts, Hlen, Hnd.
  cbn [length MAX_POINTS constants] in Hpts, Hlen. rewrite Nat.add_0_l in Hlen.
  rewrite Hlen in Hpts.
  split; [done|]. split; [done|]. split; [done|].
  split; [rewrite Hpts, length_drop; lia|]. split; [done|].
  split; [apply (addPoints_positions constants calls Hmax)|].
  intros H31. rewrite H31 in Hpts, Hlen.
  destruct created as [|first rest]; [done|].
  exists first, rest. cbn [length] in Hlen.
  change (31 - 30)%nat with 1%nat in Hpts. cbn [drop] in Hpts.
  rewrite Hpts. apply NoDup_cons in Hnd as [Hfirst _].
  repeat split; try done; lia.
Qed.

Lemma C3_fifo_capacity_witness :
  ∃ first rest,
    (addPoints constants thirtyOneCalls initial).2 = first :: rest ∧
    points (addPoints constants thirtyOneCalls initial).1 = rest ∧
    length rest = 30%nat ∧
    first ∉ points (addPoints constants thirtyOneCalls initial).1.
Proof.
  exact (proj2 (proj2 (proj2 (proj2 (proj2 (proj2
           (C3_fifo_capacity thirtyOneCalls)))))) eq_refl).
Defined.

End Capacity.

(** * applyRepulsion *)

Section Repulsion.

Import PointManager.

Context (cfg : Constants).

Ltac mesh_simpl :=
  cbn [position_x position_y userData vx vy origX origY fmap option_fmap option_map] in *.

(** The loop of [applyRepulsion] alters every live point but the new one,
    with the position of the new point the loop started from. *)
Lemma applyRepulsion_heap newPoint s p :
  NoDup (points s) →
  heap (applyRepulsion cfg newPoint s) !! p =
  if decide (p ∈ points s)
  then (if decide (p = newPoint) then (fun m : Mesh => m)
        else OnMesh.applyRepulsionForce
               (position_x (heap s !!! newPoint)) (position_y (heap s !!! newPoint))
               (Repulsion_STRENGTH cfg) (RADIUS cfg))
         <$> heap s !! p
  else heap s !! p.
Proof.
  intros Hnd. unfold applyRepulsion.
  match goal with
  | |- heap (if ?c then DelaunayTriangulation.calculateAndDraw ?a else ?a) !! _ = _ =>
      assert (heap (if c then DelaunayTriangulation.calculateAndDraw a else a) = heap a)
        as -> by (destruct c; [apply calculateAndDraw_heap|done])
  end.
  state_simpl.
  set (F := fun x : loc =>
              if decide (x = newPoint) then (fun m : Mesh => m)
              else OnMesh.applyRepulsionForce
                     (position_x (heap s !!! newPoint))
                     (position_y (heap s !!! newPoint))
                     (Repulsion_STRENGTH cfg) (RADIUS cfg)).
  change (heap (fold_left
            (fun s0 point =>
               if bool_decide (point = newPoint) then s0
               else set_heap (applyRepulsionForce point newPoint (Repulsion_STRENGTH cfg)
                                                  (RADIUS cfg) (heap s0)) s0)
            (points s) (set_lastAddedPoint (Some newPoint) s)) !! p
          = if decide (p ∈ points s)
            then F p <$> heap (set_lastAddedPoint (Some newPoint) s) !! p
            else heap (set_lastAddedPoint (Some newPoint) s) !! p).
  apply (fold_left_alter_lookup _ heap F
           (fun a => heap a !!! newPoint = heap s !!! newPoint)); [|done..].
  intros a x Ha. unfold F. case_bool_decide as Hx.
  - rewrite decide_True by done. split; [|done]. symmetry. by apply alter_id.
  - rewrite decide_False by done. state_simpl. unfold applyRepulsionForce.
    rewrite Ha. split; [done|]. by rewrite lookup_total_alter_ne.
Qed.




End Repulsion.

Section RepulsionWitness.

Import PointManager.




End RepulsionWitness.

(** * calculateAndDraw *)

Section CalculateAndDraw.

Import DelaunayTriangulation.

(** What [clearTriangleMeshes] removes from the scene. *)
Lemma clear_fold_scene ms s l :
  l ∈ scene (fold_left
               (fun s meshObj =>
                  set_disposed ({[material meshObj]} ∪ ({[geometry meshObj]} ∪ disposed s))
                    (set_scene (scene s ∖ {[line meshObj]}) s))
               ms s)
  ↔ l ∈ scene s ∧ l ∉ map line ms.
Proof.
  revert s. induction ms as [|meshObj ms IH]; intros s; cbn [fold_left map].
  - split; [intros H; split; [done|apply not_elem_of_nil]|by intros [? _]].
  - rewrite IH. state_simpl.
    rewrite not_elem_of_cons, elem_of_difference, elem_of_singleton. tauto.
Qed.

(** What [clearTriangleMeshes] disposes of. *)
Lemma clear_fold_disposed ms s l :
  l ∈ disposed (fold_left
                  (fun s meshObj =>
                     set_disposed ({[material meshObj]} ∪ ({[geometry meshObj]} ∪ disposed s))
                       (set_scene (scene s ∖ {[line meshObj]}) s))
                  ms s)
  ↔ l ∈ disposed s ∨ l ∈ map geometry ms ∨ l ∈ map material ms.
Proof.
  revert s. induction ms as [|meshObj ms IH]; intros s; cbn [fold_left map].
  - rewrite !elem_of_nil. tauto.
  - rewrite IH. state_simpl.
    rewrite !elem_of_cons, !elem_of_union, !elem_of_singleton. tauto.
Qed.

Lemma clearTriangleMeshes_scene s l :
  l ∈ scene (clearTriangleMeshes s) ↔ l ∈ scene s ∧ l ∉ map line (meshes s).
Proof. unfold clearTriangleMeshes. state_simpl. apply clear_fold_scene. Qed.

Lemma clearTriangleMeshes_disposed s l :
  l ∈ disposed (clearTriangleMeshes s) ↔
  l ∈ disposed s ∨ l ∈ map geometry (meshes s) ∨ l ∈ map material (meshes s).
Proof. unfold clearTriangleMeshes. state_simpl. apply clear_fold_disposed. Qed.

Lemma drawTriangle_nextLoc t s : nextLoc (drawTriangle t s) = S (S (S (nextLoc s))).
Proof. done. Qed.

Lemma drawTriangle_scene t s :
  scene (drawTriangle t s) = {[S (S (nextLoc s))]} ∪ scene s.
Proof. done. Qed.

Lemma drawTriangle_meshes t s :
  meshes (drawTriangle t s) =
  meshes s ++ [mkMeshObj (S (S (nextLoc s))) (nextLoc s) (S (nextLoc s)) t
                         (Triangle.getColorSeed (heap s) t)
                         (coordinates (lineVertices (getTriangleVertices (heap s) t)))].
Proof. done. Qed.

(** Drawing a list of triangles: one drawable per triangle is appended, on
    fresh objects. *)
Lemma drawTriangles_spec ts s :
  nextLoc (fold_left (fun s t => drawTriangle t s) ts s) = (nextLoc s + 3 * length ts)%nat ∧
  map triangle (meshes (fold_left (fun s t => drawTriangle t s) ts s))
    = map triangle (meshes s) ++ ts ∧
  (∀ meshObj, meshObj ∈ meshes (fold_left (fun s t => drawTriangle t s) ts s) →
     meshObj ∈ meshes s ∨
     (nextLoc s ≤ line meshObj < nextLoc s + 3 * length ts)%nat) ∧
  (∀ l, l ∈ scene (fold_left (fun s t => drawTriangle t s) ts s) →
     l ∈ scene s ∨ (nextLoc s ≤ l)%nat).
Proof.
  revert s. induction ts as [|t ts IH]; intros s; cbn [fold_left length].
  - repeat split; [lia|by rewrite app_nil_r|auto..].
  - destruct (IH (drawTriangle t s)) as (H1 & H2 & H3 & H4).
    rewrite drawTriangle_nextLoc in H1, H3, H4.
    rewrite drawTriangle_meshes in H2, H3. rewrite drawTriangle_scene in H4.
    repeat split.
    + rewrite H1. lia.
    + rewrite H2, map_app, <- app_assoc. done.
    + intros meshObj Hin. destruct (H3 meshObj Hin) as [Hold|Hnew]; [|right; lia].
      apply elem_of_app in Hold as [Hold | ->%list_elem_of_singleton]; [by left|].
      right. cbn [line]. lia.
    + intros l Hin. destruct (H4 l Hin) as [Hold|Hnew]; [|right; lia].
      apply elem_of_union in Hold as [->%elem_of_singleton|Hold]; [right; lia|by left].
Qed.

(** [calculateAndDraw] keeps a well-formed state well formed. *)
Lemma wf_calculateAndDraw s : wf s → wf (calculateAndDraw s).
Proof.
  intros Hwf.
  assert (nextLoc s ≤ nextLoc (calculateAndDraw s))%nat as Hnext.
  { unfold calculateAndDraw. case_bool_decide.
    - destruct (drawTriangles_spec
                  (triangles (set_triangles (findDelaunayTriangles (clearTriangleMeshes s))
                                            (clearTriangleMeshes s)))
                  (set_triangles (findDelaunayTriangles (clearTriangleMeshes s))
                                 (clearTriangleMeshes s))) as (-> & _).
      state_simpl. rewrite clearTriangleMeshes_nextLoc. lia.
    - by rewrite clearTriangleMeshes_nextLoc. }
  split.
  - intros p. rewrite calculateAndDraw_points, calculateAndDraw_heap.
    apply (wf_points_live s Hwf).
  - rewrite calculateAndDraw_points. apply (wf_points_NoDup s Hwf).
  - intros p. rewrite calculateAndDraw_heap. intros Hp.
    pose proof (wf_heap_fresh s Hwf p Hp). lia.
  - intros meshObj. unfold calculateAndDraw. case_bool_decide.
    + destruct (drawTriangles_spec
                  (triangles (set_triangles (findDelaunayTriangles (clearTriangleMeshes s))
                                            (clearTriangleMeshes s)))
                  (set_triangles (findDelaunayTriangles (clearTriangleMeshes s))
                                 (clearTriangleMeshes s))) as (-> & _ & H3 & _).
      intros Hin. destruct (H3 meshObj Hin) as [Hold|Hnew]; [|lia].
      state_simpl. by apply elem_of_nil in Hold.
    + intros Hin. by apply elem_of_nil in Hin.
Qed.

(** C6, as amended.  [calculateAndDraw] always first clears all existing
    drawables (each one leaves the scene, its geometry and material are
    disposed of, and what the table holds afterwards are new objects), and
    then: if the point set has >= 3 points it rebuilds the triangle list from
    scratch by the brute-force search, with one drawable per triangle; else it
    leaves the triangle list as it was and draws nothing.  After
    [calculateAndDraw] on fewer than 3 points there is no drawable, and the
    triangle list is empty if it was empty before. *)
Theorem C6_clear_then_rebuild_or_keep s :
  wf s →
  (∀ old, old ∈ meshes s →
     (line old ∉ scene (calculateAndDraw s)) ∧
     geometry old ∈ disposed (calculateAndDraw s) ∧
     material old ∈ disposed (calculateAndDraw s)) ∧
  (∀ new, new ∈ meshes (calculateAndDraw s) → (nextLoc s ≤ line new)%nat) ∧
  ((3 ≤ length (points s))%nat →
     triangles (calculateAndDraw s) = findDelaunayTriangles s ∧
     map triangle (meshes (calculateAndDraw s)) = findDelaunayTriangles s) ∧
  ((length (points s) < 3)%nat →
     calculateAndDraw s = clearTriangleMeshes s ∧
     triangles (calculateAndDraw s) = triangles s ∧
     meshes (calculateAndDraw s) = [] ∧
     (triangles s = [] → triangles (calculateAndDraw s) = [])).
Proof.
  intros Hwf.
  set (s1 := set_triangles (findDelaunayTriangles (clearTriangleMeshes s))
                           (clearTriangleMeshes s)).
  destruct (drawTriangles_spec (triangles s1) s1) as (D1 & D2 & D3 & D4).
  assert (Hfind : findDelaunayTriangles (clearTriangleMeshes s) = findDelaunayTriangles s).
  { unfold findDelaunayTriangles.
    by rewrite clearTriangleMeshes_heap, clearTriangleMeshes_points. }
  split; [|split; [|split]].
  - intros old Hold.
    assert (Hline : line old ∈ map line (meshes s)) by (by apply list_elem_of_fmap_2).
    assert (Hgeo : geometry old ∈ map geometry (meshes s)) by (by apply list_elem_of_fmap_2).
    assert (Hmat : material old ∈ map material (meshes s)) by (by apply list_elem_of_fmap_2).
    pose proof (wf_lines_fresh s Hwf old Hold) as Hfresh.
    unfold calculateAndDraw. case_bool_decide; fold s1.
    + rewrite drawTriangles_disposed. subst s1. state_simpl.
      rewrite !clearTriangleMeshes_disposed. split; [|by auto].
      intros Hin. apply D4 in Hin. state_simpl.
      rewrite clearTriangleMeshes_nextLoc in Hin.
      destruct Hin as [Hin|Hin]; [|lia].
      apply clearTriangleMeshes_scene in Hin as [_ Hin]. done.
    + rewrite !clearTriangleMeshes_disposed. split; [|by auto].
      intros [_ Hin]%clearTriangleMeshes_scene. done.
  - intros new. unfold calculateAndDraw. case_bool_decide; fold s1.
    + intros Hin. apply D3 in Hin. subst s1. state_simpl.
      rewrite clearTriangleMeshes_nextLoc in Hin.
      destruct Hin as [Hin|Hin]; [by apply elem_of_nil in Hin|lia].
    + intros Hin. by apply elem_of_nil in Hin.
  - intros Hn. split; [by apply calculateAndDraw_triangles_rebuilt|].
    unfold calculateAndDraw.
    rewrite bool_decide_eq_true_2 by (rewrite clearTriangleMeshes_points; unfold ge; lia).
    fold s1. rewrite D2. subst s1. state_simpl. done.
  - intros Hn.
    assert (calculateAndDraw s = clearTriangleMeshes s) as Hclear.
    { unfold calculateAndDraw.
      by rewrite bool_decide_eq_false_2
        by (rewrite clearTriangleMeshes_points; unfold ge; lia). }
    rewrite Hclear, clearTriangleMeshes_triangles. by repeat split.
Qed.

Lemma wf_unitSquare_drawn : wf (calculateAndDraw unitSquare).
Proof.
  apply wf_calculateAndDraw, wf_stateOf. repeat constructor; by eexists.
Qed.

Lemma C6_clear_then_rebuild_or_keep_witness :
  wf (calculateAndDraw unitSquare) ∧
  (∀ old, old ∈ meshes (calculateAndDraw unitSquare) →
     (line old ∉ scene (calculateAndDraw (calculateAndDraw unitSquare))) ∧
     geometry old ∈ disposed (calculateAndDraw (calculateAndDraw unitSquare)) ∧
     material old ∈ disposed (calculateAndDraw (calculateAndDraw unitSquare))) ∧
  triangles (calculateAndDraw (calculateAndDraw unitSquare))
  = findDelaunayTriangles (calculateAndDraw unitSquare).
Proof.
  split; [exact wf_unitSquare_drawn|].
  destruct (C6_clear_then_rebuild_or_keep (calculateAndDraw unitSquare)
              wf_unitSquare_drawn) as (Hold & _ & Hge & _).
  split; [exact Hold|]. apply Hge. rewrite calculateAndDraw_points. simpl. lia.
Defined.

(** C6 as stated fails.  In [pointsDisposed] no point is left, and after
    [calculateAndDraw] the triangle list still holds the triangle computed
    before: with fewer than 3 points the list is not emptied. *)
Lemma C6_counterexample_list_not_emptied :
  (length (points pointsDisposed) < 3)%nat ∧
  triangles (calculateAndDraw pointsDisposed) = [mkTriangle 0 1 2] ∧
  triangles (calculateAndDraw pointsDisposed) ≠ [].
Proof.
  assert (Ht : triangles (calculateAndDraw pointsDisposed) = [mkTriangle 0 1 2]).
  { rewrite calculateAndDraw_triangles_kept by (simpl; lia).
    unfold pointsDisposed, PointManager.dispose. state_simpl.
    rewrite (fold_left_preserves _ triangles)
      by (intros a b; unfold PointManager.removePoint; by state_simpl).
    rewrite calculateAndDraw_triangles_rebuilt by (simpl; lia).
    reflexivity. }
  split; [simpl; lia|]. split; [exact Ht|]. by rewrite Ht.
Qed.

End CalculateAndDraw.

(** * Every method keeps the state well formed *)

Section WellFormedKept.

Import PointManager.

Lemma addVelocity_live dvx dvy m :
  is_Some (userData m) → is_Some (userData (OnMesh.addVelocity dvx dvy m)).
Proof. unfold OnMesh.addVelocity. intros [u Hu]. rewrite Hu. by eexists. Qed.

Lemma applyRepulsionForce_live ox oy strength radius m :
  is_Some (userData m) →
  is_Some (userData (OnMesh.applyRepulsionForce ox oy strength radius m)).
Proof.
  unfold OnMesh.applyRepulsionForce. intros Hm.
  destruct (_ && _); [by apply addVelocity_live|done].
Qed.

Lemma constrainToOriginalPosition_live maxDistance returnForce m :
  is_Some (userData m) →
  is_Some (userData (OnMesh.constrainToOriginalPosition maxDistance returnForce m)).
Proof.
  unfold OnMesh.constrainToOriginalPosition. intros Hm.
  destruct (userData m) eqn:Hu; [|done].
  destruct (bool_decide _); [|by rewrite Hu].
  apply addVelocity_live. by rewrite Hu.
Qed.

Lemma integrateMesh_live cfg w h m :
  is_Some (userData m) → is_Some (userData (integrateMesh cfg w h m)).
Proof.
  intros [u Hu]. destruct m as [x y ud]. cbn [userData] in Hu. subst ud.
  unfold integrateMesh, OnMesh.move, OnMesh.constrainToScreen, OnMesh.bounceX,
    OnMesh.bounceY, OnMesh.applyFriction.
  cbn [position_x position_y userData].
  repeat (destruct (bool_decide _);
          cbn [position_x position_y userData fmap option_fmap option_map]);
    by eexists.
Qed.

Lemma tickMesh_live cfg r1 r2 w h m :
  is_Some (userData m) → is_Some (userData (tickMesh cfg r1 r2 w h m)).
Proof.
  intros Hm. unfold tickMesh.
  by apply integrateMesh_live, constrainToOriginalPosition_live, addVelocity_live.
Qed.

Lemma wf_initial : wf initial.
Proof.
  split; unfold initial; state_simpl.
  - intros p Hp. by apply elem_of_nil in Hp.
  - constructor.
  - intros p [m Hm]. by rewrite lookup_empty in Hm.
  - intros meshObj Hin. by apply elem_of_nil in Hin.
Qed.

Lemma addPoint_meshes cfg iw ih x y s : meshes (addPoint cfg iw ih x y s).1 = meshes s.
Proof.
  unfold addPoint. case_bool_decide; state_simpl; [|done].
  by destruct (head (points s)).
Qed.

Lemma wf_addPoint cfg iw ih x y s : wf s → wf (addPoint cfg iw ih x y s).1.
Proof.
  intros Hwf.
  pose proof (wf_points_NoDup s Hwf) as Hnd.
  assert (Hfresh : ∀ p, p ∈ points s → (p < nextLoc s)%nat).
  { intros p Hp. destruct (wf_points_live s Hwf p Hp) as (m & _ & Hm & _).
    apply (wf_heap_fresh s Hwf). by eexists. }
  assert (Hkept : ∀ p,
            p ∈ (if bool_decide (length (points s) >= MAX_POINTS cfg)%nat
                 then tail (points s) else points s) →
            p ∈ points s ∧
            heap (addPoint cfg iw ih x y s).1 !! p = heap s !! p).
  { intros p Hp.
    assert (p ∈ points s) as Hin by (case_bool_decide; [by apply elem_of_tail|done]).
    split; [done|]. rewrite addPoint_heap.
    rewrite lookup_insert_ne by (specialize (Hfresh p Hin); lia).
    case_bool_decide; [|done].
    destruct (points s) as [|oldest ps]; [done|]. cbn [head tail] in *.
    apply NoDup_cons in Hnd as [Hold _].
    rewrite lookup_alter_ne; [done|]. by intros ->. }
  split.
  - intros p. rewrite addPoint_points, addPoint_result.
    intros [Hp | ->%list_elem_of_singleton]%elem_of_app.
    + destruct (Hkept p Hp) as [Hin ->]. by apply (wf_points_live s Hwf).
    + rewrite addPoint_heap, lookup_insert_eq. by eexists _, _.
  - rewrite addPoint_points, addPoint_result. apply NoDup_app. split; [|split].
    + case_bool_decide; [|done].
      eapply sublist_NoDup; [exact Hnd|]. destruct (points s); [done|]. by constructor.
    + intros p Hp ->%list_elem_of_singleton.
      destruct (Hkept _ Hp) as [Hin _]. specialize (Hfresh _ Hin). lia.
    + apply NoDup_singleton.
  - intros p. rewrite addPoint_heap, addPoint_nextLoc.
    destruct (decide (p = nextLoc s)) as [->|Hne]; [lia|].
    rewrite lookup_insert_ne by done. intros Hp.
    assert (is_Some (heap s !! p)) as Hold.
    { case_bool_decide; [|done]. destruct (head (points s)); [|done].
      rewrite lookup_alter in Hp. case_decide; [subst|done].
      by apply fmap_is_Some in Hp. }
    pose proof (wf_heap_fresh s Hwf p Hold). lia.
  - intros meshObj. rewrite addPoint_meshes, addPoint_nextLoc. intros Hin.
    pose proof (wf_lines_fresh s Hwf meshObj Hin). lia.
Qed.

Lemma wf_updateTrianglePositions s :
  wf s → wf (DelaunayTriangulation.updateTrianglePositions s).
Proof.
  intros Hwf. split; unfold DelaunayTriangulation.updateTrianglePositions; state_simpl;
    try apply Hwf.
  intros meshObj (old & -> & Hold)%list_elem_of_fmap. cbn [line].
  by apply (wf_lines_fresh s Hwf).
Qed.

Lemma wf_updatePoints cfg random w h s : wf s → wf (updatePoints cfg random w h s).
Proof.
  intros Hwf. pose proof (wf_points_NoDup s Hwf) as Hnd. split.
  - intros p. rewrite updatePoints_points. intros Hp.
    destruct (wf_points_live s Hwf p Hp) as (m & u & Hm & Hu).
    apply list_elem_of_lookup in Hp as [i Hi].
    rewrite (updatePoints_lookup cfg random w h s i p Hnd Hi), Hm.
    destruct (tickMesh_live cfg (random (randomCalls s + 2 * i)%nat)
                (random (S (randomCalls s + 2 * i))) w h m) as [u' Hu'];
      [by eexists|].
    by eexists _, u'.
  - by rewrite updatePoints_points.
  - intros p. rewrite updatePoints_nextLoc. intros Hp.
    apply (wf_heap_fresh s Hwf).
    destruct (decide (p ∈ points s)) as [Hin|Hout].
    + destruct (wf_points_live s Hwf p Hin) as (m & _ & Hm & _). by eexists.
    + by rewrite updatePoints_lookup_other in Hp.
  - intros meshObj Hin. rewrite updatePoints_nextLoc.
    pose proof (updatePoints_sameDrawable cfg random w h s) as Hsame.
    apply list_elem_of_lookup in Hin as [j Hj].
    destruct (Forall2_lookup_l _ _ _ _ _ Hsame Hj) as (old & Hold & Hline & _).
    rewrite Hline. apply (wf_lines_fresh s Hwf). by eapply list_elem_of_lookup_2.
Qed.

Lemma wf_applyRepulsion cfg newPoint s : wf s → wf (applyRepulsion cfg newPoint s).
Proof.
  intros Hwf. pose proof (wf_points_NoDup s Hwf) as Hnd.
  pose proof (applyRepulsion_heap cfg newPoint s) as Hheap.
  unfold applyRepulsion in *.
  set (s1 := fold_left _ _ _) in *.
  assert (Hpts : points s1 = points s).
  { transitivity (points (set_lastAddedPoint (Some newPoint) s)); [|done].
    unfold s1. apply (fold_left_preserves _ points). intros a b. cbv beta. by destruct (bool_decide (b = newPoint)). }
  assert (Hnext : nextLoc s1 = nextLoc s).
  { transitivity (nextLoc (set_lastAddedPoint (Some newPoint) s)); [|done].
    unfold s1. apply (fold_left_preserves _ nextLoc). intros a b. cbv beta. by destruct (bool_decide (b = newPoint)). }
  assert (Hmeshes : meshes s1 = meshes s).
  { transitivity (meshes (set_lastAddedPoint (Some newPoint) s)); [|done].
    unfold s1. apply (fold_left_preserves _ meshes). intros a b. cbv beta. by destruct (bool_decide (b = newPoint)). }
  assert (Hheap1 : ∀ p, heap s1 !! p =
            if decide (p ∈ points s)
            then (if decide (p = newPoint) then (fun m : Mesh => m)
                  else OnMesh.applyRepulsionForce
                         (position_x (heap s !!! newPoint))
                         (position_y (heap s !!! newPoint))
                         (Repulsion_STRENGTH cfg) (RADIUS cfg)) <$> heap s !! p
            else heap s !! p).
  { intros p. rewrite <- (Hheap p Hnd).
    destruct (triangulation s1 && bool_decide (length (points s1) >= 3)%nat);
      [by rewrite calculateAndDraw_heap|done]. }
  assert (wf s1) as Hwf1.
  { split.
    - intros p. rewrite Hpts. intros Hp.
      destruct (wf_points_live s Hwf p Hp) as (m & u & Hm & Hu).
      rewrite Hheap1, decide_True, Hm by done. cbn [fmap option_fmap option_map].
      case_decide; [by eexists _, _|].
      destruct (applyRepulsionForce_live
                  (position_x (heap s !!! newPoint)) (position_y (heap s !!! newPoint))
                  (Repulsion_STRENGTH cfg) (RADIUS cfg) m) as [u' Hu']; [by eexists|].
      by eexists _, u'.
    - by rewrite Hpts.
    - intros p. rewrite Hnext, Hheap1. intros Hp. apply (wf_heap_fresh s Hwf).
      case_decide; [|done]. by apply fmap_is_Some in Hp.
    - intros meshObj. rewrite Hmeshes, Hnext. apply (wf_lines_fresh s Hwf). }
  destruct (triangulation s1 && bool_decide (length (points s1) >= 3)%nat);
    [by apply wf_calculateAndDraw|done].
Qed.

(** Every state the application reaches is well formed. *)
Lemma wf_run cfg random events s :
  wf s → wf (DelaunayApp.run cfg random events s).
Proof.
  unfold DelaunayApp.run. revert s.
  induction events as [|e events IH]; intros s Hwf; [done|].
  cbn [fold_left]. apply IH. destruct e; cbn [DelaunayApp.handle].
  - by apply wf_applyRepulsion, wf_addPoint.
  - by apply wf_updatePoints.
  - by apply wf_calculateAndDraw.
Qed.

Lemma addPoint_triangles cfg iw ih x y s :
  triangles (addPoint cfg iw ih x y s).1 = triangles s.
Proof.
  unfold addPoint. case_bool_decide; state_simpl; [|done].
  by destruct (head (points s)).
Qed.

Lemma applyRepulsion_points cfg newPoint s :
  points (applyRepulsion cfg newPoint s) = points s.
Proof.
  unfold applyRepulsion. set (s1 := fold_left _ _ _).
  assert (Hpts : points s1 = points s).
  { transitivity (points (set_lastAddedPoint (Some newPoint) s)); [|done].
    unfold s1. apply (fold_left_preserves _ points). intros a b. cbv beta.
    by destruct (bool_decide (b = newPoint)). }
  destruct (triangulation s1 && _); [by rewrite calculateAndDraw_points|done].
Qed.

(** With fewer than three points [applyRepulsion] does not touch the triangle
    list. *)
Lemma applyRepulsion_triangles_few cfg newPoint s :
  (length (points s) < 3)%nat →
  triangles (applyRepulsion cfg newPoint s) = triangles s.
Proof.
  intros Hlen. unfold applyRepulsion. set (s1 := fold_left _ _ _).
  assert (Hpts : points s1 = points s).
  { transitivity (points (set_lastAddedPoint (Some newPoint) s)); [|done].
    unfold s1. apply (fold_left_preserves _ points). intros a b. cbv beta.
    by destruct (bool_decide (b = newPoint)). }
  assert (Htri : triangles s1 = triangles s).
  { transitivity (triangles (set_lastAddedPoint (Some newPoint) s)); [|done].
    unfold s1. apply (fold_left_preserves _ triangles). intros a b. cbv beta.
    by destruct (bool_decide (b = newPoint)). }
  rewrite Hpts, (bool_decide_eq_false_2 (length (points s) >= 3)%nat)
    by (unfold ge; lia).
  by rewrite andb_false_r.
Qed.

(** In every state the application reaches, fewer than three points means no
    triangle in the list. *)
Lemma run_few_points_no_triangle cfg random events :
  (length (points (DelaunayApp.run cfg random events initial)) < 3)%nat →
  triangles (DelaunayApp.run cfg random events initial) = [].
Proof.
  induction events as [|e events IH] using rev_ind; [done|].
  unfold DelaunayApp.run in *. rewrite fold_left_app. cbn [fold_left].
  set (s := fold_left (DelaunayApp.handle cfg random) events initial) in *.
  destruct e as [iw ih x y|w h|]; cbn [DelaunayApp.handle].
  - unfold InputHandler.handleMouseDown. cbv zeta.
    rewrite applyRepulsion_points. intros Hlen.
    rewrite applyRepulsion_triangles_few, addPoint_triangles by done.
    apply IH. rewrite addPoint_points, length_app in Hlen. cbn [length] in Hlen.
    case_bool_decide; [|lia]. destruct (points s); simpl in *; lia.
  - rewrite updatePoints_points, updatePoints_triangles. exact IH.
  - rewrite calculateAndDraw_points. intros Hlen.
    rewrite calculateAndDraw_triangles_kept by done. by apply IH.
Qed.

End WellFormedKept.

(** * Presses *)

Section Presses.

Import PointManager.

Lemma applyRepulsionForce_position ox oy strength radius m :
  position_x (OnMesh.applyRepulsionForce ox oy strength radius m) = position_x m ∧
  position_y (OnMesh.applyRepulsionForce ox oy strength radius m) = position_y m.
Proof.
  unfold OnMesh.applyRepulsionForce, OnMesh.addVelocity.
  destruct (_ && _); [|done]. by destruct (userData m).
Qed.

(** [applyRepulsion] moves no point. *)
Lemma applyRepulsion_position cfg newPoint s p :
  wf s →
  position_x (heap (applyRepulsion cfg newPoint s) !!! p) = position_x (heap s !!! p) ∧
  position_y (heap (applyRepulsion cfg newPoint s) !!! p) = position_y (heap s !!! p).
Proof.
  intros Hwf. rewrite !lookup_total_alt.
  rewrite applyRepulsion_heap by apply (wf_points_NoDup s Hwf).
  case_decide; [|done]. destruct (heap s !! p) as [m|]; [|done].
  cbn [fmap option_fmap option_map default]. case_decide; [done|].
  apply applyRepulsionForce_position.
Qed.

(** After a press below capacity the new point is where the press was and
    the other points are where they were. *)
Lemma handleMouseDown_position cfg iw ih x y s p :
  wf s → (length (points s) < MAX_POINTS cfg)%nat →
  position_x (heap (InputHandler.handleMouseDown cfg iw ih x y s) !!! p) =
    (if decide (p = nextLoc s) then x - iw / 2 else position_x (heap s !!! p)) ∧
  position_y (heap (InputHandler.handleMouseDown cfg iw ih x y s) !!! p) =
    (if decide (p = nextLoc s) then ih / 2 - y else position_y (heap s !!! p)).
Proof.
  intros Hwf Hlen. unfold InputHandler.handleMouseDown. cbv zeta.
  destruct (applyRepulsion_position cfg (addPoint cfg iw ih x y s).2
              (addPoint cfg iw ih x y s).1 p (wf_addPoint cfg iw ih x y s Hwf)) as [-> ->].
  rewrite addPoint_heap, bool_decide_eq_false_2 by (unfold ge; lia).
  case_decide as Hp; [subst p; by rewrite lookup_total_insert_eq|].
  by rewrite lookup_total_insert_ne.
Qed.

End Presses.

Section CollinearPresses.

Import DelaunayTriangulation.

(** The positions of the three points of [threePressesInARow]. *)
Lemma threePressesInARow_positions :
  let s := DelaunayApp.run constants noNoise threePressesInARow initial in
  (position_x (heap s !!! 2%nat) = 400 - 800 / 2 ∧
   position_y (heap s !!! 2%nat) = 600 / 2 - 300) ∧
  (position_x (heap s !!! 3%nat) = 401 - 800 / 2 ∧
   position_y (heap s !!! 3%nat) = 600 / 2 - 300) ∧
  (position_x (heap s !!! 4%nat) = 402 - 800 / 2 ∧
   position_y (heap s !!! 4%nat) = 600 / 2 - 300).
Proof.
  set (s1 := InputHandler.handleMouseDown constants 800 600 400 300 initial).
  set (s2 := InputHandler.handleMouseDown constants 800 600 401 300 s1).
  assert (Hwf1 : wf s1) by apply wf_applyRepulsion, wf_addPoint, wf_initial.
  assert (Hwf2 : wf s2) by (by apply wf_applyRepulsion, wf_addPoint).
  assert (Hlen0 : (length (points initial) < MAX_POINTS constants)%nat) by (simpl; lia).
  assert (Hlen1 : (length (points s1) < MAX_POINTS constants)%nat).
  { change (points s1) with [2%nat]. simpl; lia. }
  assert (Hlen2 : (length (points s2) < MAX_POINTS constants)%nat).
  { change (points s2) with [2%nat; 3%nat]. simpl; lia. }
  change (DelaunayApp.run constants noNoise threePressesInARow initial)
    with (InputHandler.handleMouseDown constants 800 600 402 300 s2).
  cbv zeta.
  pose proof (fun p => handleMouseDown_position constants 800 600 402 300 s2 p Hwf2 Hlen2)
    as H3.
  pose proof (fun p => handleMouseDown_position constants 800 600 401 300 s1 p Hwf1 Hlen1)
    as H2.
  pose proof (fun p => handleMouseDown_position constants 800 600 400 300 initial p
                         wf_initial Hlen0) as H1.
  change (nextLoc s2) with 4%nat in H3. change (nextLoc s1) with 3%nat in H2.
  change (nextLoc initial) with 2%nat in H1.
  fold s1 in H1. fold s2 in H2.
  split; [|split].
  - destruct (H3 2%nat) as [-> ->], (H2 2%nat) as [E2x E2y], (H1 2%nat) as [E1x E1y].
    rewrite decide_False by lia. rewrite decide_False by lia.
    rewrite decide_False in E2x, E2y by lia. rewrite decide_True in E1x, E1y by done.
    by rewrite E2x, E2y, E1x, E1y.
  - destruct (H3 3%nat) as [-> ->], (H2 3%nat) as [E2x E2y].
    rewrite decide_False by lia. rewrite decide_False by lia.
    rewrite decide_True in E2x, E2y by done. by rewrite E2x, E2y.
  - destruct (H3 4%nat) as [-> ->]. by rewrite !decide_True by done.
Qed.

(** C2, evaluated on the code.  Three presses on the same pixel row give
    three points on a line, and the triangle list the last press installs is
    the triangle on them; in the four points of [threeOnALineAndOne] the
    triangle on the three points of the line is returned too, the fourth
    point notwithstanding. *)
Theorem C2_collinear_triangle_is_returned :
  let s := DelaunayApp.run constants noNoise threePressesInARow initial in
  points s = [2; 3; 4]%nat ∧
  collinearAt (heap s) 2%nat 3%nat 4%nat ∧
  findDelaunayTriangles s = [mkTriangle 2 3 4] ∧
  triangles s = [mkTriangle 2 3 4] ∧
  collinearAt (heap threeOnALineAndOne) 0%nat 1%nat 2%nat ∧
  mkTriangle 0 1 2 ∈ findDelaunayTriangles threeOnALineAndOne ∧
  mkTriangle 0 1 2 ∈ triangles (calculateAndDraw threeOnALineAndOne).
Proof.
  assert (Hin : mkTriangle 0 1 2 ∈ findDelaunayTriangles threeOnALineAndOne).
  { change (triangleAt (points threeOnALineAndOne) 0 1 2
            ∈ findDelaunayTriangles threeOnALineAndOne).
    apply degenerate_triangle_retained; [lia | lia | simpl; lia |].
    unfold triangleDet, triangleAt; cbn [p1 p2 p3].
    unfold threeOnALineAndOne; read_points; unfold det_a.
    unfold Rabs; destruct (Rcase_abs _); lra. }
  intros s. split; [reflexivity|]. split; [|split; [reflexivity|split; [reflexivity|]]].
  - destruct threePressesInARow_positions as ((Hx2 & Hy2) & (Hx3 & Hy3) & (Hx4 & Hy4)).
    unfold collinearAt, collinear. fold s in Hx2, Hy2, Hx3, Hy3, Hx4, Hy4.
    rewrite Hx2, Hy2, Hx3, Hy3, Hx4, Hy4. lra.
  - split; [|split].
    + unfold collinearAt, threeOnALineAndOne; read_points; unfold collinear; lra.
    + exact Hin.
    + rewrite calculateAndDraw_triangles_rebuilt; [exact Hin | simpl; lia].
Qed.

End CollinearPresses.

(** * The colour seed *)

Section ColorSeed.

Import DelaunayTriangulation.

#[local] Open Scope Z_scope.

Lemma lxor_mod_pow2 a b n :
  0 <= n → Z.lxor a b mod 2 ^ n = Z.lxor (a mod 2 ^ n) (b mod 2 ^ n).
Proof.
  intros Hn. apply Z.bits_inj'. intros i Hi.
  rewrite Z.lxor_spec, !Z.testbit_mod_pow2 by lia.
  rewrite Z.lxor_spec. by destruct (i <? n).
Qed.

Lemma ToInt32_mod z : ToInt32 z mod 2 ^ 32 = z mod 2 ^ 32.
Proof.
  unfold ToInt32.
  rewrite <- (Z.mod_add ((z + 2 ^ 31) mod 2 ^ 32 - 2 ^ 31) 1 (2 ^ 32)) by lia.
  replace ((z + 2 ^ 31) mod 2 ^ 32 - 2 ^ 31 + 1 * 2 ^ 32)
    with ((z + 2 ^ 31) mod 2 ^ 32 + 2 ^ 31) by lia.
  rewrite Zplus_mod_idemp_l.
  replace (z + 2 ^ 31 + 2 ^ 31) with (z + 1 * 2 ^ 32) by lia.
  by rewrite Z.mod_add by lia.
Qed.

(** Modulo 2^32 the operator [^] is the exclusive or of the integers. *)
Lemma bitxor_mod a b : bitxor a b mod 2 ^ 32 = Z.lxor a b mod 2 ^ 32.
Proof.
  unfold bitxor. rewrite lxor_mod_pow2, !ToInt32_mod by lia.
  by rewrite <- lxor_mod_pow2 by lia.
Qed.

Lemma bitxor_mod_l a b c :
  a mod 2 ^ 32 = b mod 2 ^ 32 → bitxor a c mod 2 ^ 32 = Z.lxor b c mod 2 ^ 32.
Proof.
  intros H. rewrite bitxor_mod, !(lxor_mod_pow2 _ c) by lia. by rewrite H.
Qed.

Lemma getColorSeed_range h t : 0 <= Triangle.getColorSeed h t < 2 ^ 32.
Proof. unfold Triangle.getColorSeed, ushr0, ToUint32. apply Z.mod_pos_bound. lia. Qed.

End ColorSeed.

(** * The return to the origin *)

Section ReturnForce.

Import PointManager.

Ltac mesh_simpl :=
  cbn [position_x position_y userData vx vy origX origY fmap option_fmap option_map] in *.


















End ReturnForce.

(** * Colours of the drawables *)

Section Colours.

#[local] Open Scope Z_scope.

Lemma roundToDouble_small z : Z.abs z < 2 ^ 53 → roundToDouble z = z.
Proof.
  intros Hz. unfold roundToDouble. cbv zeta.
  assert (Z.log2 (Z.abs z) - 52 <= 0) as He.
  { destruct (decide (Z.abs z = 0)) as [->|Hnz]; [done|].
    assert (Z.log2 (Z.abs z) < 53); [|lia].
    apply Z.log2_lt_pow2; lia. }
  apply Z.leb_le in He. by rewrite He.
Qed.

(** Beyond 2^53 the doubles are even integers. *)
Lemma roundToDouble_large z :
  2 ^ 53 <= z → ∃ k, roundToDouble z = 2 * k ∧ 2 ^ 52 <= k.
Proof.
  intros Hz. unfold roundToDouble. cbv zeta.
  rewrite (Z.abs_eq z), (Z.sgn_pos z) by lia.
  assert (53 <= Z.log2 z) as Hlog by (apply Z.log2_le_pow2; lia).
  set (e := Z.log2 z - 52).
  assert (1 <= e) as He by (unfold e; lia).
  destruct (e <=? 0) eqn:Hle; [apply Z.leb_le in Hle; lia|].
  assert (2 ^ 52 <= z / 2 ^ e) as Hq.
  { apply Z.div_le_lower_bound; [apply Z.pow_pos_nonneg; lia|].
    rewrite <- Z.pow_add_r by lia. replace (e + 52) with (Z.log2 z) by (unfold e; lia).
    apply Z.log2_spec. lia. }
  set (q' := if z mod 2 ^ e <? 2 ^ (e - 1) then z / 2 ^ e
             else if 2 ^ (e - 1) <? z mod 2 ^ e then z / 2 ^ e + 1
                  else if Z.even (z / 2 ^ e) then z / 2 ^ e else z / 2 ^ e + 1).
  assert (z / 2 ^ e <= q') as Hq'.
  { unfold q'. repeat destruct (_ <? _); try destruct (Z.even _); lia. }
  exists (q' * 2 ^ (e - 1)). split.
  - replace e with (1 + (e - 1)) at 1 by lia.
    rewrite Z.pow_add_r by lia. change (2 ^ 1) with 2. lia.
  - assert (0 < 2 ^ (e - 1)) by (apply Z.pow_pos_nonneg; lia).
    nia.
Qed.

Lemma roundToDouble_nonneg z : 0 <= z → 0 <= roundToDouble z.
Proof.
  intros Hz. destruct (decide (z < 2 ^ 53)) as [Hs|Hl].
  - rewrite roundToDouble_small; lia.
  - destruct (roundToDouble_large z) as (k & -> & Hk); lia.
Qed.

Lemma ToInt32_small z : - 2 ^ 31 <= z < 2 ^ 31 → ToInt32 z = z.
Proof. intros Hz. unfold ToInt32. rewrite Z.mod_small; lia. Qed.

(** Or-ing a value below [2 ^ n] into a multiple of [2 ^ n] adds it. *)
Lemma lor_high_low hi lo n :
  0 <= n → 0 <= lo < 2 ^ n → Z.lor (hi * 2 ^ n) lo = hi * 2 ^ n + lo.
Proof.
  intros Hn Hlo.
  assert (Z.land (hi * 2 ^ n) lo = 0) as Hland.
  { apply Z.bits_inj'. intros i Hi. rewrite Z.land_spec, Z.bits_0.
    destruct (decide (i < n)) as [Hlt|Hge].
    - by rewrite Z.mul_pow2_bits_low.
    - destruct (decide (lo = 0)) as [->|Hnz]; [by rewrite Z.bits_0, andb_false_r|].
      rewrite (Z.bits_above_log2 lo i), andb_false_r; [done|lia|].
      assert (Z.log2 lo < n) by (apply Z.log2_lt_pow2; lia). lia. }
  rewrite Z.add_nocarry_lxor by done. by rewrite Z.lxor_lor.
Qed.

(** A channel: the remainder by 128 of a number that is not negative, plus
    128. *)
Lemma channel_range v :
  0 <= v → 128 <= jsadd (jsrem v 128) 128 < 256 ∧
           jsadd (jsrem v 128) 128 = v mod 128 + 128.
Proof.
  intros Hv. unfold jsadd, jsrem. rewrite Z.rem_mod_nonneg by lia.
  pose proof (Z.mod_pos_bound v 128 ltac:(lia)).
  rewrite roundToDouble_small by lia. lia.
Qed.

(** Three channels packed by shifts and ors. *)
Lemma pack_channels r g b :
  128 <= r < 256 → 128 <= g < 256 → 128 <= b < 256 →
  bitor (bitor (shl r 16) (shl g 8)) b = r * 65536 + g * 256 + b.
Proof.
  intros Hr Hg Hb. unfold bitor, shl.
  change (16 mod 32) with 16. change (8 mod 32) with 8.
  rewrite (ToInt32_small r), (ToInt32_small g), (ToInt32_small b) by lia.
  rewrite !Z.shiftl_mul_pow2 by lia.
  rewrite !(ToInt32_small (r * 2 ^ 16)), !(ToInt32_small (g * 2 ^ 8)) by lia.
  assert (Z.lor (r * 2 ^ 16) (g * 2 ^ 8) = r * 2 ^ 16 + g * 2 ^ 8) as Hrg.
  { apply lor_high_low; lia. }
  rewrite Hrg.
  rewrite (ToInt32_small (r * 2 ^ 16 + g * 2 ^ 8)) by lia.
  replace (r * 2 ^ 16 + g * 2 ^ 8) with ((r * 2 ^ 8 + g) * 2 ^ 8) by lia.
  rewrite lor_high_low by lia. lia.
Qed.

Lemma channels_of_packed r g b :
  0 <= r < 256 → 0 <= g < 256 → 0 <= b < 256 →
  red (r * 65536 + g * 256 + b) = r ∧ green (r * 65536 + g * 256 + b) = g ∧
  blue (r * 65536 + g * 256 + b) = b.
Proof.
  intros Hr Hg Hb. unfold red, green, blue. repeat split.
  - replace (r * 65536 + g * 256 + b) with (r * 65536 + (g * 256 + b)) by lia.
    rewrite Z.div_add_l, (Z.div_small (g * 256 + b)) by lia.
    rewrite Z.mod_small; lia.
  - replace (r * 65536 + g * 256 + b) with ((r * 256 + g) * 256 + b) by lia.
    rewrite Z.div_add_l, (Z.div_small b) by lia.
    rewrite Z.add_0_r, Z.add_comm, Z.mod_add by lia. rewrite Z.mod_small; lia.
  - replace (r * 65536 + g * 256 + b) with (b + (r * 256 + g) * 256) by lia.
    rewrite Z.mod_add by lia. rewrite Z.mod_small; lia.
Qed.

(** The colour in terms of its three channels. *)
Lemma generatePastelColor_packed seed :
  0 <= seed →
  let r := jsadd (jsrem (jsadd (jsmul seed 1664525) 1013904223) 128) 128 in
  let g := jsadd (jsrem (jsadd (jsmul seed 22695477) 1) 128) 128 in
  let b := jsadd (jsrem (jsadd (jsmul seed 214013) 2531011) 128) 128 in
  128 <= r < 256 ∧ 128 <= g < 256 ∧ 128 <= b < 256 ∧
  ColorUtils.generatePastelColor seed = r * 65536 + g * 256 + b ∧
  red (ColorUtils.generatePastelColor seed) = r ∧
  green (ColorUtils.generatePastelColor seed) = g ∧
  blue (ColorUtils.generatePastelColor seed) = b.
Proof.
  intros Hseed r g b.
  assert (∀ m c, 0 <= m → 0 <= c → 0 <= jsadd (jsmul seed m) c) as Hpos.
  { intros m c Hm Hc. unfold jsadd, jsmul.
    apply roundToDouble_nonneg.
    pose proof (roundToDouble_nonneg (seed * m) ltac:(nia)). lia. }
  destruct (channel_range (jsadd (jsmul seed 1664525) 1013904223)) as [Hr _];
    [apply Hpos; lia|].
  destruct (channel_range (jsadd (jsmul seed 22695477) 1)) as [Hg _];
    [apply Hpos; lia|].
  destruct (channel_range (jsadd (jsmul seed 214013) 2531011)) as [Hb _];
    [apply Hpos; lia|].
  fold r in Hr. fold g in Hg. fold b in Hb.
  split; [done|]. split; [done|]. split; [done|].
  assert (ColorUtils.generatePastelColor seed = r * 65536 + g * 256 + b) as ->.
  { unfold ColorUtils.generatePastelColor. cbv zeta. fold r g b.
    by apply pack_channels. }
  split; [done|]. apply channels_of_packed; lia.
Qed.

(** X1.  For every 32-bit unsigned seed the three channels of
    [generatePastelColor] lie between 128 and 255, and the colour is
    [0xRRGGBB] made of them: a value from [0x808080] to [0xFFFFFF]. *)
Theorem generatePastelColor_channels seed :
  0 <= seed < 2 ^ 32 →
  let color := ColorUtils.generatePastelColor seed in
  128 <= red color <= 255 ∧ 128 <= green color <= 255 ∧ 128 <= blue color <= 255 ∧
  color = red color * 65536 + green color * 256 + blue color ∧
  8421504 <= color <= 16777215.
Proof.
  intros [Hseed _] color.
  destruct (generatePastelColor_packed seed Hseed) as (Hr & Hg & Hb & Hc & Er & Eg & Eb).
  fold color in Hc, Er, Eg, Eb. cbv zeta in Hr, Hg, Hb, Hc, Er, Eg, Eb.
  rewrite Er, Eg, Eb. lia.
Qed.

Lemma generatePastelColor_channels_witness :
  let color := ColorUtils.generatePastelColor 4294967295 in
  128 <= red color <= 255 ∧ 128 <= green color <= 255 ∧ 128 <= blue color <= 255 ∧
  color = red color * 65536 + green color * 256 + blue color ∧
  8421504 <= color <= 16777215.
Proof. apply (generatePastelColor_channels 4294967295). lia. Defined.

(** X2.  The red and the blue channel depend on the seed through its
    remainder by 128 only, and so does the whole colour for seeds below
    2^28, whose products are exact: such seeds give at most 128 colours. *)
Theorem generatePastelColor_low_bits seed1 seed2 :
  0 <= seed1 < 2 ^ 32 → 0 <= seed2 < 2 ^ 32 →
  seed1 mod 128 = seed2 mod 128 →
  red (ColorUtils.generatePastelColor seed1) = red (ColorUtils.generatePastelColor seed2) ∧
  blue (ColorUtils.generatePastelColor seed1) = blue (ColorUtils.generatePastelColor seed2) ∧
  (seed1 < 2 ^ 28 → seed2 < 2 ^ 28 →
   ColorUtils.generatePastelColor seed1 = ColorUtils.generatePastelColor seed2).
Proof.
  intros H1 H2 Hmod.
  assert (∀ seed m c, 0 <= seed → 0 <= m → 0 <= c → seed * m + c < 2 ^ 53 →
            jsadd (jsrem (jsadd (jsmul seed m) c) 128) 128 = (seed mod 128 * m + c) mod 128 + 128)
    as Hexact.
  { intros seed m c Hs Hm Hc Hlt. unfold jsmul. rewrite (roundToDouble_small (seed * m)) by nia.
    unfold jsadd at 2. rewrite (roundToDouble_small (seed * m + c)) by nia.
    destruct (channel_range (seed * m + c)) as [_ ->]; [nia|].
    f_equal. rewrite (Z.div_mod seed 128) at 1 by lia.
    replace ((128 * (seed / 128) + seed mod 128) * m + c)
      with (seed mod 128 * m + c + seed / 128 * m * 128) by lia.
    by rewrite Z.mod_add by lia. }
  destruct (generatePastelColor_packed seed1 ltac:(lia))
    as (_ & _ & _ & Hc1 & Er1 & _ & Eb1).
  destruct (generatePastelColor_packed seed2 ltac:(lia))
    as (_ & _ & _ & Hc2 & Er2 & _ & Eb2).
  cbv zeta in *.
  assert (jsadd (jsrem (jsadd (jsmul seed1 1664525) 1013904223) 128) 128
          = jsadd (jsrem (jsadd (jsmul seed2 1664525) 1013904223) 128) 128) as Hr.
  { rewrite !Hexact by lia. by rewrite Hmod. }
  assert (jsadd (jsrem (jsadd (jsmul seed1 214013) 2531011) 128) 128
          = jsadd (jsrem (jsadd (jsmul seed2 214013) 2531011) 128) 128) as Hb.
  { rewrite !Hexact by lia. by rewrite Hmod. }
  split; [by rewrite Er1, Er2|]. split; [by rewrite Eb1, Eb2|].
  intros Hs1 Hs2. rewrite Hc1, Hc2, Hr, Hb. do 2 f_equal.
  rewrite !Hexact by lia. by rewrite Hmod.
Qed.

Lemma generatePastelColor_low_bits_witness :
  red (ColorUtils.generatePastelColor 5) = red (ColorUtils.generatePastelColor 4294967173) ∧
  blue (ColorUtils.generatePastelColor 5) = blue (ColorUtils.generatePastelColor 4294967173) ∧
  ColorUtils.generatePastelColor 5 = ColorUtils.generatePastelColor 133.
Proof.
  destruct (generatePastelColor_low_bits 5 4294967173) as (Hr & Hb & _); [lia|lia|done|].
  destruct (generatePastelColor_low_bits 5 133) as (_ & _ & Hc); [lia|lia|done|].
  split; [exact Hr|]. split; [exact Hb|]. apply Hc; lia.
Defined.

(** X3.  Once the product [seed * 22695477] reaches 2^53 it is no longer
    exact: the number the green channel is taken from is an even integer,
    and the green channel is even. *)
Theorem generatePastelColor_green_even seed :
  0 <= seed < 2 ^ 32 → 2 ^ 53 <= seed * 22695477 →
  Z.even (green (ColorUtils.generatePastelColor seed)) = true.
Proof.
  intros Hseed Hbig.
  destruct (generatePastelColor_packed seed ltac:(lia)) as (_ & _ & _ & _ & _ & Eg & _).
  cbv zeta in Eg. rewrite Eg.
  destruct (roundToDouble_large (seed * 22695477) Hbig) as (k & Hk & Hk52).
  destruct (roundToDouble_large (2 * k + 1) ltac:(lia)) as (k' & Hk' & Hk52').
  unfold jsmul. rewrite Hk. unfold jsadd at 2. rewrite Hk'.
  destruct (channel_range (2 * k')) as [_ ->]; [lia|].
  rewrite Z.even_add. change (Z.even 128) with true.
  replace (2 * k') with (0 + k' * 2) by lia.
  assert ((0 + k' * 2) mod 128 = 2 * (k' mod 64)) as ->.
  { rewrite Z.add_0_l. change 128 with (64 * 2).
    rewrite Z.mul_mod_distr_r by lia. lia. }
  by rewrite Z.even_mul.
Qed.

Lemma generatePastelColor_green_even_witness :
  Z.even (green (ColorUtils.generatePastelColor 536870913)) = true.
Proof. apply generatePastelColor_green_even; lia. Defined.

End Colours.

(** * More on the circumcircle test and the triangle search *)

Section TriangleSearch.

Import DelaunayTriangulation.

(** X6.  With exactly three points the search returns the one triangle on
    them, in the order of the point array, wherever the points are (on a
    line and at the same place included), and [calculateAndDraw] installs
    it. *)
Theorem findDelaunayTriangles_three_points s a b c :
  points s = [a; b; c] →
  findDelaunayTriangles s = [mkTriangle a b c] ∧
  triangles (calculateAndDraw s) = [mkTriangle a b c] ∧
  map triangle (meshes (calculateAndDraw s)) = [mkTriangle a b c].
Proof.
  intros Hpts.
  assert (Hfind : findDelaunayTriangles s = [mkTriangle a b c]).
  { unfold findDelaunayTriangles, delaunayTrianglesOf. rewrite Hpts. reflexivity. }
  split; [exact Hfind|].
  assert (Hlen : (3 ≤ length (points s))%nat) by (rewrite Hpts; simpl; lia).
  split; [by rewrite calculateAndDraw_triangles_rebuilt|].
  unfold calculateAndDraw. rewrite clearTriangleMeshes_points.
  rewrite bool_decide_eq_true_2 by (unfold ge; lia).
  destruct (drawTriangles_spec
              (triangles (set_triangles (findDelaunayTriangles (clearTriangleMeshes s))
                                        (clearTriangleMeshes s)))
              (set_triangles (findDelaunayTriangles (clearTriangleMeshes s))
                             (clearTriangleMeshes s))) as (_ & -> & _).
  state_simpl. unfold findDelaunayTriangles at 1.
  rewrite clearTriangleMeshes_heap, clearTriangleMeshes_points.
  exact Hfind.
Qed.

Lemma findDelaunayTriangles_three_points_witness :
  findDelaunayTriangles threeOnALine = [mkTriangle 0 1 2] ∧
  triangles (calculateAndDraw threeOnALine) = [mkTriangle 0 1 2] ∧
  map triangle (meshes (calculateAndDraw threeOnALine)) = [mkTriangle 0 1 2].
Proof. apply findDelaunayTriangles_three_points. reflexivity. Defined.

Lemma lookup_total_inj (pts : list loc) i j :
  NoDup pts → (i < length pts)%nat → (j < length pts)%nat →
  pts !!! i = pts !!! j → i = j.
Proof.
  intros Hnd Hi Hj E.
  apply (NoDup_lookup pts i j (pts !!! i)); [done| |].
  - by apply list_lookup_lookup_total_lt.
  - rewrite E. by apply list_lookup_lookup_total_lt.
Qed.

(** X7.  When the points of the array are distinct objects, the triangles
    the search returns are pairwise different, and each has three different
    vertices taken from the point array. *)
Theorem findDelaunayTriangles_distinct s :
  NoDup (points s) →
  NoDup (findDelaunayTriangles s) ∧
  ∀ t, t ∈ findDelaunayTriangles s →
       p1 t ≠ p2 t ∧ p2 t ≠ p3 t ∧ p1 t ≠ p3 t ∧
       p1 t ∈ points s ∧ p2 t ∈ points s ∧ p3 t ∈ points s.
Proof.
  intros Hnd. unfold findDelaunayTriangles. set (pts := points s) in *.
  set (h := heap s). split.
  - unfold delaunayTrianglesOf. cbv zeta. case_bool_decide as Hn; [constructor|].
    apply NoDup_bind; [| |apply NoDup_seq].
    + intros i1 i2 t Hi1%elem_of_seq Hi2%elem_of_seq
        (j1 & (k1 & Ht1 & _)%list_elem_of_bind & _)%list_elem_of_bind
        (j2 & (k2 & Ht2 & _)%list_elem_of_bind & _)%list_elem_of_bind.
      destruct (isDelaunay h pts _ i1 j1 k1); [|by apply elem_of_nil in Ht1].
      destruct (isDelaunay h pts _ i2 j2 k2); [|by apply elem_of_nil in Ht2].
      apply list_elem_of_singleton in Ht1, Ht2. subst t.
      injection Ht2 as E _ _. apply (lookup_total_inj pts); [done|lia|lia|done].
    + intros i Hi%elem_of_seq.
      apply NoDup_bind; [| |apply NoDup_seq].
      * intros j1 j2 t Hj1%elem_of_seq Hj2%elem_of_seq
          (k1 & Ht1 & _)%list_elem_of_bind (k2 & Ht2 & _)%list_elem_of_bind.
        destruct (isDelaunay h pts _ i j1 k1); [|by apply elem_of_nil in Ht1].
        destruct (isDelaunay h pts _ i j2 k2); [|by apply elem_of_nil in Ht2].
        apply list_elem_of_singleton in Ht1, Ht2. subst t.
        injection Ht2 as E _. apply (lookup_total_inj pts); [done|lia|lia|done].
      * intros j Hj%elem_of_seq.
        apply NoDup_bind; [| |apply NoDup_seq].
        -- intros k1 k2 t Hk1%elem_of_seq Hk2%elem_of_seq Ht1 Ht2.
           destruct (isDelaunay h pts _ i j k1); [|by apply elem_of_nil in Ht1].
           destruct (isDelaunay h pts _ i j k2); [|by apply elem_of_nil in Ht2].
           apply list_elem_of_singleton in Ht1, Ht2. subst t.
           injection Ht2 as E. apply (lookup_total_inj pts); [done|lia|lia|done].
        -- intros k _. destruct (isDelaunay h pts _ i j k); [|constructor].
           apply NoDup_singleton.
  - intros t (i & j & k & Hij & Hjk & Hk & -> & _)%elem_of_delaunayTrianglesOf.
    cbn [p1 p2 p3].
    split; [intros E%lookup_total_inj; [lia|done|lia|lia]|].
    split; [intros E%lookup_total_inj; [lia|done|lia|lia]|].
    split; [intros E%lookup_total_inj; [lia|done|lia|lia]|].
    split; [|split]; apply list_elem_of_lookup_total_2; lia.
Qed.

Lemma findDelaunayTriangles_distinct_witness :
  NoDup (findDelaunayTriangles unitSquare) ∧
  ∀ t, t ∈ findDelaunayTriangles unitSquare →
       p1 t ≠ p2 t ∧ p2 t ≠ p3 t ∧ p1 t ≠ p3 t ∧
       p1 t ∈ points unitSquare ∧ p2 t ∈ points unitSquare ∧ p3 t ∈ points unitSquare.
Proof. apply findDelaunayTriangles_distinct. apply NoDup_seq. Defined.

Lemma length_bind_le {A} (f : nat → list A) (b : nat → nat) l :
  (∀ x, x ∈ l → (length (f x) ≤ b x)%nat) →
  (length (l ≫= f) ≤ sum_list_with b l)%nat.
Proof.
  induction l as [|x l IH]; intros Hb; [done|].
  change ((x :: l) ≫= f) with (f x ++ (l ≫= f)).
  rewrite length_app. cbn [sum_list_with].
  pose proof (Hb x ltac:(left)) as Hx.
  assert (length (l ≫= f) ≤ sum_list_with b l)%nat
    by (apply IH; intros y Hy; apply Hb; by right).
  lia.
Qed.

(** The sums of the loop bounds: [len + ... + 1] and
    [len (len + 1) + ... + 1 * 2]. *)
Lemma sum_inner n len start :
  (start + len + 1 = n)%nat →
  (2 * sum_list_with (fun j => n - (j + 1)) (seq start len) = len * (len + 1))%nat.
Proof.
  revert start. induction len as [|len IH]; intros start Hn; [done|].
  cbn [seq sum_list_with]. specialize (IH (S start) ltac:(lia)).
  replace (n - (start + 1))%nat with (S len) by lia. nia.
Qed.

Lemma sum_outer n len start :
  (start + len + 2 = n)%nat →
  (3 * sum_list_with (fun i => (n - 1 - (i + 1)) * (n - 1 - (i + 1) + 1)) (seq start len)
   = len * (len + 1) * (len + 2))%nat.
Proof.
  revert start. induction len as [|len IH]; intros start Hn; [done|].
  cbn [seq sum_list_with]. specialize (IH (S start) ltac:(lia)).
  replace (n - 1 - (start + 1))%nat with (S len) by lia. nia.
Qed.

(** The number of triangles the search can return on an array of [n]
    points. *)
Lemma delaunayTrianglesOf_length h pts :
  (6 * length (delaunayTrianglesOf h pts)
   ≤ length pts * (length pts - 1) * (length pts - 2))%nat.
Proof.
  unfold delaunayTrianglesOf. cbv zeta. set (n := length pts).
  case_bool_decide as Hn; [simpl; lia|].
  set (inner := fun i j : nat =>
         seq (j + 1) (n - (j + 1)) ≫= (fun k =>
           if isDelaunay h pts (mkTriangle (pts !!! i) (pts !!! j) (pts !!! k)) i j k
           then [mkTriangle (pts !!! i) (pts !!! j) (pts !!! k)] else [])).
  set (middle := fun i : nat => seq (i + 1) (n - 1 - (i + 1)) ≫= inner i).
  change (6 * length (seq 0 (n - 2) ≫= middle) ≤ n * (n - 1) * (n - 2))%nat.
  assert (Hinner : ∀ i j, (length (inner i j) ≤ n - (j + 1))%nat).
  { intros i j. unfold inner.
    etransitivity; [apply (length_bind_le _ (fun _ => 1%nat))|].
    - intros k _. destruct (isDelaunay _ _ _ _ _ _); simpl; lia.
    - assert (∀ l : list nat, sum_list_with (fun _ => 1%nat) l = length l) as ->.
      { induction l as [|? ? IH]; [done|]. cbn [sum_list_with length]. by rewrite IH. }
      by rewrite length_seq. }
  assert (Hmiddle : ∀ i, i ∈ seq 0 (n - 2) →
            (2 * length (middle i) ≤ (n - 1 - (i + 1)) * (n - 1 - (i + 1) + 1))%nat).
  { intros i Hi%elem_of_seq. unfold middle.
    pose proof (length_bind_le (inner i) (fun j => n - (j + 1))%nat
                  (seq (i + 1) (n - 1 - (i + 1))) (fun j _ => Hinner i j)) as Hle.
    pose proof (sum_inner n (n - 1 - (i + 1)) (i + 1) ltac:(lia)) as Hsum.
    lia. }
  pose proof (length_bind_le middle
                (fun i => length (middle i)) (seq 0 (n - 2)) (fun _ _ => le_n _)) as Hle.
  assert (Hmono : (2 * sum_list_with (fun i => length (middle i)) (seq 0 (n - 2))
                   ≤ sum_list_with (fun i => (n - 1 - (i + 1)) * (n - 1 - (i + 1) + 1))
                                   (seq 0 (n - 2)))%nat).
  { revert Hmiddle. generalize (seq 0 (n - 2)). intros l Hl.
    induction l as [|i l IH]; [done|]. cbn [sum_list_with].
    pose proof (Hl i ltac:(left)).
    assert (2 * sum_list_with (fun i => length (middle i)) l
            ≤ sum_list_with (fun i => (n - 1 - (i + 1)) * (n - 1 - (i + 1) + 1)) l)%nat
      by (apply IH; intros y Hy; apply Hl; by right).
    lia. }
  pose proof (sum_outer n (n - 2) 0 ltac:(lia)) as Hsum.
  replace (n * (n - 1) * (n - 2))%nat with ((n - 2) * (n - 2 + 1) * (n - 2 + 2))%nat by nia.
  lia.
Qed.

(** X8.  On [n] points the search returns at most [n (n - 1) (n - 2) / 6]
    triangles, one per index triple at most, and [calculateAndDraw] builds
    no more drawables than that. *)
Theorem findDelaunayTriangles_count s :
  (6 * length (findDelaunayTriangles s)
   ≤ length (points s) * (length (points s) - 1) * (length (points s) - 2))%nat ∧
  (6 * length (meshes (calculateAndDraw s))
   ≤ length (points s) * (length (points s) - 1) * (length (points s) - 2))%nat.
Proof.
  pose proof (delaunayTrianglesOf_length (heap s) (points s)) as Hfind.
  split; [exact Hfind|].
  unfold calculateAndDraw. rewrite clearTriangleMeshes_points.
  case_bool_decide as Hn; [|rewrite clearTriangleMeshes_meshes; simpl; lia].
  destruct (drawTriangles_spec
              (triangles (set_triangles (findDelaunayTriangles (clearTriangleMeshes s))
                                        (clearTriangleMeshes s)))
              (set_triangles (findDelaunayTriangles (clearTriangleMeshes s))
                             (clearTriangleMeshes s))) as (_ & Hmap & _).
  apply (f_equal length) in Hmap. rewrite length_map in Hmap. rewrite Hmap.
  state_simpl. unfold findDelaunayTriangles.
  rewrite clearTriangleMeshes_heap, clearTriangleMeshes_points, clearTriangleMeshes_meshes.
  exact Hfind.
Qed.

End TriangleSearch.

(** * Invariants of the running application *)

Section Drawables.

Import DelaunayTriangulation.

Lemma drawablesFrom_triangles h n ts : map triangle (drawablesFrom h n ts) = ts.
Proof. revert n. induction ts as [|t ts IH]; intros n; [done|]. cbn. by rewrite IH. Qed.

Lemma drawablesFrom_spec h n ts meshObj :
  meshObj ∈ drawablesFrom h n ts →
  (n ≤ geometry meshObj)%nat ∧
  material meshObj = S (geometry meshObj) ∧
  line meshObj = S (S (geometry meshObj)) ∧
  (line meshObj < n + 3 * length ts)%nat ∧
  triangle meshObj ∈ ts ∧
  colorSeed meshObj = Triangle.getColorSeed h (triangle meshObj) ∧
  positionAttr meshObj =
    coordinates (lineVertices (getTriangleVertices h (triangle meshObj))).
Proof.
  revert n. induction ts as [|t ts IH]; intros n; [by intros ?%elem_of_nil|].
  cbn [drawablesFrom length]. intros [->|Hin]%elem_of_cons.
  - cbn [geometry material line triangle colorSeed positionAttr].
    repeat split; try done; [lia|by left].
  - destruct (IH _ Hin) as (H1 & H2 & H3 & H4 & H5 & H6 & H7).
    repeat split; try done; [lia|lia|by right].
Qed.

Lemma drawTriangles_meshes ts s :
  meshes (fold_left (fun s t => drawTriangle t s) ts s)
  = meshes s ++ drawablesFrom (heap s) (nextLoc s) ts.
Proof.
  revert s. induction ts as [|t ts IH]; intros s; cbn [fold_left drawablesFrom].
  - by rewrite app_nil_r.
  - rewrite IH, drawTriangle_meshes, drawTriangle_nextLoc, <- app_assoc. done.
Qed.

Lemma drawTriangles_scene ts s l :
  l ∈ scene (fold_left (fun s t => drawTriangle t s) ts s)
  ↔ l ∈ scene s ∨ l ∈ map line (drawablesFrom (heap s) (nextLoc s) ts).
Proof.
  revert s. induction ts as [|t ts IH]; intros s; cbn [fold_left drawablesFrom map].
  - rewrite elem_of_nil. tauto.
  - rewrite IH, drawTriangle_scene, drawTriangle_nextLoc.
    rewrite elem_of_union, elem_of_singleton, elem_of_cons. cbn [line].
    change (heap (drawTriangle t s)) with (heap s). tauto.
Qed.

Lemma clearTriangleMeshes_preserves {C} (proj : State → C) s :
  (∀ d s, proj (set_disposed d s) = proj s) →
  (∀ sc s, proj (set_scene sc s) = proj s) →
  (∀ ms s, proj (set_meshes ms s) = proj s) →
  proj (clearTriangleMeshes s) = proj s.
Proof.
  intros Hd Hs Hm. unfold clearTriangleMeshes. rewrite Hm.
  apply (fold_left_preserves _ proj). intros a b. by rewrite Hd, Hs.
Qed.

Lemma calculateAndDraw_preserves {C} (proj : State → C) s :
  (∀ d s, proj (set_disposed d s) = proj s) →
  (∀ sc s, proj (set_scene sc s) = proj s) →
  (∀ ms s, proj (set_meshes ms s) = proj s) →
  (∀ ts s, proj (set_triangles ts s) = proj s) →
  (∀ n s, proj (set_nextLoc n s) = proj s) →
  proj (calculateAndDraw s) = proj s.
Proof.
  intros Hd Hs Hm Ht Hn. unfold calculateAndDraw. case_bool_decide.
  - rewrite (fold_left_preserves _ proj).
    + rewrite Ht. by apply clearTriangleMeshes_preserves.
    + intros a b. unfold drawTriangle. by rewrite Hm, Hs, Hn.
  - by apply clearTriangleMeshes_preserves.
Qed.

(** The drawables and the scene after [calculateAndDraw]. *)
Lemma calculateAndDraw_meshes s :
  meshes (calculateAndDraw s) =
  if bool_decide (length (points s) >= 3)%nat
  then drawablesFrom (heap s) (nextLoc s) (findDelaunayTriangles s)
  else [].
Proof.
  unfold calculateAndDraw. rewrite clearTriangleMeshes_points.
  case_bool_decide; [|apply clearTriangleMeshes_meshes].
  rewrite drawTriangles_meshes. state_simpl.
  rewrite clearTriangleMeshes_meshes. unfold findDelaunayTriangles.
  by rewrite clearTriangleMeshes_heap, clearTriangleMeshes_points,
             clearTriangleMeshes_nextLoc.
Qed.

Lemma calculateAndDraw_scene s l :
  l ∈ scene (calculateAndDraw s) ↔
  (l ∈ scene s ∧ l ∉ map line (meshes s)) ∨
  l ∈ map line (meshes (calculateAndDraw s)).
Proof.
  rewrite calculateAndDraw_meshes. unfold calculateAndDraw.
  rewrite clearTriangleMeshes_points. case_bool_decide.
  - rewrite drawTriangles_scene. state_simpl. rewrite clearTriangleMeshes_scene.
    unfold findDelaunayTriangles.
    by rewrite clearTriangleMeshes_heap, clearTriangleMeshes_points,
               clearTriangleMeshes_nextLoc.
  - rewrite clearTriangleMeshes_scene. cbn [map]. rewrite elem_of_nil. tauto.
Qed.

Lemma calculateAndDraw_disposed s l :
  l ∈ disposed (calculateAndDraw s) ↔
  l ∈ disposed s ∨ l ∈ map geometry (meshes s) ∨ l ∈ map material (meshes s).
Proof.
  unfold calculateAndDraw. case_bool_decide.
  - rewrite drawTriangles_disposed. state_simpl. apply clearTriangleMeshes_disposed.
  - apply clearTriangleMeshes_disposed.
Qed.

Lemma calculateAndDraw_nextLoc s :
  nextLoc (calculateAndDraw s) =
  (nextLoc s + 3 * length (meshes (calculateAndDraw s)))%nat.
Proof.
  rewrite calculateAndDraw_meshes. unfold calculateAndDraw.
  rewrite clearTriangleMeshes_points. case_bool_decide.
  - destruct (drawTriangles_spec
                (triangles (set_triangles (findDelaunayTriangles (clearTriangleMeshes s))
                                          (clearTriangleMeshes s)))
                (set_triangles (findDelaunayTriangles (clearTriangleMeshes s))
                               (clearTriangleMeshes s))) as (-> & _).
    state_simpl. rewrite clearTriangleMeshes_nextLoc. unfold findDelaunayTriangles.
    rewrite clearTriangleMeshes_heap, clearTriangleMeshes_points.
    rewrite <- (length_map triangle (drawablesFrom _ _ _)), drawablesFrom_triangles.
    done.
  - rewrite clearTriangleMeshes_nextLoc. simpl. lia.
Qed.

End Drawables.

Section Coherence.

Import DelaunayTriangulation PointManager.

Lemma delaunayTrianglesOf_vertices h pts t :
  t ∈ delaunayTrianglesOf h pts → p1 t ∈ pts ∧ p2 t ∈ pts ∧ p3 t ∈ pts.
Proof.
  intros (i & j & k & Hij & Hjk & Hk & -> & _)%elem_of_delaunayTrianglesOf.
  cbn [p1 p2 p3]. split; [|split]; apply list_elem_of_lookup_total_2; lia.
Qed.

(** A line of a drawable is no live point. *)
Lemma tidy_line_not_point s meshObj :
  tidy s → meshObj ∈ meshes s → line meshObj ∉ points s.
Proof.
  intros Ht Hin Hp.
  destruct (tidy_drawables s Ht meshObj Hin) as (_ & _ & _ & _ & Hnone & _).
  destruct (wf_points_live s (tidy_wf s Ht) _ Hp) as (m & _ & Hm & _). congruence.
Qed.

Lemma tidy_calculateAndDraw s : tidy s → tidy (calculateAndDraw s).
Proof.
  intros Ht. pose proof (tidy_wf s Ht) as Hwf.
  destruct (tidy_point_resources s Ht) as (Hg & Hm & Hn).
  pose proof (calculateAndDraw_nextLoc s) as Hnext.
  assert (Hnew : ∀ meshObj, meshObj ∈ meshes (calculateAndDraw s) →
            (nextLoc s ≤ geometry meshObj)%nat ∧
            material meshObj = S (geometry meshObj) ∧
            line meshObj = S (S (geometry meshObj)) ∧
            (line meshObj < nextLoc (calculateAndDraw s))%nat ∧
            colorSeed meshObj = Triangle.getColorSeed (heap s) (triangle meshObj)).
  { intros meshObj. rewrite Hnext, calculateAndDraw_meshes.
    case_bool_decide; [|by intros ?%elem_of_nil].
    intros Hin. destruct (drawablesFrom_spec _ _ _ _ Hin) as (H1 & H2 & H3 & H4 & _ & H6 & _).
    rewrite <- (length_map triangle (drawablesFrom _ _ _)), drawablesFrom_triangles.
    done. }
  split.
  - by apply wf_calculateAndDraw.
  - rewrite (calculateAndDraw_preserves triangulation) by done.
    apply (tidy_triangulation s Ht).
  - rewrite (calculateAndDraw_preserves pointGeometry),
            (calculateAndDraw_preserves pointMaterial) by done.
    split; [done|]. split; [done|]. lia.
  - intros l. rewrite calculateAndDraw_scene, calculateAndDraw_points.
    rewrite (tidy_scene s Ht). split.
    + intros [[[Hp|Hl] Hnl]|Hl]; tauto.
    + intros [Hp|Hl]; [|by right]. left. split; [by left|].
      intros (meshObj & -> & Hin)%list_elem_of_fmap.
      by apply (tidy_line_not_point s meshObj).
  - intros meshObj Hin. destruct (Hnew meshObj Hin) as (H1 & H2 & H3 & H4 & H5).
    split; [lia|]. split; [done|]. split; [done|]. split; [done|].
    rewrite calculateAndDraw_heap.
    split; [|split; [|split]].
    + destruct (heap s !! line meshObj) eqn:E; [|done].
      pose proof (wf_heap_fresh s Hwf (line meshObj) ltac:(by eexists)). lia.
    + rewrite calculateAndDraw_disposed.
      intros [Hd|[(old & E & Hold)%list_elem_of_fmap|(old & E & Hold)%list_elem_of_fmap]].
      * pose proof (tidy_disposed s Ht _ Hd). lia.
      * destruct (tidy_drawables s Ht old Hold) as (_ & O2 & O3 & O4 & _). lia.
      * destruct (tidy_drawables s Ht old Hold) as (_ & O2 & O3 & O4 & _). lia.
    + rewrite calculateAndDraw_disposed.
      intros [Hd|[(old & E & Hold)%list_elem_of_fmap|(old & E & Hold)%list_elem_of_fmap]].
      * pose proof (tidy_disposed s Ht _ Hd). lia.
      * destruct (tidy_drawables s Ht old Hold) as (_ & O2 & O3 & O4 & _). lia.
      * destruct (tidy_drawables s Ht old Hold) as (_ & O2 & O3 & O4 & _). lia.
    + rewrite H5. apply getColorSeed_range.
  - intros l. rewrite calculateAndDraw_disposed.
    intros [Hd|[(old & -> & Hold)%list_elem_of_fmap|(old & -> & Hold)%list_elem_of_fmap]].
    + pose proof (tidy_disposed s Ht _ Hd). lia.
    + destruct (tidy_drawables s Ht old Hold) as (O1 & O2 & O3 & O4 & _). lia.
    + destruct (tidy_drawables s Ht old Hold) as (O1 & O2 & O3 & O4 & _). lia.
Qed.

(** With three points or more [calculateAndDraw] makes the triangulation
    that of the live points. *)
Lemma coherent_rebuild s :
  tidy s → (3 ≤ length (points s))%nat → coherent (calculateAndDraw s).
Proof.
  intros Ht Hlen.
  assert (Hms : meshes (calculateAndDraw s)
                = drawablesFrom (heap s) (nextLoc s) (findDelaunayTriangles s)).
  { rewrite calculateAndDraw_meshes. by rewrite bool_decide_eq_true_2 by (unfold ge; lia). }
  split.
  - by apply tidy_calculateAndDraw.
  - rewrite Hms, drawablesFrom_triangles. by rewrite calculateAndDraw_triangles_rebuilt.
  - intros t. rewrite calculateAndDraw_triangles_rebuilt, calculateAndDraw_points by done.
    apply delaunayTrianglesOf_vertices.
  - rewrite calculateAndDraw_triangles_rebuilt, calculateAndDraw_points by done.
    apply delaunayTrianglesOf_length.
  - intros meshObj. rewrite Hms, calculateAndDraw_heap. intros Hin.
    by destruct (drawablesFrom_spec _ _ _ _ Hin) as (_ & _ & _ & _ & _ & _ & ?).
Qed.

Lemma coherent_few s :
  coherent s → (length (points s) < 3)%nat → triangles s = [] ∧ meshes s = [].
Proof.
  intros Hc Hlen. pose proof (coh_count s Hc) as Hcount.
  assert (triangles s = []) as Hts.
  { apply length_zero_iff_nil.
    destruct (length (points s)) as [|[|[|n]]]; simpl in Hcount; lia. }
  split; [done|]. pose proof (coh_meshes s Hc) as Hmt. rewrite Hts in Hmt.
  by apply fmap_nil_inv in Hmt.
Qed.

Lemma coherent_calculateAndDraw s : coherent s → coherent (calculateAndDraw s).
Proof.
  intros Hc. destruct (decide (3 ≤ length (points s))%nat) as [Hlen|Hlen].
  - apply coherent_rebuild; [apply (coh_tidy s Hc)|done].
  - destruct (coherent_few s Hc ltac:(lia)) as [Hts Hms].
    assert (Hms' : meshes (calculateAndDraw s) = []).
    { rewrite calculateAndDraw_meshes. by rewrite bool_decide_eq_false_2 by (unfold ge; lia). }
    split.
    + apply tidy_calculateAndDraw, (coh_tidy s Hc).
    + rewrite Hms', calculateAndDraw_triangles_kept by lia. by rewrite Hts.
    + intros t. rewrite calculateAndDraw_triangles_kept, Hts by lia.
      by intros ?%elem_of_nil.
    + rewrite calculateAndDraw_triangles_kept, Hts by lia. simpl. lia.
    + intros meshObj. rewrite Hms'. by intros ?%elem_of_nil.
Qed.

Lemma addPoint_preserves {C} (proj : State → C) cfg iw ih x y s :
  (∀ hp s, proj (set_heap hp s) = proj s) →
  (∀ sc s, proj (set_scene sc s) = proj s) →
  (∀ ps s, proj (set_points ps s) = proj s) →
  (∀ n s, proj (set_nextLoc n s) = proj s) →
  (∀ p s, proj (set_lastAddedPoint p s) = proj s) →
  proj (addPoint cfg iw ih x y s).1 = proj s.
Proof.
  intros Hh Hs Hp Hn Hl. unfold addPoint. cbv zeta. cbn [fst].
  rewrite Hl, Hp, Hs, Hn, Hh. case_bool_decide; [|done].
  destruct (head (points s)); cbn [removePoint]; by rewrite ?Hh, ?Hs, Hp.
Qed.

Lemma addPoint_scene cfg iw ih x y s l :
  l ∈ scene (addPoint cfg iw ih x y s).1 ↔
  l = nextLoc s ∨
  (l ∈ scene s ∧
   ¬ ((length (points s) >= MAX_POINTS cfg)%nat ∧ head (points s) = Some l)).
Proof.
  unfold addPoint. cbv zeta. cbn [fst]. state_simpl.
  rewrite elem_of_union, elem_of_singleton.
  case_bool_decide as Hcap.
  - destruct (head (points s)) as [oldest|] eqn:Hhead; cbn [removePoint]; state_simpl.
    + rewrite elem_of_difference, elem_of_singleton.
      split; (intros [?|[? ?]]; [by left|right]); split; try done.
      * intros [_ [= ->]]. done.
      * intros ->. tauto.
    + split; (intros [?|?]; [by left|right]); [split; [done|]|tauto].
      by intros [_ ?].
  - split; (intros [?|?]; [by left|right]); [split; [done|]|tauto].
    tauto.
Qed.

Lemma addPoint_length cfg iw ih x y s :
  (length (points s) ≤ length (points (addPoint cfg iw ih x y s).1))%nat ∧
  (length (points (addPoint cfg iw ih x y s).1)
   ≤ Nat.max (S (length (points s))) (Nat.max 1 (MAX_POINTS cfg)))%nat ∧
  ((length (points s) ≤ Nat.max 1 (MAX_POINTS cfg))%nat →
   (length (points (addPoint cfg iw ih x y s).1) ≤ Nat.max 1 (MAX_POINTS cfg))%nat).
Proof.
  rewrite addPoint_points, length_app. cbn [length].
  case_bool_decide; [|lia]. destruct (points s); cbn [tail length] in *; lia.
Qed.

Lemma tidy_addPoint cfg iw ih x y s : tidy s → tidy (addPoint cfg iw ih x y s).1.
Proof.
  intros Ht. pose proof (tidy_wf s Ht) as Hwf.
  pose proof (wf_points_NoDup s Hwf) as Hnd.
  destruct (tidy_point_resources s Ht) as (Hg & Hm & Hn).
  assert (Hfresh : ∀ p, p ∈ points s → (p < nextLoc s)%nat).
  { intros p Hp. destruct (wf_points_live s Hwf p Hp) as (m & _ & Hm' & _).
    apply (wf_heap_fresh s Hwf). by eexists. }
  split.
  - by apply wf_addPoint.
  - rewrite (addPoint_preserves triangulation) by done. apply (tidy_triangulation s Ht).
  - rewrite (addPoint_preserves pointGeometry), (addPoint_preserves pointMaterial) by done.
    rewrite addPoint_nextLoc. split; [done|]. split; [done|]. lia.
  - intros l. rewrite addPoint_scene, addPoint_points, addPoint_result, addPoint_meshes.
    rewrite (tidy_scene s Ht), elem_of_app, list_elem_of_singleton. split.
    + intros [->|[[Hp|Hl] Hnot]]; [tauto| |tauto].
      left. left. case_bool_decide as Hcap; [|done].
      destruct (points s) as [|oldest ps]; [by apply elem_of_nil in Hp|].
      cbn [head tail] in *. apply elem_of_cons in Hp as [->|Hp]; [|done].
      exfalso. apply Hnot. done.
    + intros [[Hp| ->]|Hl]; [|by left|].
      * right. case_bool_decide as Hcap.
        -- split; [left; by apply elem_of_tail|].
           intros [_ Hhead]. destruct (points s) as [|oldest ps]; [done|].
           cbn [head tail] in *. injection Hhead as ->.
           by apply NoDup_cons in Hnd as [? _].
        -- split; [by left|]. tauto.
      * right. split; [by right|]. intros [_ Hhead].
        apply list_elem_of_fmap in Hl as (meshObj & -> & Hin).
        apply (tidy_line_not_point s meshObj Ht Hin).
        destruct (points s); [done|]. injection Hhead as ->. by left.
  - intros meshObj. rewrite addPoint_meshes. intros Hin.
    destruct (tidy_drawables s Ht meshObj Hin) as (O1 & O2 & O3 & O4 & O5 & O6 & O7 & O8).
    rewrite addPoint_nextLoc, (addPoint_preserves disposed) by done.
    split; [done|]. split; [done|]. split; [done|]. split; [lia|].
    split; [|done]. rewrite addPoint_heap, lookup_insert_ne by lia.
    case_bool_decide; [|done]. destruct (head (points s)); [|done].
    rewrite lookup_alter. case_decide; [subst|done]. by rewrite O5.
  - intros l. rewrite (addPoint_preserves disposed), addPoint_nextLoc by done.
    intros Hd. pose proof (tidy_disposed s Ht l Hd). lia.
Qed.

Lemma repulsionLoop_preserves {C} (proj : State → C) cfg newPoint s :
  (∀ hp s, proj (set_heap hp s) = proj s) →
  (∀ p s, proj (set_lastAddedPoint p s) = proj s) →
  proj (repulsionLoop cfg newPoint s) = proj s.
Proof.
  intros Hh Hl. unfold repulsionLoop.
  rewrite (fold_left_preserves _ proj); [apply Hl|].
  intros a b. cbv beta. by destruct (bool_decide (b = newPoint)).
Qed.

Lemma applyRepulsion_loop cfg newPoint s :
  applyRepulsion cfg newPoint s =
  if triangulation s && bool_decide (length (points s) >= 3)%nat
  then calculateAndDraw (repulsionLoop cfg newPoint s)
  else repulsionLoop cfg newPoint s.
Proof.
  change (applyRepulsion cfg newPoint s)
    with (if triangulation (repulsionLoop cfg newPoint s)
             && bool_decide (length (points (repulsionLoop cfg newPoint s)) >= 3)%nat
          then calculateAndDraw (repulsionLoop cfg newPoint s)
          else repulsionLoop cfg newPoint s).
  by rewrite (repulsionLoop_preserves triangulation),
             (repulsionLoop_preserves points) by done.
Qed.

Lemma repulsionLoop_heap cfg newPoint s p :
  NoDup (points s) →
  heap (repulsionLoop cfg newPoint s) !! p =
  if decide (p ∈ points s)
  then (if decide (p = newPoint) then (fun m : Mesh => m)
        else OnMesh.applyRepulsionForce
               (position_x (heap s !!! newPoint)) (position_y (heap s !!! newPoint))
               (Repulsion_STRENGTH cfg) (RADIUS cfg))
         <$> heap s !! p
  else heap s !! p.
Proof.
  intros Hnd. rewrite <- (applyRepulsion_heap cfg newPoint s p Hnd).
  rewrite applyRepulsion_loop.
  destruct (triangulation s && bool_decide (length (points s) >= 3)%nat);
    [by rewrite calculateAndDraw_heap|done].
Qed.

Lemma wf_repulsionLoop cfg newPoint s : wf s → wf (repulsionLoop cfg newPoint s).
Proof.
  intros Hwf. pose proof (wf_points_NoDup s Hwf) as Hnd. split.
  - intros p. rewrite (repulsionLoop_preserves points) by done. intros Hp.
    destruct (wf_points_live s Hwf p Hp) as (m & u & Hm & Hu).
    rewrite repulsionLoop_heap, decide_True, Hm by done.
    cbn [fmap option_fmap option_map].
    case_decide; [by eexists _, _|].
    destruct (applyRepulsionForce_live
                (position_x (heap s !!! newPoint)) (position_y (heap s !!! newPoint))
                (Repulsion_STRENGTH cfg) (RADIUS cfg) m) as [u' Hu']; [by eexists|].
    by eexists _, u'.
  - by rewrite (repulsionLoop_preserves points).
  - intros p. rewrite (repulsionLoop_preserves nextLoc), repulsionLoop_heap by done.
    intros Hp. apply (wf_heap_fresh s Hwf).
    case_decide; [|done]. by apply fmap_is_Some in Hp.
  - intros meshObj.
    rewrite (repulsionLoop_preserves meshes), (repulsionLoop_preserves nextLoc) by done.
    apply (wf_lines_fresh s Hwf).
Qed.

Lemma tidy_repulsionLoop cfg newPoint s : tidy s → tidy (repulsionLoop cfg newPoint s).
Proof.
  intros Ht. pose proof (tidy_wf s Ht) as Hwf. split.
  - by apply wf_repulsionLoop.
  - rewrite (repulsionLoop_preserves triangulation) by done.
    apply (tidy_triangulation s Ht).
  - rewrite (repulsionLoop_preserves pointGeometry),
            (repulsionLoop_preserves pointMaterial),
            (repulsionLoop_preserves nextLoc) by done.
    apply (tidy_point_resources s Ht).
  - intros l.
    rewrite (repulsionLoop_preserves scene), (repulsionLoop_preserves points),
            (repulsionLoop_preserves meshes) by done.
    apply (tidy_scene s Ht).
  - intros meshObj. rewrite (repulsionLoop_preserves meshes) by done. intros Hin.
    destruct (tidy_drawables s Ht meshObj Hin) as (O1 & O2 & O3 & O4 & O5 & O6 & O7 & O8).
    rewrite (repulsionLoop_preserves nextLoc), (repulsionLoop_preserves disposed) by done.
    repeat (split; [done|]). split; [|done].
    rewrite repulsionLoop_heap by apply (wf_points_NoDup s Hwf).
    case_decide; [|done]. by rewrite O5.
  - intros l.
    rewrite (repulsionLoop_preserves disposed), (repulsionLoop_preserves nextLoc) by done.
    apply (tidy_disposed s Ht).
Qed.

(** A press keeps the triangulation that of the live points. *)
Lemma coherent_handleMouseDown cfg iw ih x y s :
  coherent s → coherent (InputHandler.handleMouseDown cfg iw ih x y s).
Proof.
  intros Hc. unfold InputHandler.handleMouseDown. cbv zeta.
  set (s1 := (addPoint cfg iw ih x y s).1).
  set (newPoint := (addPoint cfg iw ih x y s).2).
  assert (tidy s1) as Ht1 by apply tidy_addPoint, (coh_tidy s Hc).
  pose proof (tidy_repulsionLoop cfg newPoint s1 Ht1) as Ht2.
  rewrite applyRepulsion_loop. rewrite (tidy_triangulation s1 Ht1). cbn [andb].
  case_bool_decide as Hlen.
  - apply coherent_rebuild; [done|].
    rewrite (repulsionLoop_preserves points) by done. unfold ge in Hlen. lia.
  - destruct (addPoint_length cfg iw ih x y s) as (Hle & _). fold s1 in Hle.
    destruct (coherent_few s Hc ltac:(unfold ge in Hlen; lia)) as [Hts Hms].
    split.
    + done.
    + rewrite (repulsionLoop_preserves meshes), (repulsionLoop_preserves triangles) by done.
      unfold s1. by rewrite addPoint_meshes, addPoint_triangles, Hts, Hms.
    + intros t. rewrite (repulsionLoop_preserves triangles) by done.
      unfold s1. rewrite addPoint_triangles, Hts. by intros ?%elem_of_nil.
    + rewrite (repulsionLoop_preserves triangles) by done.
      unfold s1. rewrite addPoint_triangles, Hts. simpl. lia.
    + intros meshObj. rewrite (repulsionLoop_preserves meshes) by done.
      unfold s1. rewrite addPoint_meshes, Hms. by intros ?%elem_of_nil.
Qed.

(** Same drawables: same objects, triangles and seeds, in the same order. *)
Lemma sameDrawable_elem ms ms' meshObj :
  Forall2 sameDrawable ms ms' → meshObj ∈ ms →
  ∃ old, old ∈ ms' ∧ sameDrawable meshObj old.
Proof.
  intros Hsame (j & Hj)%list_elem_of_lookup.
  destruct (Forall2_lookup_l _ _ _ _ _ Hsame Hj) as (old & Hold & Hs).
  exists old. split; [by eapply list_elem_of_lookup_2|done].
Qed.

Lemma sameDrawable_maps ms ms' :
  Forall2 sameDrawable ms ms' →
  map line ms = map line ms' ∧ map triangle ms = map triangle ms'.
Proof.
  induction 1 as [|a b l k (Hl & _ & _ & Ht & _) _ [IH1 IH2]]; [done|].
  cbn [map]. by rewrite Hl, Ht, IH1, IH2.
Qed.

(** Updates of the velocity leave the position alone. *)
Lemma position_alter (f : Mesh → Mesh) i (h : gmap loc Mesh) p :
  (∀ m, position_x (f m) = position_x m ∧ position_y (f m) = position_y m) →
  position_x (alter f i h !!! p) = position_x (h !!! p) ∧
  position_y (alter f i h !!! p) = position_y (h !!! p).
Proof.
  intros Hf. rewrite !lookup_total_alt, lookup_alter.
  case_decide; [subst|done]. destruct (h !! p); [apply Hf|done].
Qed.

Lemma addVelocity_position dvx dvy m :
  position_x (OnMesh.addVelocity dvx dvy m) = position_x m ∧
  position_y (OnMesh.addVelocity dvx dvy m) = position_y m.
Proof. unfold OnMesh.addVelocity. by destruct (userData m). Qed.

Lemma constrainToOriginalPosition_position maxDistance returnForce m :
  position_x (OnMesh.constrainToOriginalPosition maxDistance returnForce m) = position_x m ∧
  position_y (OnMesh.constrainToOriginalPosition maxDistance returnForce m) = position_y m.
Proof.
  unfold OnMesh.constrainToOriginalPosition. destruct (userData m) eqn:Hu; [|done].
  case_bool_decide; [|done]. apply addVelocity_position.
Qed.

(** The two velocity loops of [updatePoints] move nothing. *)
Lemma velocity_loops_position cfg random s p :
  position_x (heap (applyPositionConstraints cfg (applyBrownianMotion cfg random s)) !!! p)
    = position_x (heap s !!! p) ∧
  position_y (heap (applyPositionConstraints cfg (applyBrownianMotion cfg random s)) !!! p)
    = position_y (heap s !!! p).
Proof.
  set (pos := fun st : State => (position_x (heap st !!! p), position_y (heap st !!! p))).
  assert (pos (applyPositionConstraints cfg (applyBrownianMotion cfg random s)) = pos s)
    as Hpos; [|by injection Hpos].
  transitivity (pos (applyBrownianMotion cfg random s)).
  - apply (fold_left_preserves _ pos). intros a b. unfold pos. state_simpl.
    unfold constrainToOriginalPosition.
    destruct (position_alter
                (OnMesh.constrainToOriginalPosition (MAX_DISTANCE cfg) (RETURN_FORCE cfg))
                b (heap a) p) as [-> ->]; [|done].
    intros m. apply constrainToOriginalPosition_position.
  - apply (fold_left_preserves _ pos). intros a b. unfold pos. state_simpl.
    destruct (position_alter
                (OnMesh.addVelocity
                   ((random (randomCalls a) - 0.5) * Brownian_STRENGTH cfg)
                   ((random (S (randomCalls a)) - 0.5) * Brownian_STRENGTH cfg))
                b (heap a) p) as [-> ->]; [|done].
    intros m. apply addVelocity_position.
Qed.

(** When the integration loop ends with [positionsChanged] false, no mesh
    has moved. *)
Lemma integration_loop_unchanged cfg w h pts acc p :
  (fold_left (updatePoint cfg w h) pts acc).2 = false →
  acc.2 = false ∧
  position_x (heap (fold_left (updatePoint cfg w h) pts acc).1 !!! p)
    = position_x (heap acc.1 !!! p) ∧
  position_y (heap (fold_left (updatePoint cfg w h) pts acc).1 !!! p)
    = position_y (heap acc.1 !!! p).
Proof.
  revert acc. induction pts as [|x pts IH]; intros acc; cbn [fold_left]; [done|].
  intros Hflag. destruct (IH _ Hflag) as (Hx & -> & ->). clear IH Hflag.
  unfold updatePoint in *. cbv zeta in *. cbn [fst snd] in *. state_simpl.
  case_bool_decide as Hmoved; [done|]. split; [done|].
  destruct (decide (p = x)) as [->|Hne].
  - destruct (decide (position_x (heap acc.1 !!! x)
                      = position_x (applyFriction x (FRICTION cfg)
                           (constrainToScreen x (w / 2) (h / 2) (BOUNCE_FACTOR cfg)
                              (alter OnMesh.move x (heap acc.1))) !!! x))) as [Ex|Ex];
      [|tauto].
    destruct (decide (position_y (heap acc.1 !!! x)
                      = position_y (applyFriction x (FRICTION cfg)
                           (constrainToScreen x (w / 2) (h / 2) (BOUNCE_FACTOR cfg)
                              (alter OnMesh.move x (heap acc.1))) !!! x))) as [Ey|Ey];
      [|tauto].
    by rewrite <- Ex, <- Ey.
  - unfold applyFriction, constrainToScreen.
    by rewrite !lookup_total_alter_ne by done.
Qed.

Lemma updatePoints_loop cfg random w h s :
  let s2 := applyPositionConstraints cfg (applyBrownianMotion cfg random s) in
  let r := fold_left (updatePoint cfg w h) (points s2) (s2, false) in
  updatePoints cfg random w h s =
  if r.2 && triangulation r.1 then updateTrianglePositions r.1 else r.1.
Proof. cbv zeta. unfold updatePoints. by destruct (fold_left _ _ _). Qed.

Lemma getTriangleVertices_positions h h' t :
  (∀ p, position_x (h' !!! p) = position_x (h !!! p) ∧
        position_y (h' !!! p) = position_y (h !!! p)) →
  getTriangleVertices h' t = getTriangleVertices h t.
Proof.
  intros Hpos. unfold getTriangleVertices.
  destruct (Hpos (p1 t)) as [-> ->]. destruct (Hpos (p2 t)) as [-> ->].
  by destruct (Hpos (p3 t)) as [-> ->].
Qed.

(** After [updatePoints] the vertex buffers hold the new positions, if they
    held the positions before. *)
Lemma updatePoints_sync cfg random w h s :
  triangulation s = true →
  (∀ meshObj, meshObj ∈ meshes s →
     positionAttr meshObj =
     coordinates (lineVertices (getTriangleVertices (heap s) (triangle meshObj)))) →
  ∀ meshObj, meshObj ∈ meshes (updatePoints cfg random w h s) →
    positionAttr meshObj =
    coordinates (lineVertices
      (getTriangleVertices (heap (updatePoints cfg random w h s)) (triangle meshObj))).
Proof.
  intros Htri Hsync meshObj. rewrite updatePoints_loop. cbv zeta.
  set (s2 := applyPositionConstraints cfg (applyBrownianMotion cfg random s)).
  set (r := fold_left (updatePoint cfg w h) (points s2) (s2, false)).
  assert (Htri3 : triangulation r.1 = true).
  { unfold r. rewrite integration_loop_preserves by done. cbn [fst]. unfold s2.
    by rewrite applyPositionConstraints_triangulation, applyBrownianMotion_triangulation. }
  assert (Hms3 : meshes r.1 = meshes s).
  { unfold r. rewrite integration_loop_preserves by done. cbn [fst]. unfold s2.
    by rewrite applyPositionConstraints_meshes, applyBrownianMotion_meshes. }
  rewrite Htri3, andb_true_r. destruct (r.2) eqn:Hflag.
  - intros Hin. exact (updateTrianglePositions_coordinates r.1 meshObj Hin).
  - rewrite Hms3. intros Hin. rewrite (Hsync meshObj Hin). do 2 f_equal.
    symmetry. apply getTriangleVertices_positions. intros p.
    destruct (integration_loop_unchanged cfg w h (points s2) (s2, false) p Hflag)
      as (_ & Ex & Ey).
    fold r in Ex, Ey. cbn [fst] in Ex, Ey. rewrite Ex, Ey.
    apply velocity_loops_position.
Qed.

Lemma tidy_updatePoints cfg random w h s : tidy s → tidy (updatePoints cfg random w h s).
Proof.
  intros Ht. pose proof (tidy_wf s Ht) as Hwf.
  pose proof (updatePoints_sameDrawable cfg random w h s) as Hsame.
  destruct (sameDrawable_maps _ _ Hsame) as [Hlines _].
  split.
  - by apply wf_updatePoints.
  - rewrite updatePoints_triangulation. apply (tidy_triangulation s Ht).
  - rewrite (updatePoints_preserves cfg random pointGeometry),
            (updatePoints_preserves cfg random pointMaterial), updatePoints_nextLoc by done.
    apply (tidy_point_resources s Ht).
  - intros l. rewrite updatePoints_scene, updatePoints_points, Hlines.
    apply (tidy_scene s Ht).
  - intros meshObj Hin.
    destruct (sameDrawable_elem _ _ _ Hsame Hin) as (old & Hold & El & Eg & Em & _ & Ec).
    destruct (tidy_drawables s Ht old Hold) as (O1 & O2 & O3 & O4 & O5 & O6 & O7 & O8).
    rewrite updatePoints_nextLoc, updatePoints_disposed, El, Eg, Em, Ec.
    repeat (split; [done|]). split; [|done].
    rewrite updatePoints_lookup_other; [done|apply (wf_points_NoDup s Hwf)|].
    by apply (tidy_line_not_point s old).
  - intros l. rewrite updatePoints_disposed, updatePoints_nextLoc.
    apply (tidy_disposed s Ht).
Qed.

Lemma coherent_updatePoints cfg random w h s :
  coherent s → coherent (updatePoints cfg random w h s).
Proof.
  intros Hc. pose proof (coh_tidy s Hc) as Ht.
  pose proof (updatePoints_sameDrawable cfg random w h s) as Hsame.
  destruct (sameDrawable_maps _ _ Hsame) as [_ Htris].
  split.
  - by apply tidy_updatePoints.
  - rewrite Htris, updatePoints_triangles. apply (coh_meshes s Hc).
  - intros t. rewrite updatePoints_triangles, updatePoints_points.
    apply (coh_vertices s Hc).
  - rewrite updatePoints_triangles, updatePoints_points. apply (coh_count s Hc).
  - apply updatePoints_sync; [apply (tidy_triangulation s Ht)|apply (coh_sync s Hc)].
Qed.

Lemma coherent_initial : coherent initial.
Proof.
  split; [split|..].
  - apply wf_initial.
  - done.
  - cbn. split; [done|]. split; [done|]. lia.
  - intros l. cbn. rewrite elem_of_empty, !elem_of_nil. tauto.
  - intros meshObj. cbn. by intros ?%elem_of_nil.
  - intros l. cbn. by intros ?%elem_of_empty.
  - done.
  - intros t. cbn. by intros ?%elem_of_nil.
  - cbn. lia.
  - intros meshObj. cbn. by intros ?%elem_of_nil.
Qed.

Lemma coherent_handle cfg random s e :
  coherent s → coherent (DelaunayApp.handle cfg random s e).
Proof.
  intros Hc. destruct e; cbn [DelaunayApp.handle].
  - by apply coherent_handleMouseDown.
  - by apply coherent_updatePoints.
  - by apply coherent_calculateAndDraw.
Qed.

(** Every state the application reaches from a coherent state is
    coherent. *)
Lemma coherent_run cfg random events s :
  coherent s → coherent (DelaunayApp.run cfg random events s).
Proof.
  unfold DelaunayApp.run. revert s.
  induction events as [|e events IH]; intros s Hc; [done|].
  cbn [fold_left]. by apply IH, coherent_handle.
Qed.

End Coherence.

(** * What holds in every state the application reaches *)

Section Reachable.

Import DelaunayTriangulation PointManager.

Context (cfg : Constants) (random : nat → R).

(** X9.  In every state the application reaches, the scene holds exactly
    the live points and the line objects of the current drawables: an
    evicted point and the lines of an earlier triangulation are not in
    it. *)
Theorem scene_is_points_and_lines events :
  let s := DelaunayApp.run cfg random events initial in
  (∀ l, l ∈ scene s ↔ l ∈ points s ∨ l ∈ map line (meshes s)) ∧
  (∀ p m, heap s !! p = Some m → p ∉ points s → p ∉ scene s).
Proof.
  intros s. pose proof (coherent_run cfg random events initial coherent_initial) as Hc.
  fold s in Hc. pose proof (coh_tidy s Hc) as Ht.
  split; [apply (tidy_scene s Ht)|].
  intros p m Hm Hp. rewrite (tidy_scene s Ht).
  intros [?|(meshObj & -> & Hin)%list_elem_of_fmap]; [done|].
  destruct (tidy_drawables s Ht meshObj Hin) as (_ & _ & _ & _ & Hnone & _).
  congruence.
Qed.

(** X10.  In every state the application reaches, no drawable in use has
    a geometry or a material that was disposed of, the geometry and the
    material shared by the points were not disposed of either, and the three
    objects of a drawable are objects of its own: none is a point mesh. *)
Theorem no_disposed_object_in_use events :
  let s := DelaunayApp.run cfg random events initial in
  (∀ meshObj, meshObj ∈ meshes s →
     (geometry meshObj ∉ disposed s) ∧ (material meshObj ∉ disposed s) ∧
     geometry meshObj ≠ material meshObj ∧ geometry meshObj ≠ line meshObj ∧
     material meshObj ≠ line meshObj ∧ (line meshObj ∉ points s)) ∧
  (pointGeometry s ∉ disposed s) ∧ (pointMaterial s ∉ disposed s).
Proof.
  intros s. pose proof (coherent_run cfg random events initial coherent_initial) as Hc.
  fold s in Hc. pose proof (coh_tidy s Hc) as Ht.
  destruct (tidy_point_resources s Ht) as (Hg & Hm & _).
  split; [|split].
  - intros meshObj Hin.
    destruct (tidy_drawables s Ht meshObj Hin) as (_ & O2 & O3 & _ & _ & O6 & O7 & _).
    split; [done|]. split; [done|]. split; [lia|]. split; [lia|]. split; [lia|].
    by apply (tidy_line_not_point s meshObj).
  - rewrite Hg. intros Hd. pose proof (tidy_disposed s Ht _ Hd). lia.
  - rewrite Hm. intros Hd. pose proof (tidy_disposed s Ht _ Hd). lia.
Qed.

(** X11.  In every state the application reaches, the drawables are those
    of the triangle list, one per triangle and in its order; every triangle
    is made of three live points; and with fewer than three points there is
    no triangle and no drawable. *)
Theorem drawables_match_triangles events :
  let s := DelaunayApp.run cfg random events initial in
  map triangle (meshes s) = triangles s ∧
  (∀ t, t ∈ triangles s →
     (p1 t ∈ points s ∧ p2 t ∈ points s ∧ p3 t ∈ points s) ∧
     ∀ p, p ∈ [p1 t; p2 t; p3 t] → ∃ m u, heap s !! p = Some m ∧ userData m = Some u) ∧
  ((length (points s) < 3)%nat → triangles s = [] ∧ meshes s = []).
Proof.
  intros s. pose proof (coherent_run cfg random events initial coherent_initial) as Hc.
  fold s in Hc. pose proof (tidy_wf s (coh_tidy s Hc)) as Hwf.
  split; [apply (coh_meshes s Hc)|]. split; [|apply (coherent_few s Hc)].
  intros t Hin. destruct (coh_vertices s Hc t Hin) as (H1 & H2 & H3).
  split; [done|]. intros p Hp. apply (wf_points_live s Hwf).
  apply elem_of_cons in Hp as [->|Hp]; [done|].
  apply elem_of_cons in Hp as [->|Hp]; [done|].
  by apply list_elem_of_singleton in Hp as ->.
Qed.

(** X12.  In every state the application reaches, the vertex buffer of
    every drawable holds the current positions of the three points of its
    triangle, each coordinate rounded to single precision as a
    [Float32Array] keeps it: the lines follow the points, also through the
    frames in which [updatePoints] finds that nothing moved and skips the
    refresh. *)
Theorem drawables_follow_points events :
  let s := DelaunayApp.run cfg random events initial in
  ∀ meshObj, meshObj ∈ meshes s →
    positionAttr meshObj =
    coordinates (lineVertices (getTriangleVertices (heap s) (triangle meshObj))) ∧
    length (positionAttr meshObj) = 18%nat.
Proof.
  intros s meshObj Hin.
  pose proof (coherent_run cfg random events initial coherent_initial) as Hc.
  fold s in Hc. rewrite (coh_sync s Hc meshObj Hin). done.
Qed.

(** X13.  In every state the application reaches, the colour of every
    drawable is a pastel colour: each of its three channels is between 128
    and 255. *)
Theorem drawables_are_pastel events :
  let s := DelaunayApp.run cfg random events initial in
  ∀ meshObj, meshObj ∈ meshes s →
    (128 <= red (materialColor meshObj) <= 255)%Z ∧
    (128 <= green (materialColor meshObj) <= 255)%Z ∧
    (128 <= blue (materialColor meshObj) <= 255)%Z.
Proof.
  intros s meshObj Hin.
  pose proof (coherent_run cfg random events initial coherent_initial) as Hc.
  fold s in Hc.
  destruct (tidy_drawables s (coh_tidy s Hc) meshObj Hin) as (_ & _ & _ & _ & _ & _ & _ & Hseed).
  unfold materialColor.
  destruct (generatePastelColor_packed (colorSeed meshObj) ltac:(lia))
    as (Hr & Hg & Hb & _ & Er & Eg & Eb).
  cbv zeta in *. rewrite Er, Eg, Eb. lia.
Qed.

Lemma run_points_length events :
  (length (points (DelaunayApp.run cfg random events initial))
   ≤ Nat.max 1 (MAX_POINTS cfg))%nat.
Proof.
  induction events as [|e events IH] using rev_ind; [simpl; lia|].
  unfold DelaunayApp.run in *. rewrite fold_left_app. cbn [fold_left].
  set (s := fold_left (DelaunayApp.handle cfg random) events initial) in *.
  destruct e as [iw ih x y|w h|]; cbn [DelaunayApp.handle].
  - unfold InputHandler.handleMouseDown. cbv zeta.
    rewrite applyRepulsion_points. by apply addPoint_length.
  - by rewrite updatePoints_points.
  - by rewrite calculateAndDraw_points.
Qed.

End Reachable.

Section ReachableExamples.

Import DelaunayTriangulation PointManager.

(** Three presses in a row leave one drawable: its buffer and its colour. *)
Lemma drawables_follow_points_witness :
  let s := DelaunayApp.run constants noNoise threePressesInARow initial in
  ∃ meshObj, meshes s = [meshObj] ∧
    positionAttr meshObj =
      coordinates (lineVertices (getTriangleVertices (heap s) (triangle meshObj))) ∧
    length (positionAttr meshObj) = 18%nat.
Proof.
  intros s.
  assert (Hts : map triangle (meshes s) = [mkTriangle 2 3 4]).
  { rewrite (coh_meshes s (coherent_run constants noNoise threePressesInARow initial
                             coherent_initial)).
    reflexivity. }
  destruct (meshes s) as [|meshObj [|? ?]] eqn:Hms; [done| |done].
  exists meshObj. split; [done|].
  apply (drawables_follow_points constants noNoise threePressesInARow).
  fold s. rewrite Hms. by left.
Defined.

Lemma drawables_are_pastel_witness :
  let s := DelaunayApp.run constants noNoise threePressesInARow initial in
  ∃ meshObj, meshes s = [meshObj] ∧
    (128 <= red (materialColor meshObj) <= 255)%Z ∧
    (128 <= green (materialColor meshObj) <= 255)%Z ∧
    (128 <= blue (materialColor meshObj) <= 255)%Z.
Proof.
  intros s.
  assert (Hts : map triangle (meshes s) = [mkTriangle 2 3 4]).
  { rewrite (coh_meshes s (coherent_run constants noNoise threePressesInARow initial
                             coherent_initial)).
    reflexivity. }
  destruct (meshes s) as [|meshObj [|? ?]] eqn:Hms; [done| |done].
  exists meshObj. split; [done|].
  apply (drawables_are_pastel constants noNoise threePressesInARow).
  fold s. rewrite Hms. by left.
Defined.

End ReachableExamples.

(** X14.  The application never holds more points than [MAX_POINTS] (one
    point if [MAX_POINTS] is 0), nor more triangles and drawables than the
    index triples of that many points: with the constants of Constants.js,
    at most 30 points and 4060 triangles and drawables. *)
Theorem resources_are_bounded cfg random events :
  let s := DelaunayApp.run cfg random events initial in
  let n := Nat.max 1 (MAX_POINTS cfg) in
  let s0 := DelaunayApp.run constants random events initial in
  ((length (points s) ≤ n)%nat ∧
   (6 * length (triangles s) ≤ n * (n - 1) * (n - 2))%nat ∧
   length (meshes s) = length (triangles s)) ∧
  ((length (points s0) ≤ 30)%nat ∧ (length (triangles s0) ≤ 4060)%nat ∧
   (length (meshes s0) ≤ 4060)%nat).
Proof.
  assert (Hgen : ∀ cfg,
            let s := DelaunayApp.run cfg random events initial in
            let n := Nat.max 1 (MAX_POINTS cfg) in
            (length (points s) ≤ n)%nat ∧
            (6 * length (triangles s) ≤ n * (n - 1) * (n - 2))%nat ∧
            length (meshes s) = length (triangles s)).
  { clear cfg. intros cfg s n.
    pose proof (coherent_run cfg random events initial coherent_initial) as Hc.
    fold s in Hc. pose proof (run_points_length cfg random events) as Hlen.
    fold s n in Hlen. pose proof (coh_count s Hc) as Hcount.
    assert (Hmono : (length (points s) * (length (points s) - 1) * (length (points s) - 2)
                     ≤ n * (n - 1) * (n - 2))%nat).
    { apply Nat.mul_le_mono; [apply Nat.mul_le_mono|]; lia. }
    split; [done|]. split; [lia|]. by rewrite <- (coh_meshes s Hc), length_map. }
  intros s n s0. split; [apply Hgen|].
  destruct (Hgen constants) as (H1 & H2 & H3). fold s0 in H1, H2, H3.
  change (Nat.max 1 (MAX_POINTS constants)) with 30%nat in H1, H2.
  change (30 * (30 - 1) * (30 - 2))%nat with (6 * 4060)%nat in H2.
  split; [done|]. split; [lia|]. rewrite H3. lia.
Qed.

Section Disposal.

Import DelaunayTriangulation PointManager.

Lemma removePoints_scene pts s l :
  l ∈ scene (fold_left (fun s point => removePoint (Some point) s) pts s)
  ↔ l ∈ scene s ∧ l ∉ pts.
Proof.
  revert s. induction pts as [|p pts IH]; intros s; cbn [fold_left].
  - split; [intros H; split; [done|apply not_elem_of_nil]|by intros [? _]].
  - rewrite IH. cbn [removePoint]. state_simpl.
    rewrite not_elem_of_cons, elem_of_difference, elem_of_singleton. tauto.
Qed.

Lemma removePoints_preserves {C} (proj : State → C) pts s :
  (∀ hp s, proj (set_heap hp s) = proj s) →
  (∀ sc s, proj (set_scene sc s) = proj s) →
  proj (fold_left (fun s point => removePoint (Some point) s) pts s) = proj s.
Proof.
  intros Hh Hs. apply (fold_left_preserves _ proj).
  intros a b. cbn [removePoint]. by rewrite Hh, Hs.
Qed.

Lemma removePoints_heap pts s p :
  heap (fold_left (fun s point => removePoint (Some point) s) pts s) !! p =
  if decide (p ∈ pts)
  then (fun m => mkMesh (position_x m) (position_y m) None) <$> heap s !! p
  else heap s !! p.
Proof.
  revert s. induction pts as [|q pts IH]; intros s; cbn [fold_left].
  - by rewrite decide_False by apply not_elem_of_nil.
  - rewrite IH. cbn [removePoint]. state_simpl. rewrite lookup_alter.
    destruct (decide (p = q)) as [->|Hne].
    + rewrite (decide_True (P := q = q)) by done.
      rewrite (decide_True (P := q ∈ q :: pts)) by (by left).
      case_decide; [|done]. by destruct (heap s !! q).
    + rewrite (decide_False (P := q = p)) by done. case_decide as Hin.
      * rewrite decide_True by (by right). done.
      * rewrite decide_False; [done|]. rewrite not_elem_of_cons. tauto.
Qed.

Lemma PointManager_dispose_scene s l :
  l ∈ scene (PointManager.dispose s) ↔ l ∈ scene s ∧ l ∉ points s.
Proof. unfold PointManager.dispose. cbv zeta. state_simpl. apply removePoints_scene. Qed.

Lemma PointManager_dispose_disposed s l :
  l ∈ disposed (PointManager.dispose s) ↔
  l = pointMaterial s ∨ l = pointGeometry s ∨ l ∈ disposed s.
Proof.
  unfold PointManager.dispose. cbv zeta. state_simpl.
  rewrite !elem_of_union, !elem_of_singleton.
  by rewrite (removePoints_preserves pointMaterial), (removePoints_preserves pointGeometry),
             (removePoints_preserves disposed).
Qed.

Lemma PointManager_dispose_preserves {C} (proj : State → C) s :
  (∀ hp s, proj (set_heap hp s) = proj s) →
  (∀ sc s, proj (set_scene sc s) = proj s) →
  (∀ ps s, proj (set_points ps s) = proj s) →
  (∀ d s, proj (set_disposed d s) = proj s) →
  proj (PointManager.dispose s) = proj s.
Proof.
  intros Hh Hs Hp Hd. unfold PointManager.dispose. cbv zeta.
  rewrite Hd, Hp. by apply removePoints_preserves.
Qed.

Lemma DelaunayApp_dispose_scene s : tidy s → scene (DelaunayApp.dispose s) = ∅.
Proof.
  intros Ht. apply set_eq. intros l. rewrite elem_of_empty.
  unfold DelaunayApp.dispose. rewrite PointManager_dispose_scene.
  unfold DelaunayTriangulation.dispose. state_simpl.
  rewrite clearTriangleMeshes_scene, clearTriangleMeshes_points, (tidy_scene s Ht). tauto.
Qed.

Lemma DelaunayApp_dispose_empty s :
  points (DelaunayApp.dispose s) = [] ∧ triangles (DelaunayApp.dispose s) = [] ∧
  meshes (DelaunayApp.dispose s) = [].
Proof.
  unfold DelaunayApp.dispose. split; [done|]. split.
  - by rewrite (PointManager_dispose_preserves triangles).
  - rewrite (PointManager_dispose_preserves meshes) by done.
    unfold DelaunayTriangulation.dispose. state_simpl. apply clearTriangleMeshes_meshes.
Qed.

(** X15.  [dispose] called in any state the application has reached
    leaves nothing behind: the scene is empty, there is no point, no
    triangle and no drawable left, the geometry and the material of every
    drawable and those of the points were disposed of, and every mesh that
    was a live point had its [userData] cleared. *)
Theorem dispose_releases_everything cfg random events :
  let s := DelaunayApp.run cfg random events initial in
  let s' := DelaunayApp.dispose s in
  scene s' = ∅ ∧ points s' = [] ∧ triangles s' = [] ∧ meshes s' = [] ∧
  (∀ meshObj, meshObj ∈ meshes s →
     geometry meshObj ∈ disposed s' ∧ material meshObj ∈ disposed s') ∧
  pointGeometry s ∈ disposed s' ∧ pointMaterial s ∈ disposed s' ∧
  (∀ p, p ∈ points s → ∃ m, heap s' !! p = Some m ∧ userData m = None).
Proof.
  intros s s'. pose proof (coherent_run cfg random events initial coherent_initial) as Hc.
  fold s in Hc. pose proof (coh_tidy s Hc) as Ht.
  set (s1 := DelaunayTriangulation.dispose s).
  assert (Hpts1 : points s1 = points s)
    by (unfold s1, DelaunayTriangulation.dispose; state_simpl;
        apply clearTriangleMeshes_points).
  assert (Hd1 : ∀ l, l ∈ disposed s1 ↔
            l ∈ disposed s ∨ l ∈ map geometry (meshes s) ∨ l ∈ map material (meshes s))
    by (intros l; unfold s1, DelaunayTriangulation.dispose; state_simpl;
        apply clearTriangleMeshes_disposed).
  assert (Hdisp : ∀ l, l ∈ disposed s1 → l ∈ disposed s').
  { intros l Hl. unfold s', DelaunayApp.dispose. fold s1.
    rewrite PointManager_dispose_disposed. tauto. }
  destruct (DelaunayApp_dispose_empty s) as (Hp' & Ht' & Hm').
  split; [by apply DelaunayApp_dispose_scene|].
  split; [done|]. split; [done|]. split; [done|]. split; [|split; [|split]].
  - intros meshObj Hin. split; apply Hdisp, Hd1; right; [left|right];
      apply list_elem_of_fmap; by exists meshObj.
  - unfold s', DelaunayApp.dispose. fold s1. rewrite PointManager_dispose_disposed.
    right. left. unfold s1, DelaunayTriangulation.dispose. state_simpl.
    symmetry. by apply (clearTriangleMeshes_preserves pointGeometry).
  - unfold s', DelaunayApp.dispose. fold s1. rewrite PointManager_dispose_disposed.
    left. unfold s1, DelaunayTriangulation.dispose. state_simpl.
    symmetry. by apply (clearTriangleMeshes_preserves pointMaterial).
  - intros p Hp.
    destruct (wf_points_live s (tidy_wf s Ht) p Hp) as (m & _ & Hm & _).
    exists (mkMesh (position_x m) (position_y m) None). split; [|done].
    unfold s', DelaunayApp.dispose, PointManager.dispose. cbv zeta. state_simpl.
    rewrite removePoints_heap. fold s1. rewrite Hpts1, decide_True by done.
    unfold s1, DelaunayTriangulation.dispose. state_simpl.
    by rewrite clearTriangleMeshes_heap, Hm.
Qed.

(** A drawable stays in the table, with its objects, until its geometry
    and material are disposed of. *)
Lemma drawable_kept_or_released cfg random events s g m :
  ((∃ meshObj, meshObj ∈ meshes s ∧ geometry meshObj = g ∧ material meshObj = m) ∨
   (g ∈ disposed s ∧ m ∈ disposed s)) →
  (∃ meshObj, meshObj ∈ meshes (DelaunayApp.run cfg random events s) ∧
              geometry meshObj = g ∧ material meshObj = m) ∨
  (g ∈ disposed (DelaunayApp.run cfg random events s) ∧
   m ∈ disposed (DelaunayApp.run cfg random events s)).
Proof.
  unfold DelaunayApp.run. revert s.
  induction events as [|e events IH]; intros s HQ; [done|].
  cbn [fold_left]. apply IH. clear IH.
  assert (Hcad : ∀ s0, meshes s0 = meshes s → disposed s0 = disposed s →
            g ∈ disposed (calculateAndDraw s0) ∧ m ∈ disposed (calculateAndDraw s0)).
  { intros s0 Hms Hds. rewrite !calculateAndDraw_disposed, Hms, Hds.
    destruct HQ as [(meshObj & Hin & <- & <-)|[Hg Hm]]; [|tauto].
    split; right; [left|right]; apply list_elem_of_fmap; by exists meshObj. }
  destruct e as [iw ih x y|w h|]; cbn [DelaunayApp.handle].
  - unfold InputHandler.handleMouseDown. cbv zeta. rewrite applyRepulsion_loop.
    set (s0 := repulsionLoop cfg _ _).
    assert (Hms : meshes s0 = meshes s).
    { unfold s0. rewrite (repulsionLoop_preserves meshes) by done. apply addPoint_meshes. }
    assert (Hds : disposed s0 = disposed s).
    { unfold s0. rewrite (repulsionLoop_preserves disposed) by done.
      by apply (addPoint_preserves disposed). }
    destruct (_ && _); [right; by apply Hcad|]. by rewrite Hms, Hds.
  - rewrite updatePoints_disposed.
    destruct HQ as [(meshObj & Hin & <- & <-)|HQ]; [left|by right].
    apply list_elem_of_lookup in Hin as [j Hj].
    destruct (Forall2_lookup_r _ _ _ _ _ (updatePoints_sameDrawable cfg random w h s) Hj)
      as (new & Hnew & _ & Eg & Em & _).
    exists new. split; [by eapply list_elem_of_lookup_2|done].
  - right. by apply Hcad.
Qed.

(** X16.  Every drawable the application ever had in its table is released
    by the time [dispose] returns, whatever happened in between: its
    geometry and its material were disposed of, and its line is not in the
    scene. *)
Theorem every_drawable_is_released cfg random events1 events2 meshObj :
  meshObj ∈ meshes (DelaunayApp.run cfg random events1 initial) →
  let s' := DelaunayApp.dispose
              (DelaunayApp.run cfg random events2
                 (DelaunayApp.run cfg random events1 initial)) in
  geometry meshObj ∈ disposed s' ∧ material meshObj ∈ disposed s' ∧
  line meshObj ∉ scene s'.
Proof.
  intros Hin s'.
  set (s1 := DelaunayApp.run cfg random events1 initial) in *.
  set (s2 := DelaunayApp.run cfg random events2 s1) in *.
  assert (Hc2 : coherent s2).
  { unfold s2, s1. apply coherent_run, coherent_run, coherent_initial. }
  pose proof (coh_tidy s2 Hc2) as Ht2.
  assert (Hd : geometry meshObj ∈ disposed s' ∧ material meshObj ∈ disposed s').
  { unfold s', DelaunayApp.dispose. rewrite !PointManager_dispose_disposed.
    unfold DelaunayTriangulation.dispose. state_simpl.
    rewrite !clearTriangleMeshes_disposed.
    destruct (drawable_kept_or_released cfg random events2 s1
                (geometry meshObj) (material meshObj)) as [(kept & Hk & Eg & Em)|[Hg Hm]].
    - left. by exists meshObj.
    - rewrite <- Eg, <- Em.
      split; right; right; right; [left|right]; apply list_elem_of_fmap; by exists kept.
    - fold s2 in Hg, Hm. tauto. }
  split; [apply Hd|]. split; [apply Hd|].
  unfold s', DelaunayApp.dispose. rewrite PointManager_dispose_scene.
  unfold DelaunayTriangulation.dispose. state_simpl.
  rewrite clearTriangleMeshes_scene, clearTriangleMeshes_points, (tidy_scene s2 Ht2).
  tauto.
Qed.

Lemma every_drawable_is_released_witness :
  let s1 := DelaunayApp.run constants noNoise threePressesInARow initial in
  let s' := DelaunayApp.dispose
              (DelaunayApp.run constants noNoise [WindowResize; AnimationFrame 800 600] s1) in
  ∃ meshObj, meshes s1 = [meshObj] ∧ triangle meshObj = mkTriangle 2 3 4 ∧
             geometry meshObj ∈ disposed s' ∧ material meshObj ∈ disposed s' ∧
             line meshObj ∉ scene s'.
Proof.
  intros s1 s'.
  assert (Hts : map triangle (meshes s1) = [mkTriangle 2 3 4]).
  { rewrite (coh_meshes s1 (coherent_run constants noNoise threePressesInARow initial
                              coherent_initial)).
    reflexivity. }
  destruct (meshes s1) as [|meshObj [|? ?]] eqn:Hms; [done| |done].
  exists meshObj. split; [done|]. split; [by injection Hts|].
  apply (every_drawable_is_released constants noNoise threePressesInARow
           [WindowResize; AnimationFrame 800 600]).
  fold s1. rewrite Hms. by left.
Defined.

(** X17.  [dispose] can be called again: a second call changes nothing. *)
Theorem dispose_twice s :
  DelaunayApp.dispose (DelaunayApp.dispose s) = DelaunayApp.dispose s.
Proof.
  unfold DelaunayApp.dispose.
  set (s1 := PointManager.dispose (DelaunayTriangulation.dispose s)).
  assert (Hpts : points s1 = []) by done.
  assert (Hms : meshes s1 = []).
  { unfold s1. rewrite (PointManager_dispose_preserves meshes) by done.
    unfold DelaunayTriangulation.dispose. state_simpl. apply clearTriangleMeshes_meshes. }
  assert (Hts : triangles s1 = []).
  { unfold s1. by rewrite (PointManager_dispose_preserves triangles). }
  assert (Hd : {[pointMaterial s1]} ∪ ({[pointGeometry s1]} ∪ disposed s1) = disposed s1).
  { apply set_eq. intros l. rewrite !elem_of_union, !elem_of_singleton.
    pose proof (PointManager_dispose_disposed (DelaunayTriangulation.dispose s) l) as Hl.
    fold s1 in Hl.
    assert (pointMaterial s1 = pointMaterial (DelaunayTriangulation.dispose s)) as ->
      by (by apply (PointManager_dispose_preserves pointMaterial)).
    assert (pointGeometry s1 = pointGeometry (DelaunayTriangulation.dispose s)) as ->
      by (by apply (PointManager_dispose_preserves pointGeometry)).
    tauto. }
  unfold DelaunayTriangulation.dispose at 1, clearTriangleMeshes, PointManager.dispose at 1.
  cbv zeta. state_simpl. rewrite Hms. cbn [fold_left]. state_simpl.
  rewrite Hpts. cbn [fold_left]. state_simpl. rewrite Hd.
  destruct s1 as [hp n sc d rc ps la tr pg pm ts ms]. state_simpl. by subst.
Qed.

End Disposal.

(** * AudioManager *)

Section Audio.

Import AudioManager.

Lemma orString_custom o :
  orString (type o) "sine" = "custom" ↔ type o = Some "custom".
Proof.
  unfold orString. destruct (type o) as [v|]; [|split; discriminate].
  case_decide as Hv; [subst v; split; discriminate|].
  split; [by intros ->|by intros [= ->]].
Qed.

(** The two ways in which [playOscillator] ends: it throws, with two nodes
    created and nothing else changed, when there are no options or their
    type is 'custom'; otherwise it returns with the nodes configured,
    tracked and timed. *)
Lemma playOscillator_cases options a :
  ((options = None ∨ ∃ o, options = Some o ∧ type o = Some "custom") ∧
   playOscillator options a =
     (mkAudio (context a) (closed a) (activeNodes a) (effects a)
        (<[S (nextNode a) := mkNode (GainNode 1) false false]>
           (<[nextNode a := mkNode (OscillatorNode "sine" 440) false false]> (nodes a)))
        (S (S (nextNode a))) (timers a), Threw)) ∨
  (∃ o t, options = Some o ∧ type o ≠ Some "custom" ∧
     setType (orString (type o) "sine") "sine" = Returned t ∧
     playOscillator options a =
       (mkAudio (context a) (closed a)
          ({[S (nextNode a)]} ∪ ({[nextNode a]} ∪ activeNodes a)) (effects a)
          (<[S (nextNode a) := mkNode (GainNode (orNumber (volume o) 0.5)) false true]>
             (<[nextNode a :=
                  mkNode (OscillatorNode t (orNumber (frequency o) 440)) true true]>
                (nodes a)))
          (S (S (nextNode a)))
          (timers a ++ [mkTimer (orNumber (duration o) 500) (nextNode a) (S (nextNode a))]),
        Returned tt)).
Proof.
  unfold playOscillator. destruct options as [o|]; [|left; split; [by left|done]].
  destruct (setType (orString (type o) "sine") "sine") as [t|] eqn:Hset.
  - right. exists o, t. split; [done|]. split; [|done].
    intros Hcustom%orString_custom. unfold setType in Hset.
    by rewrite decide_True in Hset.
  - left. split; [|done]. right. exists o. split; [done|]. apply orString_custom.
    unfold setType in Hset. case_decide; [done|].
    by destruct (isWaveform (orString (type o) "sine")).
Qed.

(** X18.  How [play] ends.  It returns true exactly when the context
    exists and the effect is defined with type 'oscillator' and has options
    whose type is not 'custom': the two new nodes are then tracked and one
    timeout is pending.  It returns false when the context is missing, the
    effect is not defined or its type is not 'oscillator', and then the
    manager is unchanged.  It throws when an oscillator effect has no
    options or options of type 'custom', and when the name is 'options' and
    finds the options of a definition stored under '__proto__' with type
    'oscillator'; then nothing is tracked and no timeout is left. *)
Theorem play_outcome effectName a :
  match (play effectName a).2 with
  | Returned true =>
      context a = true ∧
      ∃ effect o,
        effects a !! effectName = Some effect ∧
        effect_type effect = Some "oscillator" ∧ options effect = Some o ∧
        type o ≠ Some "custom" ∧
        activeNodes (play effectName a).1
          = {[S (nextNode a)]} ∪ ({[nextNode a]} ∪ activeNodes a) ∧
        timers (play effectName a).1
          = timers a ++ [mkTimer (orNumber (duration o) 500) (nextNode a) (S (nextNode a))]
  | Returned false =>
      (play effectName a).1 = a ∧
      (context a = false ∨
       (effects a !! effectName = None ∧ inheritedOscillator effectName a = false) ∨
       ∃ effect, effects a !! effectName = Some effect ∧
                 effect_type effect ≠ Some "oscillator")
  | Threw =>
      context a = true ∧
      ((∃ effect, effects a !! effectName = Some effect ∧
                  effect_type effect = Some "oscillator" ∧
                  (options effect = None ∨
                   ∃ o, options effect = Some o ∧ type o = Some "custom")) ∨
       (effects a !! effectName = None ∧ effectName = "options" ∧
        ∃ definition o, effects a !! "__proto__" = Some definition ∧
                        options definition = Some o ∧ type o = Some "oscillator")) ∧
      activeNodes (play effectName a).1 = activeNodes a ∧
      timers (play effectName a).1 = timers a
  end.
Proof.
  unfold play. destruct (context a) eqn:Hctx; cbn [negb]; [|cbn; tauto].
  destruct (effects a !! effectName) as [effect|] eqn:Heff.
  - case_decide as Htype; [|cbn; split; [done|]; right; right; by exists effect].
    destruct (playOscillator_cases (options effect) a)
      as [[Hopt ->]|(o & t & Hopt & Hcustom & _ & ->)]; cbn [fst snd].
    + split; [done|]. split; [|done]. left. by exists effect.
    + split; [done|]. by exists effect, o.
  - destruct (inheritedOscillator effectName a) eqn:Hin; [|cbn; tauto].
    destruct (playOscillator_cases None a)
      as [[_ ->]|(o & t & [=] & _)]; cbn [fst snd].
    split; [done|]. split; [|done]. right. split; [done|].
    unfold inheritedOscillator in Hin. case_decide as Hname; [|done]. split; [done|].
    destruct (effects a !! "__proto__") as [definition|]; [|done].
    destruct (options definition) as [o|] eqn:Hopt; [|done].
    apply bool_decide_eq_true in Hin. by exists definition, o.
Qed.

(** X19.  The fallbacks of [playOscillator].  With options whose type is
    not 'custom', the oscillator gets the frequency and the gain of the
    options, and 440 and 0.5 where the option is missing, and also where it
    is 0: a volume of 0 gives a gain of 0.5, not silence, and a duration of
    0 a timeout of 500.  Its type is the one of the options if that is a
    wave form, and 'sine' if it is missing, empty or any other string. *)
Theorem playOscillator_fallbacks o a :
  type o ≠ Some "custom" →
  let a' := (playOscillator (Some o) a).1 in
  nodes a' !! nextNode a
    = Some (mkNode (OscillatorNode
                      (if isWaveform (orString (type o) "sine")
                       then orString (type o) "sine" else "sine")
                      (orNumber (frequency o) 440))
                   true true) ∧
  nodes a' !! S (nextNode a)
    = Some (mkNode (GainNode (orNumber (volume o) 0.5)) false true) ∧
  last (timers a') = Some (mkTimer (orNumber (duration o) 500) (nextNode a) (S (nextNode a))) ∧
  (∀ fallback, orNumber (Some 0) fallback = fallback ∧ orNumber None fallback = fallback) ∧
  (∀ fallback, orString (Some "") fallback = fallback ∧ orString None fallback = fallback) ∧
  (∀ v fallback, v ≠ 0 → orNumber (Some v) fallback = v) ∧
  (∀ v fallback, v ≠ "" → orString (Some v) fallback = v).
Proof.
  intros Hcustom a'. unfold a'.
  destruct (playOscillator_cases (Some o) a)
    as [[[[=]|(o' & [= <-] & Ho')] _]|(o' & t & [= <-] & _ & Hset & ->)]; [done|].
  cbn [fst nodes timers].
  assert (t = if isWaveform (orString (type o) "sine")
              then orString (type o) "sine" else "sine") as <-.
  { unfold setType in Hset. case_decide; [done|].
    by destruct (isWaveform (orString (type o) "sine")); injection Hset. }
  split; [by rewrite lookup_insert_ne, lookup_insert_eq by lia|].
  split; [by rewrite lookup_insert_eq|].
  split; [by rewrite last_snoc|].
  unfold orNumber, orString.
  split; [intros fallback; by rewrite decide_True|].
  split; [intros fallback; by rewrite decide_True|].
  split; intros v fallback Hv; by rewrite decide_False.
Qed.

(** A concrete call: options with a volume of 0 and the type 'noise'. *)
Lemma playOscillator_fallbacks_witness :
  let o := mkOptions (Some "noise") None (Some 0) None in
  nodes (playOscillator (Some o) (constructor true)).1 !! 0%nat
    = Some (mkNode (OscillatorNode "sine" 440) true true) ∧
  nodes (playOscillator (Some o) (constructor true)).1 !! 1%nat
    = Some (mkNode (GainNode 0.5) false true).
Proof.
  intros o.
  assert (Hcustom : type o ≠ Some "custom") by discriminate.
  destruct (playOscillator_fallbacks o (constructor true) Hcustom) as (H0 & H1 & _).
  split; [exact H0|].
  etransitivity; [exact H1|]. unfold orNumber, o. cbn [volume]. by rewrite decide_True.
Defined.

Lemma timerNodes_app ts1 ts2 : timerNodes (ts1 ++ ts2) = timerNodes ts1 ++ timerNodes ts2.
Proof. unfold timerNodes. apply bind_app. Qed.

Lemma timerNodes_cons t ts :
  timerNodes (t :: ts) = timer_oscillator t :: timer_gainNode t :: timerNodes ts.
Proof. done. Qed.

Lemma tracked_constructor supported : tracked (constructor supported).
Proof.
  split; cbn.
  - intros l. rewrite elem_of_empty, elem_of_nil. tauto.
  - constructor.
  - intros l. by intros ?%elem_of_nil.
  - intros l. by intros ?%elem_of_empty.
Qed.

Lemma tracked_playOscillator options a :
  tracked a → tracked (playOscillator options a).1.
Proof.
  intros Ht.
  assert (Hfresh : ∀ l, l ∈ activeNodes a → (l < nextNode a)%nat).
  { intros l Hl. by apply (tracked_fresh a Ht), (tracked_active a Ht). }
  destruct (playOscillator_cases options a) as [[_ ->]|(o & t & _ & _ & _ & ->)];
    cbn [fst].
  - split; cbn [activeNodes timers nextNode nodes].
    + apply (tracked_active a Ht).
    + apply (tracked_NoDup a Ht).
    + intros l Hl. pose proof (tracked_fresh a Ht l Hl). lia.
    + intros l Hl. pose proof (Hfresh l Hl). rewrite !lookup_insert_ne by lia.
      by apply (tracked_connected a Ht).
  - split; cbn [activeNodes timers nextNode nodes].
    + intros l. rewrite timerNodes_app, elem_of_app, <- (tracked_active a Ht).
      cbn. rewrite !elem_of_union, !elem_of_singleton, !elem_of_cons, elem_of_nil. tauto.
    + rewrite timerNodes_app. apply NoDup_app. split; [apply (tracked_NoDup a Ht)|].
      split.
      * intros l Hl. pose proof (tracked_fresh a Ht l Hl). cbn.
        rewrite !elem_of_cons, elem_of_nil. lia.
      * cbn. apply NoDup_cons. split; [|apply NoDup_singleton].
        rewrite list_elem_of_singleton. lia.
    + intros l. rewrite timerNodes_app, elem_of_app. cbn.
      rewrite !elem_of_cons, elem_of_nil.
      intros [Hl|[->|[->|[]]]]; [|lia..]. pose proof (tracked_fresh a Ht l Hl). lia.
    + intros l. rewrite !elem_of_union, !elem_of_singleton.
      intros [->|[->|Hl]].
      * rewrite lookup_insert_eq. by eexists.
      * rewrite lookup_insert_ne, lookup_insert_eq by lia. by eexists.
      * pose proof (Hfresh l Hl). rewrite !lookup_insert_ne by lia.
        by apply (tracked_connected a Ht).
Qed.

(** [play] changes the manager through [playOscillator] only. *)
Lemma play_state effectName a :
  (play effectName a).1 = a ∨
  ∃ options, (play effectName a).1 = (playOscillator options a).1.
Proof.
  unfold play. destruct (negb (context a)); [by left|].
  destruct (effects a !! effectName) as [effect|].
  - case_decide; [|by left]. right. exists (options effect).
    by destruct (playOscillator (options effect) a) as [a' [[]|]].
  - destruct (inheritedOscillator effectName a); [|by left]. right. exists None.
    by destruct (playOscillator None a) as [a' [[]|]].
Qed.

Lemma playOscillator_unchanged options a :
  context (playOscillator options a).1 = context a ∧
  closed (playOscillator options a).1 = closed a ∧
  effects (playOscillator options a).1 = effects a.
Proof.
  by destruct (playOscillator_cases options a) as [[_ ->]|(o & t & _ & _ & _ & ->)].
Qed.

Lemma play_unchanged effectName a :
  context (play effectName a).1 = context a ∧
  closed (play effectName a).1 = closed a ∧
  effects (play effectName a).1 = effects a.
Proof.
  destruct (play_state effectName a) as [->|[options ->]]; [done|].
  apply playOscillator_unchanged.
Qed.

Lemma tracked_play effectName a : tracked a → tracked (play effectName a).1.
Proof.
  intros Ht. destruct (play_state effectName a) as [->|[options ->]]; [done|].
  by apply tracked_playOscillator.
Qed.

Lemma tracked_timerFires i a : tracked a → tracked (timerFires i a).
Proof.
  intros Ht. unfold timerFires. destruct (timers a !! i) as [t|] eqn:Hi; [|done].
  pose proof (tracked_NoDup a Ht) as Hnd.
  assert (Hsplit : timers a = take i (timers a) ++ t :: drop (S i) (timers a))
    by (symmetry; by apply take_drop_middle).
  assert (Hdel : delete i (timers a) = take i (timers a) ++ drop (S i) (timers a))
    by apply delete_take_drop.
  rewrite Hsplit, timerNodes_app, timerNodes_cons in Hnd.
  apply NoDup_app in Hnd as (Hnd1 & Hdisj & Hnd2).
  apply NoDup_cons in Hnd2 as (Hosc & Hnd2). apply NoDup_cons in Hnd2 as (Hgain & Hnd2).
  assert (Hin : ∀ l, l ∈ timerNodes (delete i (timers a)) ↔
            l ∈ timerNodes (timers a) ∧ l ≠ timer_oscillator t ∧ l ≠ timer_gainNode t).
  { intros l. rewrite Hdel. rewrite Hsplit at 3.
    rewrite !timerNodes_app, timerNodes_cons, !elem_of_app, !elem_of_cons.
    split.
    - intros [Hl|Hl].
      + split; [by left|]. specialize (Hdisj l Hl).
        rewrite !not_elem_of_cons in Hdisj. tauto.
      + split; [tauto|]. split; intros ->; [|done].
        apply Hosc. by right.
    - tauto. }
  split; cbn [activeNodes timers nextNode nodes].
  - intros l. rewrite Hin, !elem_of_difference, !elem_of_singleton.
    rewrite (tracked_active a Ht). tauto.
  - rewrite Hdel, timerNodes_app. apply NoDup_app. split; [done|]. split; [|done].
    intros l Hl Hl'. apply (Hdisj l Hl). by do 2 right.
  - intros l [Hl _]%Hin. by apply (tracked_fresh a Ht).
  - intros l. rewrite !elem_of_difference, !elem_of_singleton. intros [[Hl Ho] Hg].
    rewrite !lookup_alter_ne by done. by apply (tracked_connected a Ht).
Qed.

Lemma tracked_run ops a : tracked a → tracked (audioRun ops a).
Proof.
  unfold audioRun. revert a. induction ops as [|op ops IH]; intros a Ht; [done|].
  cbn [fold_left]. apply IH. destruct op; cbn [audioStep].
  - by apply tracked_play.
  - by destruct Ht.
  - by apply tracked_timerFires.
Qed.

(** X20.  Whatever is played, defined and timed out on a new manager, the
    nodes in [activeNodes] are exactly the nodes the pending timeouts will
    release, each of them connected and owned by one timeout: when no
    timeout is pending, no node is active. *)
Theorem active_nodes_are_pending supported ops :
  let a := audioRun ops (constructor supported) in
  (∀ l, l ∈ activeNodes a ↔ l ∈ timerNodes (timers a)) ∧
  NoDup (timerNodes (timers a)) ∧
  (∀ l, l ∈ activeNodes a → ∃ n, nodes a !! l = Some n ∧ connected n = true) ∧
  length (timerNodes (timers a)) = (2 * length (timers a))%nat ∧
  (timers a = [] ↔ activeNodes a = ∅).
Proof.
  intros a. pose proof (tracked_run ops _ (tracked_constructor supported)) as Ht.
  fold a in Ht. destruct Ht as [Hact Hnd Hfresh Hconn].
  split; [done|]. split; [done|]. split; [done|]. split.
  - generalize (timers a). intros ts. induction ts as [|t ts IH]; [done|].
    rewrite timerNodes_cons. cbn [length]. rewrite IH. lia.
  - split.
    + intros Hts. apply set_eq. intros l. rewrite Hact, Hts, elem_of_empty.
      cbn. rewrite elem_of_nil. tauto.
    + intros Hempty. destruct (timers a) as [|t ts] eqn:Hts; [done|]. exfalso.
      assert (timer_oscillator t ∈ activeNodes a) as Hin
        by (rewrite Hact, timerNodes_cons; by left).
      rewrite Hempty in Hin. by apply elem_of_empty in Hin.
Qed.

Lemma dispose_nodes a l :
  (l ∈ activeNodes a →
   nodes (dispose a) !! l = (fun n => disconnect (stop n)) <$> nodes a !! l) ∧
  (l ∉ activeNodes a → nodes (dispose a) !! l = nodes a !! l).
Proof.
  unfold dispose. cbn [nodes].
  apply (set_fold_ind_L
           (fun (ns : gmap loc Node) (X : gset loc) =>
              (l ∈ X → ns !! l = (fun n => disconnect (stop n)) <$> nodes a !! l) ∧
              (l ∉ X → ns !! l = nodes a !! l))).
  - split; [by intros ?%elem_of_empty|done].
  - intros x X ns Hx [IH1 IH2]. rewrite elem_of_union, elem_of_singleton, lookup_alter.
    destruct (decide (x = l)) as [->|Hne].
    + split; [intros _; by rewrite IH2|tauto].
    + split; [intros [?|?]; [by subst|by apply IH1]|intros ?; apply IH2; tauto].
Qed.

Lemma audioRun_closed ops a : closed (audioRun ops a) = closed a.
Proof.
  unfold audioRun. revert a. induction ops as [|op ops IH]; intros a; [done|].
  cbn [fold_left]. rewrite IH. destruct op; cbn [audioStep]; [|done|].
  - apply play_unchanged.
  - unfold timerFires. by destruct (timers a !! i).
Qed.

Lemma audioRun_context ops a : context (audioRun ops a) = context a.
Proof.
  unfold audioRun. revert a. induction ops as [|op ops IH]; intros a; [done|].
  cbn [fold_left]. rewrite IH. destruct op; cbn [audioStep]; [|done|].
  - apply play_unchanged.
  - unfold timerFires. by destruct (timers a !! i).
Qed.

(** X21.  [dispose] leaves no active node: every node that was active is
    disconnected, and stopped if it is an oscillator, the set is empty and
    stays empty when the timeouts still pending expire afterwards, and an
    existing context is closed. *)
Theorem dispose_stops_all_nodes supported ops fires :
  let a := audioRun ops (constructor supported) in
  activeNodes (dispose a) = ∅ ∧
  (∀ l, l ∈ activeNodes a →
     ∃ n, nodes (dispose a) !! l = Some n ∧ connected n = false ∧
          match kind n with OscillatorNode _ _ => playing n = false | GainNode _ => True end) ∧
  closed (dispose a) = context a ∧
  activeNodes (audioRun (map TimerFires fires) (dispose a)) = ∅.
Proof.
  intros a. pose proof (tracked_run ops _ (tracked_constructor supported)) as Ht.
  fold a in Ht.
  assert (Hclosed : closed a = false) by (unfold a; by rewrite audioRun_closed).
  split; [done|]. split; [|split].
  - intros l Hl. destruct (tracked_connected a Ht l Hl) as (n & Hn & _).
    destruct (dispose_nodes a l) as [Hd _]. rewrite (Hd Hl), Hn.
    eexists. split; [done|]. unfold disconnect, stop. cbn [fmap option_fmap option_map].
    by destruct (kind n) eqn:Hk; cbn [kind playing connected]; rewrite ?Hk.
  - unfold dispose. cbn [closed]. rewrite Hclosed. apply orb_false_l.
  - assert (Hempty : activeNodes (dispose a) = ∅) by done. revert Hempty.
    generalize (dispose a). unfold audioRun.
    induction fires as [|i fires IH]; intros d Hd; [done|].
    cbn [map fold_left audioStep]. apply IH. unfold timerFires.
    destruct (timers d !! i); [|done]. cbn [activeNodes]. rewrite Hd.
    apply set_eq. intros l. rewrite !elem_of_difference, elem_of_empty. tauto.
Qed.

(** X22.  An effect added with [addEffect] is the one [play] finds under
    its name, in place of an earlier one.  The other names keep their
    definitions, and they are played as before unless the name added is
    '__proto__'. *)
Theorem addEffect_then_play name definition a :
  (play name (addEffect name definition a)).2 =
    (if negb (context a) then Returned false
     else if decide (effect_type definition = Some "oscillator")
          then match options definition with
               | Some o => if decide (type o = Some "custom") then Threw else Returned true
               | None => Threw
               end
          else Returned false) ∧
  effects (addEffect name definition a) !! name = Some definition ∧
  ∀ other, other ≠ name →
    effects (addEffect name definition a) !! other = effects a !! other ∧
    (name ≠ "__proto__" →
     (play other (addEffect name definition a)).2 = (play other a).2).
Proof.
  split; [|split].
  - unfold play, addEffect. cbn [context effects]. destruct (negb (context a)); [done|].
    rewrite lookup_insert_eq. case_decide; [|done].
    match goal with |- context [playOscillator ?o ?b] =>
      destruct (playOscillator_cases o b)
        as [[[Hopt|(o' & Hopt & Hcustom)] ->]|(o' & t & Hopt & Hcustom & _ & ->)]
    end; rewrite Hopt; [done|by rewrite decide_True|by rewrite decide_False].
  - unfold addEffect. cbn [effects]. by rewrite lookup_insert_eq.
  - intros other Hne. split; [unfold addEffect; cbn [effects]; by rewrite lookup_insert_ne|].
    intros Hproto.
    assert (Hout : ∀ options b c, (playOscillator options b).2 = (playOscillator options c).2).
    { intros options b c.
      destruct (playOscillator_cases options b)
        as [[Hb ->]|(o & t & Ho & Hcustom & _ & ->)];
        destruct (playOscillator_cases options c)
          as [[Hc ->]|(o' & t' & Ho' & Hcustom' & _ & ->)];
        try done.
      - destruct Hb as [Hb|(o & Hb & Hcustom)]; congruence.
      - destruct Hc as [Hc|(o' & Hc & Hcustom')]; congruence. }
    unfold play, inheritedOscillator, addEffect. cbn [context effects].
    rewrite lookup_insert_ne by done. rewrite (lookup_insert_ne _ name "__proto__") by done.
    destruct (negb (context a)); [done|].
    destruct (effects a !! other) as [effect|].
    + case_decide; [|done].
      match goal with |- (match playOscillator ?o ?b with _ => _ end).2 = _ =>
        pose proof (Hout o b a) as Hsame;
        destruct (playOscillator o b) as [b1 [[]|]];
        destruct (playOscillator o a) as [a1 [[]|]]; done
      end.
    + match goal with |- (if ?c then _ else _).2 = _ => destruct c end; [|done].
      match goal with |- (match playOscillator ?o ?b with _ => _ end).2 = _ =>
        pose proof (Hout o b a) as Hsame;
        destruct (playOscillator o b) as [b1 [[]|]];
        destruct (playOscillator o a) as [a1 [[]|]]; done
      end.
Qed.

(** A concrete case: a 'click' effect added to a new manager; 'touch' is
    played as before. *)
Lemma addEffect_then_play_witness :
  let definition := mkEffect (Some "oscillator") None in
  (play "touch" (addEffect "click" definition (constructor true))).2
    = (play "touch" (constructor true)).2.
Proof.
  intros definition.
  destruct (addEffect_then_play "click" definition (constructor true)) as (_ & _ & Hother).
  assert (Hne : "touch" ≠ "click") by discriminate.
  assert (Hproto : "click" ≠ "__proto__") by discriminate.
  exact (proj2 (Hother "touch" Hne) Hproto).
Defined.

End Audio.

(** * The page: presses, releases and unloading *)

Section PageProperties.

Import AudioManager.

Context (cfg : Constants) (random : nat → R).

(** The calls the constructor of [DelaunayApp] makes after [initComponents]
    find no point and leave the state as it is. *)
Lemma constructor_calls_change_nothing w h :
  DelaunayTriangulation.calculateAndDraw initial = initial ∧
  PointManager.updatePoints cfg random w h initial = initial.
Proof. split; reflexivity. Qed.

(** With the 'touch' effect in place [play('touch')] does not throw, and
    leaves the effects as they are. *)
Lemma play_touch a :
  (∃ effect o, effects a !! "touch" = Some effect ∧
               effect_type effect = Some "oscillator" ∧ options effect = Some o ∧
               type o ≠ Some "custom") →
  (play "touch" a).2 = Returned (context a) ∧
  effects (play "touch" a).1 = effects a ∧
  length (timers (play "touch" a).1)
    = (length (timers a) + (if context a then 1 else 0))%nat.
Proof.
  intros (effect & o & Heff & Htype & Hopt & Hcustom). unfold play.
  destruct (context a); cbn [negb fst snd]; [|split; [done|split; [done|lia]]].
  rewrite Heff, decide_True by done.
  destruct (playOscillator_cases (options effect) a)
    as [[[H|(o' & H & Hc)] _]|(o' & t & _ & _ & _ & ->)]; [congruence..|].
  cbn [fst snd effects timers]. split; [done|]. split; [done|].
  rewrite length_app. cbn [length]. lia.
Qed.

(** A press, when [play] does not throw. *)
Lemma press_effect iw ih x y registered a :
  (∃ effect o, effects (Page.audioManager a) !! "touch" = Some effect ∧
               effect_type effect = Some "oscillator" ∧ options effect = Some o ∧
               type o ≠ Some "custom") →
  Page.press cfg iw ih x y registered a =
  registered (Page.mkApp
    (if Page.isTouch a then Page.program a
     else InputHandler.handleMouseDown cfg iw ih x y (Page.program a))
    (if Page.isTouch a then Page.audioManager a
     else (play "touch" (Page.audioManager a)).1)
    true (Page.mouseUpListeners a) (Page.touchEndListeners a) (Page.listening a)).
Proof.
  intros Heff. unfold Page.press. cbv zeta.
  cbn [Page.isTouch Page.audioManager Page.program Page.mouseUpListeners
       Page.touchEndListeners Page.listening].
  destruct (Page.isTouch a); [done|].
  destruct (play_touch (Page.audioManager a) Heff) as [Hout _].
  destruct (play "touch" (Page.audioManager a)) as [audio outcome].
  cbn [fst snd] in *. by subst outcome.
Qed.

Lemma press_armed iw ih x y registered a :
  armed a →
  (∀ b, Page.audioManager (registered b) = Page.audioManager b ∧
        (1 ≤ Page.mouseUpListeners (registered b) + Page.touchEndListeners (registered b))%nat) →
  armed (Page.press cfg iw ih x y registered a).
Proof.
  intros [Hrel Heff] Hreg. rewrite press_effect by done.
  split; [intros _; apply Hreg|].
  match goal with |- context [registered ?b] => destruct (Hreg b) as [-> _] end.
  cbn [Page.audioManager]. destruct (Page.isTouch a); [done|].
  by destruct (play_touch (Page.audioManager a) Heff) as (_ & -> & _).
Qed.

Lemma armed_step a e : armed a → armed (pageStep cfg random a e).
Proof.
  intros Ha. pose proof Ha as [Hrel Heff].
  destruct e; cbn [pageStep]; try (destruct (Page.listening a); [|done]).
  - apply press_armed; [done|]. intros b. cbn. split; [done|lia].
  - apply press_armed; [done|]. intros b. cbn. split; [done|lia].
  - unfold Page.mouseUp. destruct (Page.mouseUpListeners a); [done|]. by split.
  - unfold Page.touchEnd. destruct (Page.touchEndListeners a); [done|]. by split.
  - by split.
  - by split.
  - split; [done|]. cbn [Page.audioManager]. unfold timerFires.
    by destruct (timers (Page.audioManager a) !! i).
  - by split.
Qed.

Lemma armed_run events a : armed a → armed (pageRun cfg random events a).
Proof.
  unfold pageRun. revert a. induction events as [|e events IH]; intros a Ha; [done|].
  cbn [fold_left]. by apply IH, armed_step.
Qed.

Lemma armed_start supported : armed (Page.start supported).
Proof.
  split; [done|]. eexists _, _. cbn. split; [apply lookup_singleton_eq|done].
Qed.

(** X23.  While a touch is in progress, presses and touches are ignored,
    however many arrive before the release: the points, the triangulation
    and the audio manager stay as they are. *)
Theorem presses_during_a_touch_are_ignored events a :
  Page.isTouch a = true → forallb isPress events = true →
  Page.program (pageRun cfg random events a) = Page.program a ∧
  Page.audioManager (pageRun cfg random events a) = Page.audioManager a ∧
  Page.isTouch (pageRun cfg random events a) = true.
Proof.
  unfold pageRun. revert a. induction events as [|e events IH]; intros a Htouch Hall; [done|].
  cbn [forallb] in Hall. apply andb_prop in Hall as [He Hall]. cbn [fold_left].
  assert (Hstep : Page.program (pageStep cfg random a e) = Page.program a ∧
                  Page.audioManager (pageStep cfg random a e) = Page.audioManager a ∧
                  Page.isTouch (pageStep cfg random a e) = true).
  { destruct e; try done; cbn [pageStep]; (destruct (Page.listening a); [|done]).
    - unfold Page.handleMouseDown, Page.press. cbv zeta. cbn [Page.isTouch].
      by rewrite Htouch.
    - unfold Page.handleTouchStart, Page.press. cbv zeta. cbn [Page.isTouch].
      by rewrite Htouch. }
  destruct Hstep as (Hp & Ha & Ht).
  destruct (IH _ Ht Hall) as (-> & -> & ->). done.
Qed.

(** X24.  A release always re-arms the handler.  In every state the page
    reaches, a touch in progress has a release listener waiting on the
    document; a 'mouseup' removes all the mouse listeners and a 'touchend'
    all the touch listeners; after a press the next 'mouseup', and after a
    touch the next 'touchend', clears [isTouch]. *)
Theorem a_release_rearms supported events :
  let a := pageRun cfg random events (Page.start supported) in
  (Page.isTouch a = true → (1 ≤ Page.mouseUpListeners a + Page.touchEndListeners a)%nat) ∧
  Page.mouseUpListeners (Page.mouseUp a) = 0%nat ∧
  Page.touchEndListeners (Page.touchEnd a) = 0%nat ∧
  Page.isTouch (Page.touchEnd (Page.mouseUp a)) = false ∧
  (∀ iw ih x y, Page.isTouch (Page.mouseUp (Page.handleMouseDown cfg iw ih x y a)) = false) ∧
  (∀ iw ih x y, Page.isTouch (Page.touchEnd (Page.handleTouchStart cfg iw ih x y a)) = false).
Proof.
  intros a. pose proof (armed_run events _ (armed_start supported)) as Ha. fold a in Ha.
  destruct Ha as [Hrel Heff].
  pose proof (fun iw ih x y registered => press_effect iw ih x y registered a Heff)
    as Hpress.
  split; [exact Hrel|]. split; [|split; [|split; [|split]]].
  - unfold Page.mouseUp. by destruct (Page.mouseUpListeners a) eqn:Hm.
  - unfold Page.touchEnd. by destruct (Page.touchEndListeners a) eqn:Ht.
  - unfold Page.touchEnd, Page.mouseUp.
    destruct (Page.mouseUpListeners a) as [|m] eqn:Hm;
      destruct (Page.touchEndListeners a) as [|t] eqn:Ht;
      cbn [Page.touchEndListeners Page.isTouch]; rewrite ?Ht; try done.
    destruct (Page.isTouch a); [|done]. specialize (Hrel eq_refl). lia.
  - intros iw ih x y. unfold Page.handleMouseDown. by rewrite Hpress.
  - intros iw ih x y. unfold Page.handleTouchStart. by rewrite Hpress.
Qed.

Lemma settled_start supported : settled (Page.start supported).
Proof.
  split; [apply armed_start| |done].
  intros _. split; [apply coherent_initial|apply tracked_constructor].
Qed.

Lemma settled_step a e : settled a → settled (pageStep cfg random a e).
Proof.
  intros Hs. pose proof (settled_armed a Hs) as Ha.
  pose proof (armed_step a e Ha) as Ha'. pose proof Ha as [_ Heff].
  destruct (Page.listening a) eqn:Hl.
  - destruct (settled_running a Hs Hl) as [Hc Ht].
    destruct e; cbn [pageStep] in *; rewrite ?Hl in *.
    + split; [done| |].
      * unfold Page.handleMouseDown. rewrite press_effect by done.
        cbn [Page.program Page.audioManager Page.listening]. intros _.
        destruct (Page.isTouch a); [done|].
        split; [by apply coherent_handleMouseDown|by apply tracked_play].
      * unfold Page.handleMouseDown. rewrite press_effect by done.
        cbn [Page.listening]. congruence.
    + split; [done| |].
      * unfold Page.handleTouchStart. rewrite press_effect by done.
        cbn [Page.program Page.audioManager Page.listening]. intros _.
        destruct (Page.isTouch a); [done|].
        split; [by apply coherent_handleMouseDown|by apply tracked_play].
      * unfold Page.handleTouchStart. rewrite press_effect by done.
        cbn [Page.listening]. congruence.
    + split; [done| |]; unfold Page.mouseUp; destruct (Page.mouseUpListeners a);
        cbn [Page.program Page.audioManager Page.listening]; try done; congruence.
    + split; [done| |]; unfold Page.touchEnd; destruct (Page.touchEndListeners a);
        cbn [Page.program Page.audioManager Page.listening]; try done; congruence.
    + split; [done| |]; cbn [Page.program Page.audioManager Page.listening];
        [|congruence]. intros _. split; [by apply coherent_updatePoints|done].
    + split; [done| |]; cbn [Page.program Page.audioManager Page.listening];
        [|congruence]. intros _. split; [by apply coherent_calculateAndDraw|done].
    + split; [done| |]; cbn [Page.program Page.audioManager Page.listening];
        [|congruence]. intros _. split; [done|by apply tracked_timerFires].
    + split; [done|done|]. intros _. unfold Page.dispose.
      cbn [Page.program Page.audioManager].
      destruct (DelaunayApp_dispose_empty (Page.program a)) as (? & ? & ?).
      split; [done|]. split; [apply DelaunayApp_dispose_scene, (coh_tidy _ Hc)|done].
  - destruct (settled_unloaded a Hs Hl) as (Hact & Hrest).
    destruct e; cbn [pageStep] in *; rewrite ?Hl in *; try done.
    + split; [done| |]; unfold Page.mouseUp; destruct (Page.mouseUpListeners a);
        cbn [Page.program Page.audioManager Page.listening]; try done; congruence.
    + split; [done| |]; unfold Page.touchEnd; destruct (Page.touchEndListeners a);
        cbn [Page.program Page.audioManager Page.listening]; try done; congruence.
    + split; [done| |]; cbn [Page.program Page.audioManager Page.listening];
        [congruence|]. intros _. split; [|done].
      unfold timerFires. destruct (timers (Page.audioManager a) !! i); [|done].
      cbn [activeNodes]. rewrite Hact. apply set_eq. intros l.
      rewrite !elem_of_difference, elem_of_empty. tauto.
Qed.

Lemma settled_run events a : settled a → settled (pageRun cfg random events a).
Proof.
  unfold pageRun. revert a. induction events as [|e events IH]; intros a Ha; [done|].
  cbn [fold_left]. by apply IH, settled_step.
Qed.

(** Once the handlers are removed, the points and the triangulation no
    longer change. *)
Lemma unloaded_run events a :
  Page.listening a = false →
  Page.listening (pageRun cfg random events a) = false ∧
  Page.program (pageRun cfg random events a) = Page.program a.
Proof.
  unfold pageRun. revert a. induction events as [|e events IH]; intros a Hl; [done|].
  cbn [fold_left].
  assert (Page.listening (pageStep cfg random a e) = false ∧
          Page.program (pageStep cfg random a e) = Page.program a) as [Hl' Hp'].
  { destruct e; cbn [pageStep]; rewrite ?Hl; try done.
    - unfold Page.mouseUp. by destruct (Page.mouseUpListeners a).
    - unfold Page.touchEnd. by destruct (Page.touchEndListeners a). }
  destruct (IH _ Hl') as [-> ->]. done.
Qed.

(** X25.  A press that starts a touch adds exactly one point, at rest
    where the press was, and starts one tone if the audio context exists;
    the oldest point leaves the array when the capacity was reached. *)
Theorem a_press_adds_one_point supported events iw ih x y :
  let a := pageRun cfg random events (Page.start supported) in
  let a' := Page.handleMouseDown cfg iw ih x y a in
  Page.listening a = true → Page.isTouch a = false →
  Page.isTouch a' = true ∧
  Page.program a' = InputHandler.handleMouseDown cfg iw ih x y (Page.program a) ∧
  points (Page.program a') =
    (if bool_decide (length (points (Page.program a)) >= MAX_POINTS cfg)%nat
     then tail (points (Page.program a)) else points (Page.program a))
    ++ [nextLoc (Page.program a)] ∧
  heap (Page.program a') !! nextLoc (Page.program a)
    = Some (atRest (x - iw / 2) (ih / 2 - y)) ∧
  length (timers (Page.audioManager a')) =
    (length (timers (Page.audioManager a)) + (if supported then 1 else 0))%nat.
Proof.
  intros a a' Hl Htouch.
  pose proof (settled_run events _ (settled_start supported)) as Hs. fold a in Hs.
  destruct (settled_running a Hs Hl) as [Hc _].
  destruct (settled_armed a Hs) as [_ Heff].
  pose proof (tidy_wf _ (coh_tidy _ Hc)) as Hwf.
  unfold a', Page.handleMouseDown. rewrite press_effect by done. rewrite Htouch.
  cbn [Page.isTouch Page.program Page.audioManager].
  split; [done|]. split; [done|].
  unfold InputHandler.handleMouseDown. cbv zeta.
  pose proof (wf_addPoint cfg iw ih x y _ Hwf) as Hwf1.
  split; [|split].
  - by rewrite applyRepulsion_points, addPoint_points, addPoint_result.
  - rewrite applyRepulsion_heap by apply (wf_points_NoDup _ Hwf1).
    rewrite addPoint_result, addPoint_points, addPoint_result.
    rewrite decide_True by (apply elem_of_app; right; by apply list_elem_of_singleton).
    rewrite decide_True by done. by rewrite addPoint_heap, lookup_insert_eq.
  - assert (context (Page.audioManager a) = supported) as Hctx.
    { clear -cfg. unfold a, pageRun.
      assert (∀ b, context (Page.audioManager
                (fold_left (pageStep cfg random) events b)) = context (Page.audioManager b))
        as ->; [|done].
      induction events as [|e es IH]; intros b; [done|]. cbn [fold_left]. rewrite IH.
      destruct e; cbn [pageStep]; try (destruct (Page.listening b); [|done]); try done.
      - unfold Page.handleMouseDown, Page.press. cbv zeta.
        destruct (Page.isTouch b); [done|]. cbn [Page.audioManager].
        destruct (play_unchanged "touch" (Page.audioManager b)) as [Hsame _].
        by destruct (play "touch" (Page.audioManager b)) as [audio [[]|]].
      - unfold Page.handleTouchStart, Page.press. cbv zeta.
        destruct (Page.isTouch b); [done|]. cbn [Page.audioManager].
        destruct (play_unchanged "touch" (Page.audioManager b)) as [Hsame _].
        by destruct (play "touch" (Page.audioManager b)) as [audio [[]|]].
      - unfold Page.mouseUp. by destruct (Page.mouseUpListeners b).
      - unfold Page.touchEnd. by destruct (Page.touchEndListeners b).
      - cbn [Page.audioManager]. unfold timerFires.
        by destruct (timers (Page.audioManager b) !! i). }
    destruct (play_touch (Page.audioManager a) Heff) as (_ & _ & ->).
    by rewrite Hctx.
Qed.

(** X26.  After the page is unloaded nothing is left and nothing reacts:
    the scene is empty, there is no point, triangle or drawable, no audio
    node is active, and whatever events arrive afterwards, the points and
    the triangulation stay as [dispose] left them and no node becomes
    active. *)
Theorem nothing_reacts_after_unload supported events later :
  let u := pageRun cfg random (events ++ [Unload]) (Page.start supported) in
  (Page.listening u = false ∧
   scene (Page.program u) = ∅ ∧ points (Page.program u) = [] ∧
   triangles (Page.program u) = [] ∧ meshes (Page.program u) = []) ∧
  (Page.listening (pageRun cfg random later u) = false ∧
   Page.program (pageRun cfg random later u) = Page.program u ∧
   activeNodes (Page.audioManager (pageRun cfg random later u)) = ∅).
Proof.
  intros u. pose proof (settled_run (events ++ [Unload]) _ (settled_start supported)) as Hs.
  fold u in Hs.
  assert (Hl : Page.listening u = false).
  { unfold u, pageRun. rewrite fold_left_app. cbn [fold_left pageStep].
    by destruct (Page.listening (fold_left _ _ _)) eqn:E. }
  destruct (settled_unloaded u Hs Hl) as (_ & Hrest).
  split; [done|].
  destruct (unloaded_run later u Hl) as [Hl' Hp'].
  split; [done|]. split; [done|].
  by destruct (settled_unloaded _ (settled_run later u Hs) Hl') as (? & _).
Qed.

End PageProperties.

Lemma presses_during_a_touch_are_ignored_witness :
  let a := Page.mkApp threeCorners (AudioManager.constructor true) true 1 0 true in
  let presses := [MouseDownAt 800 600 10 10; TouchStartAt 800 600 20 20;
                  MouseDownAt 800 600 30 30] in
  Page.program (pageRun constants noNoise presses a) = threeCorners ∧
  Page.audioManager (pageRun constants noNoise presses a) = AudioManager.constructor true ∧
  Page.isTouch (pageRun constants noNoise presses a) = true.
Proof.
  intros a presses.
  apply (presses_during_a_touch_are_ignored constants noNoise presses a); reflexivity.
Defined.

Lemma a_press_adds_one_point_witness :
  let a := Page.start true in
  let a' := Page.handleMouseDown constants 800 600 400 300 a in
  Page.isTouch a' = true ∧
  Page.program a' = InputHandler.handleMouseDown constants 800 600 400 300 (Page.program a) ∧
  points (Page.program a') =
    (if bool_decide (length (points (Page.program a)) >= MAX_POINTS constants)%nat
     then tail (points (Page.program a)) else points (Page.program a))
    ++ [nextLoc (Page.program a)] ∧
  heap (Page.program a') !! nextLoc (Page.program a)
    = Some (atRest (400 - 800 / 2) (600 / 2 - 300)) ∧
  length (AudioManager.timers (Page.audioManager a')) =
    (length (AudioManager.timers (Page.audioManager a)) + 1)%nat.
Proof.
  intros a a'.
  apply (a_press_adds_one_point constants noNoise true [] 800 600 400 300); reflexivity.
Defined.


(** * More on the physics of the points *)

Section ScreenBounds.

(** X27.  [constrainToScreen] leaves a point that is inside the screen
    rectangle as it is, its edges included: a point exactly on an edge is
    not reflected.  Applied twice it does what it does once. *)
Theorem constrainToScreen_idempotent halfWidth halfHeight bounceFactor m :
  0 <= halfWidth → 0 <= halfHeight →
  let constrain := OnMesh.constrainToScreen halfWidth halfHeight bounceFactor in
  (- halfWidth <= position_x m <= halfWidth →
   - halfHeight <= position_y m <= halfHeight → constrain m = m) ∧
  constrain (constrain m) = constrain m.
Proof.
  intros Hw Hh constrain.
  assert (Hin : ∀ m', - halfWidth <= position_x m' <= halfWidth →
                      - halfHeight <= position_y m' <= halfHeight → constrain m' = m').
  { intros m' Hx Hy. unfold constrain, OnMesh.constrainToScreen. cbv zeta.
    rewrite (bool_decide_eq_false_2 (position_x m' < - halfWidth)) by lra.
    rewrite (bool_decide_eq_false_2 (position_x m' > halfWidth)) by lra.
    rewrite (bool_decide_eq_false_2 (position_y m' < - halfHeight)) by lra.
    by rewrite (bool_decide_eq_false_2 (position_y m' > halfHeight)) by lra. }
  split; [apply Hin|].
  destruct (constrainToScreen_onScreen halfWidth halfHeight bounceFactor m Hw Hh)
    as [Hx Hy].
  by apply Hin.
Qed.

Lemma constrainToScreen_idempotent_witness :
  let constrain := OnMesh.constrainToScreen 50 40 0.5 in
  let m := mkMesh 70 (-40) (Some (mkUserData 3 (-2) 0 0)) in
  (- 50 <= position_x m <= 50 → - 40 <= position_y m <= 40 → constrain m = m) ∧
  constrain (constrain m) = constrain m.
Proof.
  intros constrain m.
  apply (constrainToScreen_idempotent 50 40 0.5 m); lra.
Defined.

End ScreenBounds.

Section Origins.

Import PointManager.

Context (cfg : Constants) (random : nat → R).

Lemma addVelocity_origin dvx dvy m : originOf (OnMesh.addVelocity dvx dvy m) = originOf m.
Proof.
  unfold OnMesh.addVelocity, originOf.
  destruct (userData m) eqn:Hu; cbn [userData]; by rewrite ?Hu.
Qed.

Lemma applyRepulsionForce_origin ox oy strength radius m :
  originOf (OnMesh.applyRepulsionForce ox oy strength radius m) = originOf m.
Proof.
  unfold OnMesh.applyRepulsionForce. destruct (_ && _); [|done]. apply addVelocity_origin.
Qed.

Lemma tickMesh_origin r1 r2 w h m : originOf (tickMesh cfg r1 r2 w h m) = originOf m.
Proof.
  unfold tickMesh, integrateMesh.
  assert (Hfr : ∀ f m', originOf (OnMesh.applyFriction f m') = originOf m')
    by (intros f m'; unfold OnMesh.applyFriction, originOf;
        destruct (userData m') eqn:Hu; cbn [userData]; by rewrite ?Hu).
  assert (Hcs : ∀ hw hh bf m', originOf (OnMesh.constrainToScreen hw hh bf m') = originOf m').
  { intros hw hh bf m'. unfold OnMesh.constrainToScreen, OnMesh.bounceX, OnMesh.bounceY, originOf.
    repeat case_bool_decide; cbn [userData position_x position_y];
      destruct (userData m') eqn:Hu; cbn [userData]; by rewrite ?Hu. }
  assert (Hmv : ∀ m', originOf (OnMesh.move m') = originOf m')
    by (intros m'; unfold OnMesh.move, originOf;
        destruct (userData m') eqn:Hu; cbn [userData]; by rewrite ?Hu).
  assert (Hco : ∀ d f m', originOf (OnMesh.constrainToOriginalPosition d f m') = originOf m').
  { intros d f m'. unfold OnMesh.constrainToOriginalPosition.
    destruct (userData m') eqn:Hu; [|done]. case_bool_decide; [|done].
    apply addVelocity_origin. }
  by rewrite Hfr, Hcs, Hmv, Hco, addVelocity_origin.
Qed.

(** What an event does to the origin of a mesh: it keeps it, or the mesh is
    the evicted one and loses its [userData]. *)
Lemma handle_origin s e p m :
  wf s → heap s !! p = Some m →
  ∃ m', heap (DelaunayApp.handle cfg random s e) !! p = Some m' ∧
        (originOf m' = originOf m ∨ originOf m' = None).
Proof.
  intros Hwf Hm. pose proof (wf_points_NoDup s Hwf) as Hnd.
  destruct e as [iw ih x y|w h|]; cbn [DelaunayApp.handle].
  - unfold InputHandler.handleMouseDown. cbv zeta.
    pose proof (wf_addPoint cfg iw ih x y s Hwf) as Hwf1.
    assert (Hp : (p < nextLoc s)%nat) by (apply (wf_heap_fresh s Hwf); by eexists).
    assert (H1 : ∃ m1, heap (addPoint cfg iw ih x y s).1 !! p = Some m1 ∧
                       (originOf m1 = originOf m ∨ originOf m1 = None)).
    { rewrite addPoint_heap, lookup_insert_ne by lia.
      case_bool_decide; [|by eexists; split; [|left]].
      destruct (head (points s)) as [oldest|]; [|by eexists; split; [|left]].
      rewrite lookup_alter. case_decide; [subst|by eexists; split; [|left]].
      rewrite Hm. eexists. split; [done|]. by right. }
    destruct H1 as (m1 & Hm1 & Ho1).
    rewrite applyRepulsion_heap by apply (wf_points_NoDup _ Hwf1).
    case_decide; [|by exists m1]. rewrite Hm1. cbn [fmap option_fmap option_map].
    case_decide; [by exists m1|].
    eexists. split; [done|]. by rewrite applyRepulsionForce_origin.
  - destruct (decide (p ∈ points s)) as [Hin|Hout].
    + apply list_elem_of_lookup in Hin as [i Hi].
      rewrite (updatePoints_lookup cfg random w h s i p Hnd Hi), Hm.
      eexists. split; [done|]. left. apply tickMesh_origin.
    + rewrite updatePoints_lookup_other by done. exists m. by split; [|left].
  - rewrite calculateAndDraw_heap. exists m. by split; [|left].
Qed.

(** X28.  The origin of a point never changes: whatever happens between
    two states of the application, a point that is still live has the
    [origX] and [origY] it had, the ones [addPoint] gave it. *)
Theorem origin_never_changes events s p m :
  wf s → heap s !! p = Some m →
  p ∈ points (DelaunayApp.run cfg random events s) →
  ∃ m' u u',
    heap (DelaunayApp.run cfg random events s) !! p = Some m' ∧
    userData m = Some u ∧ userData m' = Some u' ∧
    origX u' = origX u ∧ origY u' = origY u.
Proof.
  intros Hwf Hm Hlive.
  assert (Hstep : ∃ m', heap (DelaunayApp.run cfg random events s) !! p = Some m' ∧
                        (originOf m' = originOf m ∨ originOf m' = None)).
  { clear Hlive. unfold DelaunayApp.run. revert s m Hwf Hm.
    induction events as [|e events IH]; intros s m Hwf Hm; cbn [fold_left].
    - exists m. by split; [|left].
    - destruct (handle_origin s e p m Hwf Hm) as (m1 & Hm1 & Ho1).
      assert (wf (DelaunayApp.handle cfg random s e)) as Hwf1
        by apply (wf_run cfg random [e] s Hwf).
      destruct (IH _ m1 Hwf1 Hm1) as (m' & Hm' & Ho').
      exists m'. split; [done|]. destruct Ho' as [->|]; [done|by right]. }
  destruct Hstep as (m' & Hm' & Ho).
  destruct (wf_points_live _ (wf_run cfg random events s Hwf) p Hlive)
    as (m'' & u' & Hm'' & Hu').
  rewrite Hm' in Hm''. injection Hm'' as <-.
  unfold originOf in Ho. rewrite Hu' in Ho. cbn in Ho.
  destruct Ho as [Ho|Ho]; [|done].
  destruct (userData m) as [u|] eqn:Hu; [|done]. cbn in Ho. injection Ho as Hx Hy.
  by exists m', u, u'.
Qed.

End Origins.

Lemma origin_never_changes_witness :
  ∃ m' u u',
    heap (DelaunayApp.run constants noNoise [AnimationFrame 200 200; WindowResize] farAway)
      !! 1%nat = Some m' ∧
    userData (atRest 3 4) = Some u ∧ userData m' = Some u' ∧
    origX u' = origX u ∧ origY u' = origY u.
Proof.
  apply (origin_never_changes constants noNoise [AnimationFrame 200 200; WindowResize]
           farAway 1%nat (atRest 3 4) wf_farAway eq_refl).
  unfold DelaunayApp.run. cbn [fold_left DelaunayApp.handle].
  rewrite calculateAndDraw_points, updatePoints_points.
  right. left.
Defined.

(** * Double precision: comparisons *)

Section Binary64Order.

#[local] Open Scope float_scope.

(** A double is NaN exactly when its specification is. *)
Lemma is_nan_spec x : is_nan x = false ↔ Prim2SF x ≠ S754_nan.
Proof.
  unfold is_nan. rewrite FloatAxioms.eqb_spec. unfold SFeqb.
  destruct (Prim2SF x) as [s| s| |s m e]; cbn.
  - split; [discriminate|done].
  - split; [discriminate|]. by destruct s.
  - split; [discriminate|done].
  - rewrite Z.compare_refl, !Pos.compare_cont_refl.
    split; [discriminate|]. by destruct s.
Qed.

Lemma SFcompare_antisym x y : SFcompare y x = CompOpp <$> SFcompare x y.
Proof.
  destruct x as [s| s| |s m e], y as [s'| s'| |s' m' e']; cbn;
    try done; try (by destruct s); try (by destruct s'); try (by destruct s, s').
  pose proof (Pos.compare_cont_antisym m m' Eq) as Hm. cbn [CompOpp] in Hm.
  destruct s, s'; try done; f_equal;
    rewrite (Z.compare_antisym e e'); destruct (e ?= e')%Z; cbn; try done;
    rewrite <- Hm; by destruct (Pos.compare_cont Eq m m').
Qed.

Lemma SFcompare_refl x : x ≠ S754_nan → SFcompare x x = Some Eq.
Proof.
  destruct x as [s| s| |s m e]; cbn; try done.
  - by destruct s.
  - intros _. rewrite Z.compare_refl, !Pos.compare_cont_refl. by destruct s.
Qed.

Lemma SFcompare_is_Some x y :
  x ≠ S754_nan → y ≠ S754_nan → is_Some (SFcompare x y).
Proof. destruct x, y; cbn; by eauto. Qed.

(** Between two numbers, [x < y] fails exactly when [y <= x]. *)
Lemma ltb_false_leb x y :
  is_nan x = false → is_nan y = false → (x <? y) = false → (y <=? x) = true.
Proof.
  rewrite !is_nan_spec, FloatAxioms.ltb_spec, FloatAxioms.leb_spec.
  unfold SFltb, SFleb. intros Hx Hy.
  rewrite (SFcompare_antisym (Prim2SF x) (Prim2SF y)).
  destruct (SFcompare_is_Some _ _ Hx Hy) as [c ->]. by destruct c.
Qed.

Lemma leb_refl x : is_nan x = false → (x <=? x) = true.
Proof.
  rewrite is_nan_spec, FloatAxioms.leb_spec. unfold SFleb. intros Hx.
  by rewrite SFcompare_refl.
Qed.

(** A number that is not negative, and its opposite. *)
Lemma opp_leb x :
  (0 <=? x) = true →
  is_nan x = false ∧ is_nan (- x) = false ∧ (- x <=? x) = true ∧ (x <? - x) = false.
Proof.
  rewrite !is_nan_spec, !FloatAxioms.leb_spec, FloatAxioms.ltb_spec, FloatAxioms.opp_spec.
  unfold SFleb, SFltb.
  change (Prim2SF 0) with (S754_zero false).
  destruct (Prim2SF x) as [s| s| |s m e]; cbn; try done; by destruct s.
Qed.

Import Binary64.

(** The two tests of [constrainToScreen] on one axis leave a coordinate that
    is in the interval or NaN. *)
Lemma Binary64_clamp_within bound x :
  (0 <=? bound) = true →
  let x1 := if x <? - bound then - bound else x in
  let x2 := if bound <? x1 then bound else x1 in
  is_nan x2 = true ∨ (- bound <=? x2) && (x2 <=? bound) = true.
Proof.
  intros (Hb & Hopp & Hle & Hlt)%opp_leb. cbv zeta.
  destruct (x <? - bound) eqn:Hlow.
  - rewrite Hlt. right. by rewrite (leb_refl _ Hopp), Hle.
  - destruct (bound <? x) eqn:Hhigh.
    + right. by rewrite Hle, (leb_refl _ Hb).
    + destruct (is_nan x) eqn:Hx; [by left|right].
      by rewrite (ltb_false_leb _ _ Hx Hopp Hlow), (ltb_false_leb _ _ Hb Hx Hhigh).
Qed.

Lemma Binary64_constrainToScreen_position halfWidth halfHeight bounceFactor m :
  let m' := OnMesh.constrainToScreen halfWidth halfHeight bounceFactor m in
  position_x m' =
    (let x1 := if position_x m <? - halfWidth then - halfWidth else position_x m in
     if halfWidth <? x1 then halfWidth else x1) ∧
  position_y m' =
    (let y1 := if position_y m <? - halfHeight then - halfHeight else position_y m in
     if halfHeight <? y1 then halfHeight else y1).
Proof.
  cbv zeta. unfold OnMesh.constrainToScreen.
  destruct (position_x m <? - halfWidth);
    cbn [position_x position_y OnMesh.bounceX OnMesh.bounceY];
    match goal with |- context [halfWidth <? ?x] => destruct (halfWidth <? x) end;
    cbn [position_x position_y OnMesh.bounceX OnMesh.bounceY];
    (destruct (position_y m <? - halfHeight);
     cbn [position_x position_y OnMesh.bounceX OnMesh.bounceY];
     match goal with |- context [halfHeight <? ?y] => destruct (halfHeight <? y) end;
     cbn [position_x position_y OnMesh.bounceX OnMesh.bounceY]; done).
Qed.

Lemma Binary64_constrainToScreen_within halfWidth halfHeight bounceFactor m :
  (0 <=? halfWidth) = true → (0 <=? halfHeight) = true →
  let m' := OnMesh.constrainToScreen halfWidth halfHeight bounceFactor m in
  (is_nan (position_x m') = true ∨
   (- halfWidth <=? position_x m') && (position_x m' <=? halfWidth) = true) ∧
  (is_nan (position_y m') = true ∨
   (- halfHeight <=? position_y m') && (position_y m' <=? halfHeight) = true).
Proof.
  intros Hw Hh m'. unfold m'.
  destruct (Binary64_constrainToScreen_position halfWidth halfHeight bounceFactor m) as [-> ->].
  split; [exact (Binary64_clamp_within halfWidth (position_x m) Hw)
         |exact (Binary64_clamp_within halfHeight (position_y m) Hh)].
Qed.

End Binary64Order.

(** * Double precision: the points after a frame *)

Section Binary64UpdatePoints.

Import Binary64 Binary64.PointManager.

#[local] Open Scope float_scope.

Context (cfg : Constants) (random : nat → float).

Lemma Binary64_applyBrownianMotion_points s : points (applyBrownianMotion cfg random s) = points s.
Proof. unfold applyBrownianMotion. by apply (fold_left_preserves _ points). Qed.

Lemma Binary64_applyPositionConstraints_points s :
  points (applyPositionConstraints cfg s) = points s.
Proof. unfold applyPositionConstraints. by apply (fold_left_preserves _ points). Qed.

Lemma Binary64_integration_loop_points w h ps acc :
  points (fold_left (updatePoint cfg w h) ps acc).1 = points acc.1.
Proof. by apply (fold_left_preserves _ (fun acc => points acc.1)). Qed.

Lemma Binary64_updatePoints_points w h s : points (updatePoints cfg random w h s).1 = points s.
Proof.
  unfold updatePoints. rewrite Binary64_integration_loop_points. cbn [fst].
  by rewrite Binary64_applyPositionConstraints_points, Binary64_applyBrownianMotion_points.
Qed.

(** The loops create and delete no mesh. *)
Lemma Binary64_fold_alter_is_Some {A} (f : State → A → State) (p : loc) :
  (∀ s a, is_Some (heap (f s a) !! p) ↔ is_Some (heap s !! p)) →
  ∀ l s, is_Some (heap (fold_left f l s) !! p) ↔ is_Some (heap s !! p).
Proof.
  intros Hf l. induction l as [|a l IH]; intros s; cbn [fold_left]; [done|].
  by rewrite IH, Hf.
Qed.

Lemma Binary64_applyBrownianMotion_is_Some s p :
  is_Some (heap (applyBrownianMotion cfg random s) !! p) ↔ is_Some (heap s !! p).
Proof.
  unfold applyBrownianMotion. apply Binary64_fold_alter_is_Some.
  intros s' a. cbn [heap]. apply lookup_alter_is_Some.
Qed.

Lemma Binary64_applyPositionConstraints_is_Some s p :
  is_Some (heap (applyPositionConstraints cfg s) !! p) ↔ is_Some (heap s !! p).
Proof.
  unfold applyPositionConstraints. apply Binary64_fold_alter_is_Some.
  intros s' a. cbn [heap]. apply lookup_alter_is_Some.
Qed.

(** What an iteration of the loop of [updatePoints] leaves of the point it
    handles, and that it leaves the other points as they are. *)
Lemma Binary64_updatePoint_lookup w h acc point :
  heap (updatePoint cfg w h acc point).1 !! point =
  (fun m => OnMesh.applyFriction (FRICTION cfg)
              (OnMesh.constrainToScreen (w / 2) (h / 2) (BOUNCE_FACTOR cfg) (OnMesh.move m)))
    <$> heap acc.1 !! point.
Proof.
  unfold updatePoint. cbn [fst heap]. rewrite !lookup_alter_eq.
  by destruct (heap acc.1 !! point).
Qed.

Lemma Binary64_updatePoint_lookup_ne w h acc point p :
  p ≠ point → heap (updatePoint cfg w h acc point).1 !! p = heap acc.1 !! p.
Proof.
  intros Hne. unfold updatePoint. cbn [fst heap]. by rewrite !lookup_alter_ne.
Qed.

(** After the loop, every point the loop went through is within the screen
    on each axis, unless its coordinate is NaN. *)
Lemma Binary64_integration_loop_within w h ps acc p :
  (0 <=? w / 2) = true → (0 <=? h / 2) = true →
  p ∈ ps → is_Some (heap acc.1 !! p) →
  ∃ m, heap (fold_left (updatePoint cfg w h) ps acc).1 !! p = Some m ∧
       (is_nan (position_x m) = true ∨ within w (position_x m) = true) ∧
       (is_nan (position_y m) = true ∨ within h (position_y m) = true).
Proof.
  intros Hw Hh. revert acc. induction ps as [|q ps IH] using rev_ind; intros acc Hp Hsome.
  - by apply elem_of_nil in Hp.
  - rewrite fold_left_app. cbn [fold_left].
    destruct (decide (p = q)) as [->|Hne].
    + rewrite Binary64_updatePoint_lookup.
      assert (is_Some (heap (fold_left (updatePoint cfg w h) ps acc).1 !! q)) as [m0 ->].
      { clear IH Hp. revert acc Hsome. induction ps as [|a ps IH]; intros acc Hsome; [done|].
        cbn [fold_left]. apply IH.
        destruct (decide (q = a)) as [->|Hne].
        - rewrite Binary64_updatePoint_lookup. by apply fmap_is_Some.
        - by rewrite Binary64_updatePoint_lookup_ne. }
      eexists. split; [reflexivity|].
      exact (Binary64_constrainToScreen_within (w / 2) (h / 2) (BOUNCE_FACTOR cfg)
               (OnMesh.move m0) Hw Hh).
    + rewrite Binary64_updatePoint_lookup_ne by done. apply IH; [|done].
      apply elem_of_app in Hp as [Hp|Hp]; [done|].
      by apply list_elem_of_singleton in Hp.
Qed.

(** C10, as amended.  After any call of [updatePoints(screenWidth,
    screenHeight)] on a screen rectangle (half sizes that are not negative),
    every live point is within [-screenWidth/2, screenWidth/2] on the x axis
    and within [-screenHeight/2, screenHeight/2] on the y axis, whatever its
    position and velocity were and whatever [Math.random] returned, except
    for a coordinate that the arithmetic has turned into NaN. *)
Theorem C10_live_points_on_screen_or_NaN w h s p :
  (0 <=? w / 2) = true → (0 <=? h / 2) = true →
  p ∈ points s → is_Some (heap s !! p) →
  p ∈ points (updatePoints cfg random w h s).1 ∧
  ∃ m, heap (updatePoints cfg random w h s).1 !! p = Some m ∧
       (is_nan (position_x m) = true ∨ within w (position_x m) = true) ∧
       (is_nan (position_y m) = true ∨ within h (position_y m) = true).
Proof.
  intros Hw Hh Hp Hsome. split; [by rewrite Binary64_updatePoints_points|].
  unfold updatePoints. apply Binary64_integration_loop_within; [done..| |].
  - by rewrite Binary64_applyPositionConstraints_points, Binary64_applyBrownianMotion_points.
  - cbn [fst]. by apply Binary64_applyPositionConstraints_is_Some, Binary64_applyBrownianMotion_is_Some.
Qed.

End Binary64UpdatePoints.

Section Binary64UpdatePointsExamples.

Import Binary64 Binary64.PointManager.

#[local] Open Scope float_scope.

(** A point at 1000 on a screen of 200 by 100 ends on the right edge. *)
Lemma C10_live_points_on_screen_or_NaN_witness :
  let s' := (updatePoints constants noNoise 200 100 farAway).1 in
  ∃ m, heap s' !! 0%nat = Some m ∧ position_x m = 100 ∧
       (is_nan (position_x m) = true ∨ within 200 (position_x m) = true) ∧
       (is_nan (position_y m) = true ∨ within 100 (position_y m) = true).
Proof.
  intros s'.
  assert (Hw : (0 <=? 200 / 2) = true) by (vm_compute; reflexivity).
  assert (Hh : (0 <=? 100 / 2) = true) by (vm_compute; reflexivity).
  assert (Hp : 0%nat ∈ points farAway) by (by left).
  assert (Hsome : is_Some (heap farAway !! 0%nat)) by (vm_compute; by eexists).
  destruct (C10_live_points_on_screen_or_NaN constants noNoise 200 100 farAway 0%nat
              Hw Hh Hp Hsome) as (_ & m & Hm & Hwithin).
  exists m. split; [exact Hm|]. split; [|exact Hwithin].
  assert (Hx : position_x <$> heap s' !! 0%nat = Some 100) by (vm_compute; reflexivity).
  fold s' in Hm. rewrite Hm in Hx. by injection Hx.
Defined.

(** C10 as stated fails.  On a screen of 200 by 100, a point at rest at
    1e200 on the x axis whose origin is [(0, 0)] is a live point before and
    after [updatePoints], and its position is then NaN, which is within no
    interval: the square of its distance from the origin overflows, the
    return force is infinite and its product with the direction, which is 0,
    is NaN. *)
Lemma C10_counterexample_overflow :
  let s' := (updatePoints constants noNoise 200 100 farOut).1 in
  (0 <=? 200 / 2) = true ∧ (0 <=? 100 / 2) = true ∧
  0%nat ∈ points farOut ∧ 0%nat ∈ points s' ∧
  ∃ m, heap s' !! 0%nat = Some m ∧
       is_nan (position_x m) = true ∧ within 200 (position_x m) = false ∧
       onScreen 200 100 m = false.
Proof.
  intros s'.
  split; [vm_compute; reflexivity|]. split; [vm_compute; reflexivity|].
  split; [by left|]. split; [unfold s'; rewrite Binary64_updatePoints_points; by left|].
  assert (Hm : ∃ m, heap s' !! 0%nat = Some m) by (vm_compute; by eexists).
  destruct Hm as [m Hm]. exists m. split; [exact Hm|].
  assert (Hx : (fun m => (is_nan (position_x m), within 200 (position_x m), onScreen 200 100 m))
                 <$> heap s' !! 0%nat = Some (true, false, false))
    by (vm_compute; reflexivity).
  rewrite Hm in Hx. cbn in Hx. by injection Hx as -> -> ->.
Qed.

End Binary64UpdatePointsExamples.

(** * Double precision: the colour seed *)

Section Binary64ColorSeed.

Import Binary64.

#[local] Open Scope Z_scope.

Lemma Binary64_getColorSeed_fold h t :
  Triangle.getColorSeed h t =
  (fold_left Z.lxor
     (zip_with (fun coordinate factor => ToInt32 (Math_floor (coordinate * factor)%float))
               (seedCoordinates h t) seedFactors)
     0) mod 2 ^ 32.
Proof.
  unfold Triangle.getColorSeed, ushr0, ToUint32, seedCoordinates, seedFactors.
  cbn [zip_with fold_left]. rewrite Z.lxor_0_l.
  repeat apply bitxor_mod_l. reflexivity.
Qed.

(** C9, as amended.  [Triangle.getColorSeed] is a 32-bit unsigned value, the
    exclusive or of six terms, the x and y of each vertex multiplied (in
    double precision) by a large odd constant and floored to an integer
    before the combination, which takes each term modulo 2^32; the
    constants of the first five terms are distinct and the sixth term (y of
    the third vertex) uses the constant of the first (x of the first
    vertex).  The value depends on the six coordinates only: the same
    positions give the same seed, in any store and for any triangle object,
    hence also after the triangulation was rebuilt. *)
Theorem C9_color_seed h t :
  0 <= Triangle.getColorSeed h t < 2 ^ 32 ∧
  Triangle.getColorSeed h t =
    (fold_left Z.lxor
       (zip_with (fun coordinate factor => ToInt32 (Math_floor (coordinate * factor)%float))
                 (seedCoordinates h t) seedFactors)
       0) mod 2 ^ 32 ∧
  map ToInt32 seedFactors = seedMultipliers ∧
  length seedMultipliers = 6%nat ∧
  Forall (fun multiplier => Z.odd multiplier = true ∧ 10 ^ 7 < multiplier) seedMultipliers ∧
  NoDup (take 5 seedMultipliers) ∧
  seedMultipliers !! 5%nat = seedMultipliers !! 0%nat ∧
  (∀ h' t', seedCoordinates h' t' = seedCoordinates h t →
            Triangle.getColorSeed h' t' = Triangle.getColorSeed h t).
Proof.
  split.
  { unfold Triangle.getColorSeed, ushr0, ToUint32. apply Z.mod_pos_bound. lia. }
  split; [apply Binary64_getColorSeed_fold|].
  split; [vm_compute; reflexivity|].
  split; [done|]. split; [repeat constructor|].
  split.
  { cbn [take seedMultipliers]. repeat (apply NoDup_cons; split);
      rewrite ?elem_of_cons, ?elem_of_nil; try apply NoDup_nil_2; intros H; lia. }
  split; [done|].
  intros h' t' Hcoord. by rewrite !Binary64_getColorSeed_fold, Hcoord.
Qed.

(** C9 as stated fails on "distinct".  The seed of a triangle whose only
    non-zero coordinate is the x of its first vertex, equal to 1, is the
    constant of that term; so is the seed of a triangle whose only non-zero
    coordinate is the y of its third vertex: the two terms share the constant
    73856093. *)
Lemma C9_counterexample_multiplier_repeated :
  Triangle.getColorSeed (heap onlyX1) (mkTriangle 0 1 2) = 73856093 ∧
  Triangle.getColorSeed (heap onlyY3) (mkTriangle 0 1 2) = 73856093 ∧
  ¬ NoDup seedMultipliers.
Proof.
  split; [vm_compute; reflexivity|]. split; [vm_compute; reflexivity|].
  unfold seedMultipliers. intros Hnd. apply NoDup_cons in Hnd as [Hnotin _].
  apply Hnotin. rewrite !elem_of_cons. auto 10.
Qed.

(** The product is rounded before it is floored: 38.22698877396615 times
    73856093 is 2823296037.99999997..., and the double nearest to it is
    2823296038. *)
Lemma getColorSeed_rounded_product :
  Triangle.getColorSeed (heap roundedUp) (mkTriangle 0 1 2) = 2823296038.
Proof. vm_compute. reflexivity. Qed.

End Binary64ColorSeed.

(** * Double precision: the triangle list *)

Section Binary64Delaunay.

Import Binary64 Binary64.DelaunayTriangulation.








(** The four corners of the unit square lie on one circle too; there the
    centre (1/2, 1/2) and the squared radius 1/2 are computed without
    rounding error, and the four triangles are in the list. *)
Lemma Binary64_unitSquare_triangles :
  findDelaunayTriangles unitSquare =
  [mkTriangle 0 1 2; mkTriangle 0 1 3; mkTriangle 0 2 3; mkTriangle 1 2 3].
Proof. vm_compute. reflexivity. Qed.

End Binary64Delaunay.

(** * Single precision *)

Section SinglePrecision.

Lemma ln_2_pos : 0 < ln 2.
Proof. rewrite <- ln_1. apply ln_increasing; lra. Qed.

Lemma ln_powerRZ_2 k : ln (powerRZ 2 k) = IZR k * ln 2.
Proof. rewrite powerRZ_Rpower by lra. unfold Rpower. apply ln_exp. Qed.

(** [ilog2 r] is the exponent of the power of 2 at or below [r]. *)
Lemma ilog2_spec r k : powerRZ 2 k <= r < powerRZ 2 (k + 1) → ilog2 r = k.
Proof.
  intros [Hlow Hhigh]. unfold ilog2. symmetry. apply Int_part_spec.
  pose proof ln_2_pos as H2.
  assert (Hpos : 0 < powerRZ 2 k) by (apply powerRZ_lt; lra).
  assert (Hk : IZR k * ln 2 <= ln r).
  { rewrite <- ln_powerRZ_2. destruct Hlow as [Hlt| ->]; [|lra].
    left. by apply ln_increasing. }
  assert (Hk1 : ln r < (IZR k + 1) * ln 2).
  { rewrite <- plus_IZR, <- ln_powerRZ_2. apply ln_increasing; lra. }
  split.
  - apply (Rmult_lt_reg_r (ln 2)); [done|].
    replace ((ln r / ln 2 - 1) * ln 2) with (ln r - ln 2) by (field; lra). lra.
  - apply (Rmult_le_reg_r (ln 2)); [done|].
    replace (ln r / ln 2 * ln 2) with (ln r) by (field; lra). lra.
Qed.

Lemma powerRZ_2_neg n : powerRZ 2 (- Z.of_nat n) = / IZR (2 ^ Z.of_nat n).
Proof. by rewrite powerRZ_neg', <- pow_powerRZ, pow_IZR. Qed.

Lemma roundHalfEven_up r z :
  IZR z + 1 / 2 < r < IZR z + 1 → roundHalfEven r = (z + 1)%Z.
Proof.
  intros [Hlow Hhigh]. unfold roundHalfEven.
  assert (Int_part r = z) as ->.
  { symmetry. apply Int_part_spec. lra. }
  rewrite bool_decide_eq_false_2 by lra. by rewrite bool_decide_eq_true_2 by lra.
Qed.

(** The z coordinate of the vertices, -0.1, is in the buffers as
    -13421773 / 2^27, which is -0.100000001490116...: the nearest number
    with 24 significant bits. *)
Lemma toFloat32_Z_OFFSET :
  toFloat32 DelaunayTriangulation.Z_OFFSET = F32 (- (13421773 / 134217728)).
Proof.
  unfold toFloat32, DelaunayTriangulation.Z_OFFSET.
  assert (Habs : Rabs (-0.1) = 0.1) by (rewrite Rabs_left; lra).
  assert (H4 : powerRZ 2 (-4) = / 16) by apply (powerRZ_2_neg 4).
  assert (H3 : powerRZ 2 (-4 + 1) = / 8) by apply (powerRZ_2_neg 3).
  assert (H27 : powerRZ 2 (-27) = / 134217728) by apply (powerRZ_2_neg 27).
  assert (H128 : 1 <= powerRZ 2 128).
  { change 128%Z with (Z.of_nat 128). rewrite <- pow_powerRZ. apply pow_R1_Rle. lra. }
  rewrite bool_decide_eq_false_2 by lra. rewrite Habs.
  rewrite (ilog2_spec 0.1 (-4)) by (rewrite H4, H3; lra).
  change (Z.max (-4 - 23) (-149)) with (-27)%Z. rewrite H27.
  rewrite (roundHalfEven_up (0.1 / / 134217728) 13421772) by lra.
  change (13421772 + 1)%Z with 13421773%Z.
  rewrite bool_decide_eq_false_2 by lra.
  rewrite bool_decide_eq_true_2 by lra. reflexivity.
Qed.

End SinglePrecision.
